(** * Motion-vector entropy coding: av1/encoder/encodemv.c

    A shallow embedding of the motion-vector differential coder and of its
    rate-cost estimator, and the properties the design document states
    about them.

    Conventions.
    - C [int] values are integers of [Z].  Signed overflow is undefined
      in C and none of the functions below comes near it on the operands
      the statements range over; the conversions that C does define
      ([unsigned int], [uint8_t]) are written out as reductions modulo a
      power of two, and so are the conversions to a narrower or equally
      wide signed type ([int16_t], [int] from [unsigned int]), which the
      compilers the encoder is built with perform in two's complement.
    - [assert] is a failure of the computation ([None]).
    - A C array is a function of its index; a store through a pointer is
      a function update.
    - The constants that encodemv.c takes from headers outside this file
      and its external collaborators are the members of [Environment];
      every theorem states what it needs of them. *)

From Stdlib Require Import ZArith QArith Qpower Lia.
From stdpp Require Import base decidable option list list_numbers functions.

#[local] Open Scope Z_scope.

(** ** Integer conversions *)

Definition INT_MAX : Z := 2 ^ 31 - 1.
Definition INT_MIN : Z := - 2 ^ 31.
Definition INT16_MAX : Z := 2 ^ 15 - 1.
Definition INT16_MIN : Z := - 2 ^ 15.

(** Conversion of an [int] to [unsigned int]. *)
Definition to_unsigned (n : Z) : Z := n mod 2 ^ 32.

(** Conversion of an [unsigned int] to [int]: the value is kept when it
    fits, and reduced modulo [2 ^ 32] into the range of [int] when it does
    not. *)
Definition to_int (n : Z) : Z := (n + 2 ^ 31) mod 2 ^ 32 - 2 ^ 31.

(** Conversion of an [int] to [int16_t]: the value is kept when it fits,
    and reduced modulo [2 ^ 16] into the range of [int16_t] when it does
    not. *)
Definition to_int16 (n : Z) : Z := (n + 2 ^ 15) mod 2 ^ 16 - 2 ^ 15.

(** Conversion to [uint8_t]. *)
Definition to_uint8 (n : Z) : Z := n mod 2 ^ 8.

(** C truth value of an integer. *)
Definition nonzero (n : Z) : bool := negb (n =? 0).

(** Modelled from the spec: [AOMMAX] is a macro of aom_dsp/aom_dsp_common.h,
    which is not part of the sources at hand; the step-size tracking keeps
    "a running maximum", so it is the larger of its two arguments. *)
Definition AOMMAX (a b : Z) : Z := if a >? b then a else b.

(** ** Magnitude classes *)

Definition MV_CLASS_TYPE : Type := Z.

(** Modelled from the spec: the enumeration [MV_CLASS_TYPE] is declared in
    av1/common/entropymv.h, which is not part of the sources at hand.  The
    magnitude class is "one of a small fixed set (e.g. 11)" whose first
    member is class 0 and whose last member is the class the classifier
    clamps to; the enumerators are numbered from zero. *)
Definition MV_CLASS_0 : MV_CLASS_TYPE := 0.
Definition MV_CLASS_10 : MV_CLASS_TYPE := 10.

(** Modelled from the spec: [get_msb] is declared in aom_ports/bitops.h,
    which is not part of the sources at hand.  By the comment on
    [log_in_base_2] it is the floor of the logarithm in base 2 of its
    argument, and it is only called on a non-zero argument. *)
Definition get_msb (n : Z) : Z := Z.log2 n.

(** If n != 0, returns the floor of log base 2 of n. If n == 0, returns 0. *)
Definition log_in_base_2 (n : Z) : Z :=
  to_uint8 (if n =? 0 then 0 else get_msb n).

(** The mathematical reading of "c = floor(log2 q)" for a rational [q]:
    [2^c <= q < 2^(c+1)].  No [c] satisfies it when [q <= 0]. *)
Definition is_floor_log2 (q : Q) (c : Z) : Prop :=
  (2 ^ c <= q)%Q /\ (q < 2 ^ (c + 1))%Q.

(** ** Motion vectors and joint types *)

(** A motion vector: signed (row, col) pair in eighth-pixel units.  The
    structure is declared in av1/common/mv.h, which is not part of the
    sources at hand; its two fields are [int16_t], so a value that is
    stored in one of them goes through [to_int16]. *)
Record MV : Type := mkMV { row : Z; col : Z }.

(** [int_mv] is a union of an [MV] and its 32-bit image; only the vector
    is used here. *)
Definition int_mv : Type := MV.

Definition MvSubpelPrecision : Type := Z.

(** Modelled from the spec: [MV_JOINT_TYPE], [av1_get_mv_joint],
    [mv_joint_vertical] and [mv_joint_horizontal] are declared in
    av1/common/entropymv.h, which is not part of the sources at hand.  The
    joint type is one of "{neither, col-only, row-only, both} non-zero",
    in this order, "derived from which scalar(s) are non-zero"; the
    component encoder is invoked "per non-zero scalar", the row being the
    vertical one. *)
Inductive MV_JOINT_TYPE : Type :=
  | MV_JOINT_ZERO    (* neither component is non-zero *)
  | MV_JOINT_HNZVZ   (* col-only: vertical zero, horizontal non-zero *)
  | MV_JOINT_HZVNZ   (* row-only: horizontal zero, vertical non-zero *)
  | MV_JOINT_HNZVNZ. (* both non-zero *)

(** The value of the enumerator, which is the symbol that is coded. *)
Definition joint_symbol (j : MV_JOINT_TYPE) : Z :=
  match j with
  | MV_JOINT_ZERO => 0
  | MV_JOINT_HNZVZ => 1
  | MV_JOINT_HZVNZ => 2
  | MV_JOINT_HNZVNZ => 3
  end.

(** Modelled from the spec: see [MV_JOINT_TYPE]. *)
Definition av1_get_mv_joint (mv : MV) : MV_JOINT_TYPE :=
  if row mv =? 0
  then (if col mv =? 0 then MV_JOINT_ZERO else MV_JOINT_HNZVZ)
  else (if col mv =? 0 then MV_JOINT_HZVNZ else MV_JOINT_HNZVNZ).

(** Modelled from the spec: see [MV_JOINT_TYPE]. *)
Definition mv_joint_vertical (j : MV_JOINT_TYPE) : bool :=
  match j with MV_JOINT_HZVNZ | MV_JOINT_HNZVNZ => true | _ => false end.

(** Modelled from the spec: see [MV_JOINT_TYPE]. *)
Definition mv_joint_horizontal (j : MV_JOINT_TYPE) : bool :=
  match j with MV_JOINT_HNZVZ | MV_JOINT_HNZVNZ => true | _ => false end.

(** ** Probability models *)

(** A distribution: an array of cumulative probabilities. *)
Definition aom_cdf : Type := list Z.

(** The distributions of [nmv_component], named by the member and, for an
    array member, the indices.  [class0_fp_cdf] and [fp_cdf] have one more
    dimension when [CONFIG_FLEX_MVRES] is set, so they carry the list of
    their indices: [class0_fp_cdf [d]] and [fp_cdf []] without it,
    [class0_fp_cdf [d; j]] and [fp_cdf [j]] with it. *)
Inductive nmv_component_cdf : Type :=
  | sign_cdf
  | classes_cdf
  | class0_cdf
  | bits_cdf (i : Z)
  | class0_fp_cdf (idx : list Z)
  | fp_cdf (idx : list Z)
  | class0_hp_cdf
  | hp_cdf.

(** The distributions of [nmv_context]: [joints_cdf] and those of
    [comps[k]]. *)
Inductive nmv_context_cdf : Type :=
  | joints_cdf
  | comps (k : Z) (f : nmv_component_cdf).

#[global] Instance nmv_component_cdf_eq_dec : EqDecision nmv_component_cdf.
Proof. solve_decision. Defined.

#[global] Instance nmv_context_cdf_eq_dec : EqDecision nmv_context_cdf.
Proof. solve_decision. Defined.

(** The contents of an [nmv_component] and of an [nmv_context]. *)
Definition nmv_component : Type := nmv_component_cdf -> aom_cdf.
Definition nmv_context : Type := nmv_context_cdf -> aom_cdf.

(** A pointer to an [nmv_component] inside the context: where each of
    its distributions lives.  [&mvctx->comps[k]] is [comps k]. *)
Definition nmv_component_ptr : Type := nmv_component_cdf -> nmv_context_cdf.

(** ** The coder boundary *)

(** One call of [aom_write_symbol]: the value, the distribution it is
    coded with, and the size of the alphabet. *)
Record symbol_write : Type :=
  mkWrite { symb : Z; cdf : nmv_context_cdf; nsymbs : Z }.

(** Modelled from the spec: the arithmetic coder is an external
    collaborator, "writeSymbol(value, distribution, alphabetSize) - writes
    one symbol, mutates distribution in place".  The writer is the sequence
    of the symbols written to it so far. *)
Definition aom_writer : Type := list symbol_write.

(** What the encoder works on: the writer and the probability context. *)
Record enc_state : Type :=
  mkState { writer : aom_writer; mvctx : nmv_context }.

(** Computations on the encoder state that may fail an assertion. *)
Definition M (A : Type) : Type := enc_state -> option (A * enc_state).

#[global] Instance M_ret : MRet M := fun A x s => Some (x, s).

#[global] Instance M_bind : MBind M := fun A B f m s =>
  match m s with
  | Some (x, s') => f x s'
  | None => None
  end.

Definition assert (b : bool) : M unit :=
  fun s => if b then Some (tt, s) else None.

(** [for (x in l) body(x)]. *)
Fixpoint for_each {A : Type} (l : list A) (body : A -> M unit) : M unit :=
  match l with
  | [] => mret tt
  | x :: l' => body x;; for_each l' body
  end.

(** [for (i = lo; i < hi; ++i) body(i)]. *)
Definition for_range (lo hi : Z) (body : Z -> M unit) : M unit :=
  for_each (seqZ lo (hi - lo)) body.

(** [for (i = 0; i < n; ++i) a[i] = row(i)]. *)
Definition init_rows {A : Type} (n : Z) (row : Z -> A) (a : Z -> A) : Z -> A :=
  fold_left (fun a i => <[i := row i]> a) (seqZ 0 n) a.

(** ** The encoder instance and the candidate stack *)

(** The members of [AV1_COMP] that the coder touches:
    [sf.mv.auto_mv_step_size] and [max_mv_magnitude], both of type
    [int]. *)
Record AV1_COMP : Type :=
  mkCpi { auto_mv_step_size : Z; max_mv_magnitude : Z }.

Definition MV_REFERENCE_FRAME : Type := Z.

Record CANDIDATE_MV : Type := mkCand { this_mv : int_mv; comp_mv : int_mv }.

(** The members of [MB_MODE_INFO_EXT] that the resolver reads, each an
    array over the reference-frame type. *)
Record MB_MODE_INFO_EXT : Type :=
  mkExt { ref_mv_stack : Z -> Z -> CANDIDATE_MV;
          ref_mv_count : Z -> Z;
          global_mvs : Z -> int_mv }.

(** ** What the file takes from outside *)

(** The constants of the headers, the build-time switch and the external
    collaborators of encodemv.c. *)
Class Environment : Type :=
  mkEnv {
    (** Constants of av1/common/entropymv.h and av1/common/mv.h. *)
    CLASS0_BITS : Z;
    CLASS0_SIZE : Z;
    MV_CLASSES : Z;
    MV_OFFSET_BITS : Z;
    MV_FP_SIZE : Z;
    MV_JOINTS : Z;
    MV_MAX : Z;
    MV_SUBPEL_NONE : MvSubpelPrecision;
    MV_SUBPEL_HALF_PRECISION : MvSubpelPrecision;
    MV_SUBPEL_QTR_PRECISION : MvSubpelPrecision;
    INTRA_FRAME : MV_REFERENCE_FRAME;
    (** The build-time switch between the two fractional-bit layouts. *)
    CONFIG_FLEX_MVRES : bool;
    (** The cost-derivation boundary, "costsFromDistribution(distribution)
        -> per-symbol bit costs": the array of costs that
        [av1_cost_tokens_from_cdf] fills in from a distribution. *)
    av1_cost_tokens_from_cdf : aom_cdf -> Z -> Z;
    (** The adaptation that the coder applies to a distribution after it
        has coded a symbol with it. *)
    update_cdf : aom_cdf -> Z -> Z -> aom_cdf;
    (** The key of a reference-frame pair in the candidate stack
        (av1/common/mvref_common.h). *)
    av1_ref_frame_type : (Z -> MV_REFERENCE_FRAME) -> Z;
    (** The value of a cell of a local array that has not been written. *)
    indeterminate : Z
  }.

(** ** Blocks and prediction modes *)

(** The members of [MB_MODE_INFO] that the resolver entries read: the
    prediction mode, the index into the candidate stack and the pair of
    reference frames. *)
Record MB_MODE_INFO : Type :=
  mkMbmi { mbmi_mode : Z;
           mbmi_ref_mv_idx : Z;
           mbmi_ref_frame : Z -> MV_REFERENCE_FRAME }.

(** The members of [MACROBLOCK] that [av1_get_ref_mv] reads: the mode
    info of the current block, [e_mbd.mi[0]], and [mbmi_ext]. *)
Record MACROBLOCK : Type :=
  mkMacroblock { e_mbd_mi_0 : MB_MODE_INFO;
                 x_mbmi_ext : MB_MODE_INFO_EXT }.

(** What the two convenience entries of the resolver take from headers
    outside this file: two prediction modes and [NONE_FRAME] of
    av1/common/enums.h, [has_second_ref] of av1/common/blockd.h and
    [lower_mv_precision] of av1/common/mv.h, which rounds a vector in
    place. *)
Class PredictionEnvironment : Type :=
  mkPredEnv {
    NEAR_NEWMV : Z;
    NEW_NEARMV : Z;
    NONE_FRAME : MV_REFERENCE_FRAME;
    has_second_ref : MB_MODE_INFO -> bool;
    lower_mv_precision : MV -> MvSubpelPrecision -> MV
  }.

(** ** Sample inputs *)

Module Sample.

(** A probability-to-cost conversion in whole bits scaled by 512: the
    symbol [s] of probability [p / 32768] costs [(15 - floor(log2 p)) * 512],
    where [p] is the step of the cumulative distribution at [s]. *)
Definition cost_tokens (c : aom_cdf) (s : Z) : Z :=
  let hi := nth (Z.to_nat s) c 32768 in
  let lo := if s =? 0 then 0 else nth (Z.to_nat (s - 1)) c 32768 in
  (15 - Z.log2 (hi - lo)) * 512.

(** An adaptation rule: the coded symbol gains a little probability, the
    steps of the cumulative distribution below it move down and those from
    it on move up. *)
Definition adapt (c : aom_cdf) (s n : Z) : aom_cdf :=
  imap (fun i x =>
          if Z.of_nat i <? s
          then x - Z.shiftr x 5
          else x + Z.shiftr (32768 - x) 5) c.

(** A component model: sign 7/8 against 1/8, eleven classes with class 0
    at one half, everything else even. *)
Definition component : nmv_component := fun f =>
  match f with
  | sign_cdf => [28672; 32768]
  | classes_cdf =>
      [16384; 24576; 28672; 30720; 31744; 32256; 32512; 32640; 32704;
       32736; 32768]
  | class0_cdf => [8192; 32768]
  | fp_cdf [] | class0_fp_cdf [_] => [8192; 16384; 24576; 32768]
  | _ => [16384; 32768]
  end.

Definition context : nmv_context := fun l =>
  match l with
  | joints_cdf => [4096; 11264; 19328; 32768]
  | comps _ f => component f
  end.

Definition state : enc_state := mkState [] context.

Definition cpi : AV1_COMP := mkCpi 1 0.

(** A candidate stack with two entries for every reference-frame type. *)
Definition mbmi_ext : MB_MODE_INFO_EXT :=
  mkExt (fun _ i => mkCand (mkMV (8 * i) 16) (mkMV (-8) (8 * i)))
        (fun _ => 2)
        (fun t => mkMV (32 * t) (-32)).

Definition ref_frame_type (ref_frame : Z -> MV_REFERENCE_FRAME) : Z :=
  if ref_frame 1 >? 0 then 8 else ref_frame 0.

(** The constants of the AV1 format, with the sample collaborators. *)
Definition env (flex : bool) : Environment :=
  {| CLASS0_BITS := 1;
     CLASS0_SIZE := 2;
     MV_CLASSES := 11;
     MV_OFFSET_BITS := 10;
     MV_FP_SIZE := 4;
     MV_JOINTS := 4;
     MV_MAX := 16383;
     MV_SUBPEL_NONE := -1;
     MV_SUBPEL_HALF_PRECISION := 0;
     MV_SUBPEL_QTR_PRECISION := 1;
     INTRA_FRAME := 0;
     CONFIG_FLEX_MVRES := flex;
     av1_cost_tokens_from_cdf := cost_tokens;
     update_cdf := adapt;
     av1_ref_frame_type := ref_frame_type;
     indeterminate := 0 |}.

(** The sample environment with the two-decision fractional layout. *)
Definition av1 : Environment := env true.

(** A rounding of a vector towards zero to a multiple of 8, 4, 2 or 1
    eighth-pixels for the precisions -1, 0, 1 and above. *)
Definition lower (mv : MV) (precision : MvSubpelPrecision) : MV :=
  let step := if precision <? 0 then 8
              else if precision =? 0 then 4
              else if precision =? 1 then 2 else 1 in
  mkMV (Z.quot (row mv) step * step) (Z.quot (col mv) step * step).

(** The sample component with other fractional and high-precision
    distributions. *)
Definition skewed_component : nmv_component := fun f =>
  match f with
  | fp_cdf _ | class0_fp_cdf _ => [4096; 8192; 12288; 32768]
  | class0_hp_cdf | hp_cdf => [1024; 32768]
  | _ => component f
  end.

(** An empty candidate stack. *)
Definition empty_ext : MB_MODE_INFO_EXT :=
  mkExt (fun _ i => mkCand (mkMV (8 * i) 16) (mkMV (-8) (8 * i)))
        (fun _ => 0)
        (fun t => mkMV (32 * t + 3) (-29)).

(** A compound block in the mode [NEAR_NEWMV] at stack index 0. *)
Definition near_new_block : MACROBLOCK :=
  mkMacroblock (mkMbmi 19 0 (fun i => if i =? 0 then 1 else 4)) mbmi_ext.

(** Prediction modes and frames as AV1 numbers them, with the sample
    rounding. *)
Definition modes : PredictionEnvironment :=
  {| NEAR_NEWMV := 19;
     NEW_NEARMV := 20;
     NONE_FRAME := -1;
     has_second_ref := fun mbmi => mbmi_ref_frame mbmi 1 >? 0;
     lower_mv_precision := lower |}.

End Sample.

Section EncodeMv.

Context {env : Environment}.

(** *** Magnitude classifier *)

Definition mv_class_base (c : MV_CLASS_TYPE) : Z :=
  if nonzero c then Z.shiftl CLASS0_SIZE (c + 2) else 0.

(** The class of [z] and the offset of [z] in its class.  Every caller
    passes a non-null [offset], so the offset is always produced. *)
Definition get_mv_class (z : Z) : MV_CLASS_TYPE * Z :=
  let c := if z >=? CLASS0_SIZE * 4096
           then MV_CLASS_10
           else log_in_base_2 (to_unsigned (Z.shiftr z 3)) in
  (c, z - mv_class_base c).

(** *** Component encoder *)

Definition aom_write_symbol (symb : Z) (cdf : nmv_context_cdf) (nsymbs : Z)
  : M unit :=
  fun s =>
    Some (tt, mkState (writer s ++ [mkWrite symb cdf nsymbs])
                      (<[cdf := update_cdf (mvctx s cdf) symb nsymbs]>
                         (mvctx s))).

Definition encode_mv_component (comp : Z) (mvcomp : nmv_component_ptr)
    (precision : MvSubpelPrecision) : M unit :=
  assert (nonzero comp);;
  let sign := if comp <? 0 then 1 else 0 in
  let mag := if nonzero sign then - comp else comp in
  let '(mv_class, offset) := get_mv_class (mag - 1) in
  let d := Z.shiftr offset 3 in
  let fr := Z.land (Z.shiftr offset 1) 3 in
  let hp := Z.land offset 1 in
  (* Sign *)
  aom_write_symbol sign (mvcomp sign_cdf) 2;;
  (* Class *)
  aom_write_symbol mv_class (mvcomp classes_cdf) MV_CLASSES;;
  (* Integer bits *)
  (if mv_class =? MV_CLASS_0
   then aom_write_symbol d (mvcomp class0_cdf) CLASS0_SIZE
   else
     let n := mv_class + CLASS0_BITS - 1 in
     for_range 0 n (fun i =>
       aom_write_symbol (Z.land (Z.shiftr d i) 1) (mvcomp (bits_cdf i)) 2));;
  (* Fractional bits *)
  (if precision >? MV_SUBPEL_NONE
   then
     if CONFIG_FLEX_MVRES
     then
       aom_write_symbol (Z.shiftr fr 1)
         (if mv_class =? MV_CLASS_0
          then mvcomp (class0_fp_cdf [d; 0])
          else mvcomp (fp_cdf [0]))
         2;;
       if precision >? MV_SUBPEL_HALF_PRECISION
       then
         aom_write_symbol (Z.land fr 1)
           (if mv_class =? MV_CLASS_0
            then mvcomp (class0_fp_cdf [d; 1 + Z.shiftr fr 1])
            else mvcomp (fp_cdf [1 + Z.shiftr fr 1]))
           2
       else mret tt
     else
       aom_write_symbol fr
         (if mv_class =? MV_CLASS_0
          then mvcomp (class0_fp_cdf [d])
          else mvcomp (fp_cdf []))
         MV_FP_SIZE
   else mret tt);;
  (* High precision bit *)
  (if precision >? MV_SUBPEL_QTR_PRECISION
   then
     aom_write_symbol hp
       (if mv_class =? MV_CLASS_0
        then mvcomp class0_hp_cdf
        else mvcomp hp_cdf)
       2
   else mret tt).

(** *** Cost table builder *)

(** The local cost arrays of [build_nmv_component_cost_table].  The two
    fractional-bit arrays have the shape [[CLASS0_SIZE][3][2]] and [[3][2]]
    with [CONFIG_FLEX_MVRES] and [[CLASS0_SIZE][MV_FP_SIZE]] and
    [[MV_FP_SIZE]] without it; both shapes are kept, each read under its
    own setting of the switch only. *)
Record cost_arrays : Type :=
  mkCosts { sign_cost : Z -> Z;
            class_cost : Z -> Z;
            class0_cost : Z -> Z;
            bits_cost : Z -> Z -> Z;
            class0_fp_cost_flex : Z -> Z -> Z -> Z;
            fp_cost_flex : Z -> Z -> Z;
            class0_fp_cost : Z -> Z -> Z;
            fp_cost : Z -> Z;
            class0_hp_cost : Z -> Z;
            hp_cost : Z -> Z }.

(** The first part of the function: the cost arrays are filled in from
    the distributions of the component. *)
Definition init_cost_arrays (mvcomp : nmv_component)
    (precision : MvSubpelPrecision) : cost_arrays :=
  {| sign_cost := av1_cost_tokens_from_cdf (mvcomp sign_cdf);
     class_cost := av1_cost_tokens_from_cdf (mvcomp classes_cdf);
     class0_cost := av1_cost_tokens_from_cdf (mvcomp class0_cdf);
     bits_cost :=
       init_rows MV_OFFSET_BITS
         (fun i => av1_cost_tokens_from_cdf (mvcomp (bits_cdf i)))
         (fun _ _ => indeterminate);
     class0_fp_cost_flex :=
       fold_left
         (fun a i =>
            <[i := init_rows 3
                     (fun j =>
                        av1_cost_tokens_from_cdf
                          (mvcomp (class0_fp_cdf [i; j])))
                     (a i)]> a)
         (seqZ 0 CLASS0_SIZE) (fun _ _ _ => indeterminate);
     fp_cost_flex :=
       init_rows 3 (fun j => av1_cost_tokens_from_cdf (mvcomp (fp_cdf [j])))
         (fun _ _ => indeterminate);
     class0_fp_cost :=
       init_rows CLASS0_SIZE
         (fun i => av1_cost_tokens_from_cdf (mvcomp (class0_fp_cdf [i])))
         (fun _ _ => indeterminate);
     fp_cost := av1_cost_tokens_from_cdf (mvcomp (fp_cdf []));
     class0_hp_cost :=
       if precision >? MV_SUBPEL_QTR_PRECISION
       then av1_cost_tokens_from_cdf (mvcomp class0_hp_cdf)
       else fun _ => indeterminate;
     hp_cost :=
       if precision >? MV_SUBPEL_QTR_PRECISION
       then av1_cost_tokens_from_cdf (mvcomp hp_cdf)
       else fun _ => indeterminate |}.

(** The body of the loop over [v], up to the two stores: the cost of the
    magnitude [v] before the sign. *)
Definition magnitude_cost (a : cost_arrays) (precision : MvSubpelPrecision)
    (v : Z) : Z :=
  let cost := 0 in
  let z := v - 1 in
  let '(c, o) := get_mv_class z in
  let cost := cost + class_cost a c in
  let d := Z.shiftr o 3 in            (* int mv data *)
  let f := Z.land (Z.shiftr o 1) 3 in (* fractional pel mv data *)
  let e := Z.land o 1 in              (* high precision mv data *)
  let cost :=
    if c =? MV_CLASS_0
    then cost + class0_cost a d
    else
      let b := c + CLASS0_BITS - 1 in (* number of bits *)
      fold_left
        (fun cost i => cost + bits_cost a i (Z.land (Z.shiftr d i) 1))
        (seqZ 0 b) cost in
  if precision >? MV_SUBPEL_NONE
  then
    let cost :=
      if CONFIG_FLEX_MVRES
      then
        if c =? MV_CLASS_0
        then
          let cost := cost + class0_fp_cost_flex a d 0 (Z.shiftr f 1) in
          if precision >? MV_SUBPEL_HALF_PRECISION
          then cost + class0_fp_cost_flex a d (1 + Z.shiftr f 1) (Z.land f 1)
          else cost
        else
          let cost := cost + fp_cost_flex a 0 (Z.shiftr f 1) in
          if precision >? MV_SUBPEL_HALF_PRECISION
          then cost + fp_cost_flex a (1 + Z.shiftr f 1) (Z.land f 1)
          else cost
      else
        if c =? MV_CLASS_0
        then cost + class0_fp_cost a d f
        else cost + fp_cost a f in
    if precision >? MV_SUBPEL_QTR_PRECISION
    then
      if c =? MV_CLASS_0
      then cost + class0_hp_cost a e
      else cost + hp_cost a e
    else cost
  else cost.

Definition build_nmv_component_cost_table (mvcost : Z -> Z)
    (mvcomp : nmv_component) (precision : MvSubpelPrecision) : Z -> Z :=
  let a := init_cost_arrays mvcomp precision in
  let mvcost := <[0 := 0]> mvcost in
  fold_left
    (fun mvcost v =>
       let cost := magnitude_cost a precision v in
       <[- v := cost + sign_cost a 1]> (<[v := cost + sign_cost a 0]> mvcost))
    (seqZ 1 MV_MAX) mvcost.

(** The joint costs and the cost tables of the two components. *)
Definition av1_build_nmv_cost_table (mvcost0 mvcost1 : Z -> Z)
    (ctx : nmv_context) (precision : MvSubpelPrecision)
  : (Z -> Z) * (Z -> Z) * (Z -> Z) :=
  (av1_cost_tokens_from_cdf (ctx joints_cdf),
   build_nmv_component_cost_table mvcost0 (fun f => ctx (comps 0 f))
                                  precision,
   build_nmv_component_cost_table mvcost1 (fun f => ctx (comps 1 f))
                                  precision).

(** *** Joint encoder *)

Definition av1_encode_mv (cpi : AV1_COMP) (mv ref : MV)
    (precision : MvSubpelPrecision) : M AV1_COMP :=
  (* The differences are computed in int and stored in the int16_t
     fields of diff. *)
  let diff :=
    mkMV (to_int16 (row mv - row ref)) (to_int16 (col mv - col ref)) in
  let j := av1_get_mv_joint diff in
  aom_write_symbol (joint_symbol j) joints_cdf MV_JOINTS;;
  (if mv_joint_vertical j
   then encode_mv_component (row diff) (comps 0) precision
   else mret tt);;
  (if mv_joint_horizontal j
   then encode_mv_component (col diff) (comps 1) precision
   else mret tt);;
  (* If auto_mv_step_size is enabled then keep track of the largest
     motion vector component used. *)
  mret (if nonzero (auto_mv_step_size cpi)
        then
          let maxv :=
            to_unsigned
              (Z.shiftr (AOMMAX (Z.abs (row mv)) (Z.abs (col mv))) 3) in
          (* maxv is unsigned: the int field is converted to unsigned for
             the comparison, and the larger one back to int for the
             store. *)
          mkCpi (auto_mv_step_size cpi)
                (to_int (AOMMAX maxv (to_unsigned (max_mv_magnitude cpi))))
        else cpi).

Definition av1_encode_dv (mv ref : MV) : M unit :=
  (* DV and ref DV should not have sub-pel. *)
  assert (Z.land (col mv) 7 =? 0);;
  assert (Z.land (row mv) 7 =? 0);;
  assert (Z.land (col ref) 7 =? 0);;
  assert (Z.land (row ref) 7 =? 0);;
  let diff :=
    mkMV (to_int16 (row mv - row ref)) (to_int16 (col mv - col ref)) in
  let j := av1_get_mv_joint diff in
  aom_write_symbol (joint_symbol j) joints_cdf MV_JOINTS;;
  (if mv_joint_vertical j
   then encode_mv_component (row diff) (comps 0) MV_SUBPEL_NONE
   else mret tt);;
  (if mv_joint_horizontal j
   then encode_mv_component (col diff) (comps 1) MV_SUBPEL_NONE
   else mret tt).

(** *** Reference vector resolver *)

Definition av1_get_ref_mv_from_stack (ref_idx : Z)
    (ref_frame : Z -> MV_REFERENCE_FRAME) (ref_mv_idx : Z)
    (mbmi_ext : MB_MODE_INFO_EXT) : option int_mv :=
  let ref_frame_type := av1_ref_frame_type ref_frame in
  let curr_ref_mv_stack := ref_mv_stack mbmi_ext ref_frame_type in
  if ref_frame 1 >? INTRA_FRAME
  then
    if (ref_idx =? 0) || (ref_idx =? 1)
    then Some (if nonzero ref_idx
               then comp_mv (curr_ref_mv_stack ref_mv_idx)
               else this_mv (curr_ref_mv_stack ref_mv_idx))
    else None
  else
    if ref_idx =? 0
    then Some (if ref_mv_idx <? ref_mv_count mbmi_ext ref_frame_type
               then this_mv (curr_ref_mv_stack ref_mv_idx)
               else global_mvs mbmi_ext ref_frame_type)
    else None.

(** *** What a run of the encoder leaves behind *)

(** The context after the coder has adapted to a sequence of symbols. *)
Definition adapt_all (evs : list symbol_write) (ctx : nmv_context)
  : nmv_context :=
  fold_left
    (fun ctx e => <[cdf e := update_cdf (ctx (cdf e)) (symb e) (nsymbs e)]> ctx)
    evs ctx.

(** The state after the symbols [evs] have been written from [s]. *)
Definition write_all (evs : list symbol_write) (s : enc_state) : enc_state :=
  mkState (writer s ++ evs) (adapt_all evs (mvctx s)).

(** [m] succeeds from every state, returns [x], and what it does to the
    state is to write exactly the symbols [evs], in this order. *)
Definition emits {A : Type} (m : M A) (x : A) (evs : list symbol_write)
  : Prop :=
  forall s, m s = Some (x, write_all evs s).

(** The cost, under the distributions of [ctx], of one coded symbol and
    of a sequence of them. *)
Definition symbol_cost (ctx : nmv_context) (e : symbol_write) : Z :=
  av1_cost_tokens_from_cdf (ctx (cdf e)) (symb e).

Definition symbols_cost (ctx : nmv_context) (evs : list symbol_write) : Z :=
  foldr Z.add 0 (symbol_cost ctx <$> evs).

(** *** The symbol order of the component encoder, in the spec's words *)

(** Step 3, integer bits: "class 0 -> one symbol over the class-0 alphabet
    on offset>>3.  Class>=1 -> (class+constant-1) independent binary
    symbols, LSB first, each with its own per-position distribution". *)
Definition spec_integer_symbols (mvcomp : nmv_component_ptr)
    (mv_class offset : Z) : list symbol_write :=
  if mv_class =? MV_CLASS_0
  then [mkWrite (Z.shiftr offset 3) (mvcomp class0_cdf) CLASS0_SIZE]
  else
    (fun i => mkWrite (Z.land (Z.shiftr (Z.shiftr offset 3) i) 1)
                      (mvcomp (bits_cdf i)) 2)
      <$> seqZ 0 (mv_class + CLASS0_BITS - 1).

(** Step 4, fractional bits, "only if precision allows": the 2-bit value
    [(offset >> 1) & 3] as "one or two binary decisions (coarse then
    optional fine bit) with distributions chosen by class-0-vs-other (and,
    for class 0, by integer offset)", or as "one wider symbol". *)
Definition spec_fractional_symbols (mvcomp : nmv_component_ptr)
    (precision : MvSubpelPrecision) (mv_class offset : Z)
  : list symbol_write :=
  let d := Z.shiftr offset 3 in
  let fr := Z.land (Z.shiftr offset 1) 3 in
  let fp j := if mv_class =? MV_CLASS_0
              then mvcomp (class0_fp_cdf (d :: j))
              else mvcomp (fp_cdf j) in
  if precision >? MV_SUBPEL_NONE
  then
    if CONFIG_FLEX_MVRES
    then
      mkWrite (Z.shiftr fr 1) (fp [0]) 2 ::
      (if precision >? MV_SUBPEL_HALF_PRECISION
       then [mkWrite (Z.land fr 1) (fp [1 + Z.shiftr fr 1]) 2]
       else [])
    else [mkWrite fr (fp []) MV_FP_SIZE]
  else [].

(** Step 5, high-precision bit: "one binary symbol, only above a
    quarter-pixel precision threshold, distribution chosen by
    class-0-vs-other". *)
Definition spec_hp_symbols (mvcomp : nmv_component_ptr)
    (precision : MvSubpelPrecision) (mv_class offset : Z)
  : list symbol_write :=
  if precision >? MV_SUBPEL_QTR_PRECISION
  then [mkWrite (Z.land offset 1)
                (if mv_class =? MV_CLASS_0
                 then mvcomp class0_hp_cdf
                 else mvcomp hp_cdf)
                2]
  else [].

(** Steps 2 to 5 for a magnitude: the class, then the integer bits, the
    fractional bits and the high-precision bit. *)
Definition spec_magnitude_symbols (mvcomp : nmv_component_ptr)
    (precision : MvSubpelPrecision) (mag : Z) : list symbol_write :=
  let '(mv_class, offset) := get_mv_class (mag - 1) in
  mkWrite mv_class (mvcomp classes_cdf) MV_CLASSES
  :: spec_integer_symbols mvcomp mv_class offset
  ++ spec_fractional_symbols mvcomp precision mv_class offset
  ++ spec_hp_symbols mvcomp precision mv_class offset.

(** Steps 1 to 5: the sign as a binary symbol, then the magnitude. *)
Definition spec_component_symbols (mvcomp : nmv_component_ptr)
    (precision : MvSubpelPrecision) (comp : Z) : list symbol_write :=
  mkWrite (if comp <? 0 then 1 else 0) (mvcomp sign_cdf) 2
  :: spec_magnitude_symbols mvcomp precision (Z.abs comp).

(** The joint encoder: "code joint symbol; invoke Component Encoder per
    non-zero scalar at the requested precision", the row with [comps[0]]
    and the column with [comps[1]]. *)
Definition spec_joint_symbols (precision : MvSubpelPrecision) (diff : MV)
  : list symbol_write :=
  mkWrite (joint_symbol (av1_get_mv_joint diff)) joints_cdf MV_JOINTS
  :: (if row diff =? 0 then []
      else spec_component_symbols (comps 0) precision (row diff))
  ++ (if col diff =? 0 then []
      else spec_component_symbols (comps 1) precision (col diff)).

(** Whether a symbol is coded with a fractional-bit or a high-precision
    distribution of either component. *)
Definition is_subpel_write (e : symbol_write) : bool :=
  match cdf e with
  | comps _ (class0_fp_cdf _ | fp_cdf _ | class0_hp_cdf | hp_cdf) => true
  | _ => false
  end.

(** The signed component that a sign, a class and an offset stand for. *)
Definition mv_reconstruct (sign : bool) (c o : Z) : Z :=
  let mag := mv_class_base c + o + 1 in
  if sign then - mag else mag.

(** *** The convenience entries of the resolver *)

Context {penv : PredictionEnvironment}.

Definition av1_get_ref_mv (x : MACROBLOCK) (ref_idx : Z) : option int_mv :=
  let mbmi := e_mbd_mi_0 x in
  let ref_mv_idx := mbmi_ref_mv_idx mbmi in
  ref_mv_idx ←
    (if (mbmi_mode mbmi =? NEAR_NEWMV) || (mbmi_mode mbmi =? NEW_NEARMV)
     then
       if has_second_ref mbmi then Some (ref_mv_idx + 1) else None
     else Some ref_mv_idx);
  av1_get_ref_mv_from_stack ref_idx (mbmi_ref_frame mbmi) ref_mv_idx
                            (x_mbmi_ext x).

(** The two results are [*nearest_mv] and [*near_mv]. *)
Definition av1_find_best_ref_mvs_from_stack (precision : MvSubpelPrecision)
    (mbmi_ext : MB_MODE_INFO_EXT) (ref_frame : MV_REFERENCE_FRAME)
  : option (int_mv * int_mv) :=
  let ref_idx := 0 in
  let ref_frames := fun i : Z => if i =? 0 then ref_frame else NONE_FRAME in
  nearest_mv ← av1_get_ref_mv_from_stack ref_idx ref_frames 0 mbmi_ext;
  let nearest_mv := lower_mv_precision nearest_mv precision in
  near_mv ← av1_get_ref_mv_from_stack ref_idx ref_frames 1 mbmi_ext;
  let near_mv := lower_mv_precision near_mv precision in
  Some (nearest_mv, near_mv).

(** *** Measures of a run *)

(** The cost of a sequence of symbols when each is costed under the
    distributions as they are at the moment it is written, the coder
    adapting after every symbol. *)
Fixpoint adaptive_cost (ctx : nmv_context) (evs : list symbol_write) : Z :=
  match evs with
  | [] => 0
  | e :: evs' =>
      symbol_cost ctx e
      + adaptive_cost
          (<[cdf e := update_cdf (ctx (cdf e)) (symb e) (nsymbs e)]> ctx)
          evs'
  end.

(** The requirement of the coder on a symbol: it lies in its alphabet. *)
Definition in_alphabet (e : symbol_write) : Prop :=
  0 <= symb e < nsymbs e.

(** The place of a distribution in the order of writing: the joint
    distribution, then for each component the sign, the class, the
    integer part, the fractional part and the high-precision bit. *)
Definition cdf_group (l : nmv_context_cdf) : Z :=
  match l with
  | joints_cdf => 0
  | comps k f =>
      1 + 5 * k
      + match f with
        | sign_cdf => 0
        | classes_cdf => 1
        | class0_cdf | bits_cdf _ => 2
        | class0_fp_cdf _ | fp_cdf _ => 3
        | class0_hp_cdf | hp_cdf => 4
        end
  end.

(** *** Reading the symbols back *)

(** The inverse of the symbol order, on the values of the symbols.  It is
    not part of encodemv.c; it is the device by which the writer is shown
    to lose nothing.  A symbol that the precision leaves out is read as
    set: the fine fractional bit and the high-precision bit as 1, the
    whole fractional value as 3. *)
Definition read_symbol (l : list symbol_write)
  : option (Z * list symbol_write) :=
  match l with
  | [] => None
  | e :: l' => Some (symb e, l')
  end.

(** [n] bits, least significant first. *)
Fixpoint read_bits (n : nat) (l : list symbol_write)
  : option (Z * list symbol_write) :=
  match n with
  | O => Some (0, l)
  | S n' =>
      '(b, l) ← read_symbol l;
      '(d, l) ← read_bits n' l;
      Some (b + 2 * d, l)
  end.

Definition read_mv_component (precision : MvSubpelPrecision)
    (l : list symbol_write) : option (Z * list symbol_write) :=
  '(sign, l) ← read_symbol l;
  '(mv_class, l) ← read_symbol l;
  '(d, l) ← (if mv_class =? MV_CLASS_0
             then read_symbol l
             else read_bits (Z.to_nat (mv_class + CLASS0_BITS - 1)) l);
  '(fr, l) ← (if precision >? MV_SUBPEL_NONE
              then
                if CONFIG_FLEX_MVRES
                then
                  '(hi, l) ← read_symbol l;
                  '(lo, l) ← (if precision >? MV_SUBPEL_HALF_PRECISION
                              then read_symbol l
                              else Some (1, l));
                  Some (2 * hi + lo, l)
                else read_symbol l
              else Some (3, l));
  '(hp, l) ← (if precision >? MV_SUBPEL_QTR_PRECISION
              then read_symbol l
              else Some (1, l));
  let mag := mv_class_base mv_class + (8 * d + 2 * fr + hp) + 1 in
  Some (if nonzero sign then - mag else mag, l).

Definition read_mv (precision : MvSubpelPrecision) (l : list symbol_write)
  : option (MV * list symbol_write) :=
  '(j, l) ← read_symbol l;
  '(r, l) ← (if (j =? joint_symbol MV_JOINT_HZVNZ)
                || (j =? joint_symbol MV_JOINT_HNZVNZ)
             then read_mv_component precision l
             else Some (0, l));
  '(c, l) ← (if (j =? joint_symbol MV_JOINT_HNZVZ)
                || (j =? joint_symbol MV_JOINT_HNZVNZ)
             then read_mv_component precision l
             else Some (0, l));
  Some (mkMV r c, l).

(** The bits of an offset that a precision leaves out are set. *)
Definition implied_bits_set (precision : MvSubpelPrecision) (o : Z) : Prop :=
  (precision <= MV_SUBPEL_QTR_PRECISION -> Z.land o 1 = 1) /\
  (precision <= MV_SUBPEL_NONE -> Z.land (Z.shiftr o 1) 3 = 3) /\
  (CONFIG_FLEX_MVRES = true -> precision <= MV_SUBPEL_HALF_PRECISION ->
   Z.land (Z.land (Z.shiftr o 1) 3) 1 = 1).

(** ** Properties of the magnitude classifier *)

Lemma to_int16_small (z : Z) :
  INT16_MIN <= z <= INT16_MAX -> to_int16 z = z.
Proof.
  unfold INT16_MIN, INT16_MAX, to_int16. intros H.
  rewrite Z.mod_small by lia. lia.
Qed.

Lemma to_int16_range (z : Z) : INT16_MIN <= to_int16 z <= INT16_MAX.
Proof.
  unfold INT16_MIN, INT16_MAX, to_int16.
  pose proof (Z.mod_pos_bound (z + 2 ^ 15) (2 ^ 16) ltac:(lia)). lia.
Qed.

(** A difference within a bound is within it after the narrowing too. *)
Lemma to_int16_within (z m : Z) :
  Z.abs z <= m -> Z.abs (to_int16 z) <= m.
Proof.
  intros H.
  destruct (Z_le_dec INT16_MIN z) as [Hlo|Hlo];
    [destruct (Z_le_dec z INT16_MAX) as [Hhi|Hhi]|].
  - now rewrite to_int16_small.
  - pose proof (to_int16_range z). unfold INT16_MIN, INT16_MAX in *. lia.
  - pose proof (to_int16_range z). unfold INT16_MIN, INT16_MAX in *. lia.
Qed.

Lemma to_int16_0 : to_int16 0 = 0.
Proof. reflexivity. Qed.

Lemma to_int16_bounded (z m : Z) :
  m <= 16384 -> Z.abs z <= m -> to_int16 z = z.
Proof.
  intros Hm Hz. apply to_int16_small. unfold INT16_MIN, INT16_MAX. lia.
Qed.

(** The difference of two 16-bit values is narrowed to zero only when it
    is zero. *)
Lemma to_int16_eq_0_iff (a b : Z) :
  - 2 ^ 16 < a - b < 2 ^ 16 -> to_int16 (a - b) = 0 <-> a = b.
Proof.
  unfold to_int16.
  change (2 ^ 15) with 32768. change (2 ^ 16) with 65536.
  intros H. split; [|intros ->; now rewrite Z.sub_diag].
  Z.to_euclidean_division_equations; lia.
Qed.

(** The narrowing keeps the low three bits. *)
Lemma to_int16_mod_8 (z : Z) : to_int16 z mod 8 = z mod 8.
Proof.
  unfold to_int16.
  change (2 ^ 15) with 32768. change (2 ^ 16) with 65536.
  Z.to_euclidean_division_equations; lia.
Qed.

(** The comparison of the step-size tracking, for a magnitude that fits
    an [int]: a negative running maximum is the larger one once it is
    converted to [unsigned int], and comes back as it was. *)
Lemma to_int_AOMMAX_unsigned (maxv old : Z) :
  0 <= maxv <= INT_MAX -> INT_MIN <= old <= INT_MAX ->
  to_int (AOMMAX maxv (to_unsigned old))
  = if old <? 0 then old else Z.max maxv old.
Proof.
  unfold INT_MAX, INT_MIN, to_int, to_unsigned, AOMMAX. intros Hm Ho.
  change (2 ^ 31) with 2147483648 in *.
  change (2 ^ 32) with 4294967296 in *.
  destruct (Z.ltb_spec old 0) as [Hneg|Hpos].
  - replace (old mod 4294967296) with (old + 4294967296)
      by (Z.to_euclidean_division_equations; lia).
    destruct (Z.gtb_spec maxv (old + 4294967296)); [lia|].
    Z.to_euclidean_division_equations; lia.
  - rewrite (Z.mod_small old) by lia.
    destruct (Z.gtb_spec maxv old);
      Z.to_euclidean_division_equations; lia.
Qed.

Lemma to_unsigned_small (n : Z) : 0 <= n < 2 ^ 32 -> to_unsigned n = n.
Proof. intros H. unfold to_unsigned. now apply Z.mod_small. Qed.

Lemma shiftr3_div (z : Z) : Z.shiftr z 3 = z / 8.
Proof. now rewrite Z.shiftr_div_pow2 by lia. Qed.

Lemma shiftr3_int (z : Z) :
  0 <= z <= INT_MAX -> to_unsigned (Z.shiftr z 3) = z / 8.
Proof.
  intros Hz. unfold INT_MAX in Hz. rewrite shiftr3_div.
  apply to_unsigned_small.
  split; [apply Z.div_pos; lia|].
  apply Z.div_lt_upper_bound; lia.
Qed.

Lemma log_in_base_2_small (n : Z) :
  0 <= n < 2 ^ 32 -> log_in_base_2 n = Z.log2 n.
Proof.
  intros [H0 H1]. unfold log_in_base_2, get_msb, to_uint8.
  destruct (Z.eqb_spec n 0) as [->|Hn]; [reflexivity|].
  apply Z.mod_small. split; [apply Z.log2_nonneg|].
  assert (Z.log2 n < 32) by (apply Z.log2_lt_pow2; lia). lia.
Qed.

(** Below the saturation threshold the class is [Z.log2 (z / 8)], where
    [Z.log2 0 = 0]. *)
Lemma get_mv_class_unsaturated (z : Z) :
  0 <= z <= INT_MAX -> z < CLASS0_SIZE * 4096 ->
  get_mv_class z = (Z.log2 (z / 8), z - mv_class_base (Z.log2 (z / 8))).
Proof.
  intros Hz Hs. unfold get_mv_class.
  destruct (Z.geb_spec z (CLASS0_SIZE * 4096)) as [?|_]; [lia|].
  rewrite shiftr3_int by assumption.
  rewrite log_in_base_2_small; [reflexivity|].
  unfold INT_MAX in Hz. split; [apply Z.div_pos; lia|].
  apply Z.div_lt_upper_bound; lia.
Qed.

Lemma get_mv_class_saturated (z : Z) :
  CLASS0_SIZE * 4096 <= z ->
  get_mv_class z = (MV_CLASS_10, z - mv_class_base MV_CLASS_10).
Proof.
  intros Hs. unfold get_mv_class.
  destruct (Z.geb_spec z (CLASS0_SIZE * 4096)) as [_|?]; [reflexivity|lia].
Qed.

(** The class of an eighth of [z], for [z] of at least 8, is its floor
    logarithm. *)
Lemma log2_eighth_spec (z : Z) :
  8 <= z ->
  0 <= Z.log2 (z / 8) /\
  8 * 2 ^ Z.log2 (z / 8) <= z < 8 * 2 ^ (Z.log2 (z / 8) + 1).
Proof.
  intros Hz.
  assert (Hq : 0 < z / 8) by (apply Z.div_str_pos; lia).
  pose proof (Z.log2_spec _ Hq) as [Hlo Hhi].
  pose proof (Z.log2_nonneg (z / 8)) as Hc.
  replace (Z.succ (Z.log2 (z / 8))) with (Z.log2 (z / 8) + 1) in Hhi by lia.
  pose proof (Z.div_mod z 8 ltac:(lia)) as Hdm.
  pose proof (Z.mod_pos_bound z 8 ltac:(lia)) as Hm.
  split; [assumption|]. lia.
Qed.

Lemma mv_class_base_pos (c : Z) :
  0 < c -> mv_class_base c = CLASS0_SIZE * 2 ^ (c + 2).
Proof.
  intros Hc. unfold mv_class_base, nonzero.
  destruct (Z.eqb_spec c 0) as [?|_]; [lia|]. simpl.
  apply Z.shiftl_mul_pow2. lia.
Qed.

Lemma mv_class_base_0 : mv_class_base MV_CLASS_0 = 0.
Proof. reflexivity. Qed.

(** ** What the encoder writes *)

Lemma write_all_nil (s : enc_state) : write_all [] s = s.
Proof. destruct s. unfold write_all. simpl. now rewrite app_nil_r. Qed.

Lemma write_all_app (e1 e2 : list symbol_write) (s : enc_state) :
  write_all e2 (write_all e1 s) = write_all (e1 ++ e2) s.
Proof.
  unfold write_all, adapt_all. simpl.
  now rewrite fold_left_app, app_assoc.
Qed.

Lemma emits_ret {A : Type} (x : A) : emits (mret x) x [].
Proof. intros s. now rewrite write_all_nil. Qed.

Lemma emits_write (a : Z) (l : nmv_context_cdf) (n : Z) :
  emits (aom_write_symbol a l n) tt [mkWrite a l n].
Proof. intros s. reflexivity. Qed.

Lemma emits_assert (b : bool) : b = true -> emits (assert b) tt [].
Proof. intros -> s. unfold assert. now rewrite write_all_nil. Qed.

Lemma emits_bind {A B : Type} (m : M A) (k : A -> M B) (x : A) (y : B)
    (e1 e2 : list symbol_write) :
  emits m x e1 -> emits (k x) y e2 -> emits (m ≫= k) y (e1 ++ e2).
Proof.
  intros Hm Hk s. unfold mbind, M_bind. rewrite Hm, Hk.
  now rewrite write_all_app.
Qed.

Lemma emits_seq {A B : Type} (m : M A) (k : A -> M B) (x : A) (y : B)
    (e1 e2 e : list symbol_write) :
  emits m x e1 -> emits (k x) y e2 -> e = e1 ++ e2 -> emits (m ≫= k) y e.
Proof. intros Hm Hk ->. now apply emits_bind with x. Qed.

Lemma emits_for_each {A : Type} (l : list A) (body : A -> M unit)
    (f : A -> symbol_write) :
  (forall x, emits (body x) tt [f x]) ->
  emits (for_each l body) tt (f <$> l).
Proof.
  intros Hbody. induction l as [|x l IH]; simpl.
  - apply emits_ret.
  - eapply emits_seq; [apply Hbody|apply IH|reflexivity].
Qed.

Lemma sign_magnitude (comp : Z) :
  (if nonzero (if comp <? 0 then 1 else 0) then - comp else comp)
  = Z.abs comp.
Proof. destruct (Z.ltb_spec comp 0); simpl; lia. Qed.

Lemma emits_integer_bits (mvcomp : nmv_component_ptr) (mv_class offset : Z) :
  emits
    (if mv_class =? MV_CLASS_0
     then aom_write_symbol (Z.shiftr offset 3) (mvcomp class0_cdf) CLASS0_SIZE
     else
       let n := mv_class + CLASS0_BITS - 1 in
       for_range 0 n (fun i =>
         aom_write_symbol (Z.land (Z.shiftr (Z.shiftr offset 3) i) 1)
                          (mvcomp (bits_cdf i)) 2))
    tt (spec_integer_symbols mvcomp mv_class offset).
Proof.
  unfold spec_integer_symbols.
  destruct (mv_class =? MV_CLASS_0); [apply emits_write|].
  unfold for_range. rewrite Z.sub_0_r.
  apply emits_for_each. intros i. apply emits_write.
Qed.

Lemma emits_hp_bit (mvcomp : nmv_component_ptr)
    (precision : MvSubpelPrecision) (mv_class offset : Z) :
  emits
    (if precision >? MV_SUBPEL_QTR_PRECISION
     then
       aom_write_symbol (Z.land offset 1)
         (if mv_class =? MV_CLASS_0
          then mvcomp class0_hp_cdf
          else mvcomp hp_cdf)
         2
     else mret tt)
    tt (spec_hp_symbols mvcomp precision mv_class offset).
Proof.
  unfold spec_hp_symbols.
  destruct (precision >? MV_SUBPEL_QTR_PRECISION);
    [apply emits_write|apply emits_ret].
Qed.

Lemma encode_mv_component_emits (comp : Z) (mvcomp : nmv_component_ptr)
    (precision : MvSubpelPrecision) :
  comp <> 0 ->
  emits (encode_mv_component comp mvcomp precision) tt
        (spec_component_symbols mvcomp precision comp).
Proof.
  intros Hcomp. unfold encode_mv_component, spec_component_symbols,
    spec_magnitude_symbols.
  rewrite sign_magnitude.
  destruct (get_mv_class (Z.abs comp - 1)) as [mv_class offset].
  eapply emits_seq; [apply emits_assert| |reflexivity].
  { unfold nonzero. now destruct (Z.eqb_spec comp 0). }
  eapply emits_seq; [apply emits_write| |reflexivity].
  eapply emits_seq; [apply emits_write| |reflexivity].
  eapply emits_seq; [apply emits_integer_bits| |reflexivity].
  eapply emits_seq; [|apply emits_hp_bit|reflexivity].
  unfold spec_fractional_symbols.
  destruct (precision >? MV_SUBPEL_NONE); [|apply emits_ret].
  destruct CONFIG_FLEX_MVRES; [|apply emits_write].
  eapply emits_seq; [apply emits_write| |reflexivity].
  destruct (precision >? MV_SUBPEL_HALF_PRECISION);
    [apply emits_write|apply emits_ret].
Qed.

(** ** The magnitude classifier *)

(** C10.  For every [z] from 0 to 7 the quantity [z >> 3] is zero, the
    logarithm helper returns zero on it, and the classifier returns class 0
    with offset [z]. *)
Theorem get_mv_class_below_8 (z : Z) :
  0 < CLASS0_SIZE -> 0 <= z <= 7 ->
  Z.shiftr z 3 = 0 /\
  log_in_base_2 (to_unsigned (Z.shiftr z 3)) = 0 /\
  get_mv_class z = (MV_CLASS_0, z).
Proof.
  intros HS Hz.
  assert (Hq : z / 8 = 0) by (apply Z.div_small; lia).
  assert (Hsh : Z.shiftr z 3 = 0) by (now rewrite shiftr3_div).
  split; [assumption|]. split; [now rewrite Hsh|].
  rewrite get_mv_class_unsaturated by (unfold INT_MAX; lia).
  rewrite Hq. unfold mv_class_base, MV_CLASS_0. simpl. f_equal. lia.
Qed.

Lemma Qpower_2_nonneg (c : Z) : 0 <= c -> (2 ^ c == inject_Z (2 ^ c))%Q.
Proof. intros Hc. symmetry. exact (Zpower_Qpower 2 c Hc). Qed.

Lemma is_floor_log2_intro (z c : Z) :
  0 <= c -> 8 * 2 ^ c <= z < 8 * 2 ^ (c + 1) -> is_floor_log2 (z # 8) c.
Proof.
  intros Hc [Hlo Hhi]. unfold is_floor_log2.
  rewrite !Qpower_2_nonneg by lia.
  unfold Qle, Qlt. simpl. lia.
Qed.

(** C4, as amended.  For every non-negative [int] [z]: the class is the
    maximum class when [z >= CLASS0_SIZE * 4096]; below that threshold it
    is the floor of the logarithm in base 2 of [z / 8] when [z >= 8] and
    class 0 when [z < 8]; the offset is [z - classBase(class)], where
    [classBase(0) = 0] and [classBase(c) = CLASS0_SIZE << (c + 2)] for a
    non-zero [c]; and [z = 0] yields class 0 with offset 0. *)
Theorem get_mv_class_spec (z : Z) :
  0 < CLASS0_SIZE -> 0 <= z <= INT_MAX ->
  let c := fst (get_mv_class z) in
  let o := snd (get_mv_class z) in
  (CLASS0_SIZE * 4096 <= z -> c = MV_CLASS_10) /\
  (z < CLASS0_SIZE * 4096 -> 8 <= z -> is_floor_log2 (z # 8) c) /\
  (z < CLASS0_SIZE * 4096 -> z < 8 -> c = MV_CLASS_0) /\
  o = z - mv_class_base c /\
  mv_class_base 0 = 0 /\
  (forall c', c' <> 0 -> mv_class_base c' = Z.shiftl CLASS0_SIZE (c' + 2)) /\
  (z = 0 -> c = MV_CLASS_0 /\ o = 0).
Proof.
  intros HS Hz c o. subst c o.
  split; [|split; [|split; [|split; [|split; [|split]]]]].
  - intros Hsat. now rewrite get_mv_class_saturated.
  - intros Hs H8. rewrite get_mv_class_unsaturated by assumption. simpl.
    destruct (log2_eighth_spec z H8) as (Hc & Hr).
    now apply is_floor_log2_intro.
  - intros Hs H8. rewrite get_mv_class_unsaturated by assumption. simpl.
    rewrite Z.div_small by lia. reflexivity.
  - reflexivity.
  - reflexivity.
  - intros c' Hc'. unfold mv_class_base, nonzero.
    now destruct (Z.eqb_spec c' 0).
  - intros ->. rewrite get_mv_class_unsaturated by lia. split; reflexivity.
Qed.

(** From 1 to 7 the class is 0, which is not the floor of the logarithm
    of [z / 8]: that one is negative. *)
Remark get_mv_class_1_to_7 (z : Z) :
  0 < CLASS0_SIZE -> 1 <= z <= 7 ->
  fst (get_mv_class z) = MV_CLASS_0 /\
  ~ is_floor_log2 (z # 8) (fst (get_mv_class z)).
Proof.
  intros HS Hz.
  rewrite get_mv_class_unsaturated by (unfold INT_MAX; lia). simpl.
  rewrite Z.div_small by lia. split; [reflexivity|].
  intros [Hlo _]. unfold Qle in Hlo. simpl in Hlo. lia.
Qed.

Lemma mv_class_base_two (c : Z) :
  CLASS0_SIZE = 2 -> 0 < c -> mv_class_base c = 8 * 2 ^ c.
Proof.
  intros HS Hc. rewrite mv_class_base_pos by assumption. rewrite HS.
  replace (c + 2) with (2 + c) by lia.
  rewrite Z.pow_add_r by lia. lia.
Qed.

(** With [CLASS0_SIZE = 2], below saturation [z] lies in the range of its
    class. *)
Lemma get_mv_class_range (z : Z) :
  CLASS0_SIZE = 2 -> 0 <= z <= INT_MAX -> z < CLASS0_SIZE * 4096 ->
  let c := fst (get_mv_class z) in
  0 <= c /\ mv_class_base c <= z < mv_class_base (c + 1).
Proof.
  intros HS Hz Hs. rewrite get_mv_class_unsaturated by assumption. simpl.
  destruct (Z_lt_le_dec z 16) as [Hlt|Hge].
  - assert (Hc : Z.log2 (z / 8) = 0).
    { apply Z.log2_null.
      assert (z / 8 < 2) by (apply Z.div_lt_upper_bound; lia). lia. }
    rewrite Hc. rewrite (mv_class_base_two (0 + 1)) by (assumption || lia).
    simpl. unfold mv_class_base. simpl. lia.
  - destruct (log2_eighth_spec z ltac:(lia)) as (Hc & Hlo & Hhi).
    assert (0 < Z.log2 (z / 8)).
    { apply Z.log2_pos.
      assert (2 <= z / 8) by (apply Z.div_le_lower_bound; lia). lia. }
    rewrite !mv_class_base_two by (assumption || lia). lia.
Qed.

Lemma mv_class_base_mono (c c' : Z) :
  CLASS0_SIZE = 2 -> 0 <= c -> c < c' ->
  mv_class_base (c + 1) <= mv_class_base c'.
Proof.
  intros HS Hc Hlt. rewrite !mv_class_base_two by (assumption || lia).
  apply Z.mul_le_mono_nonneg_l; [lia|].
  apply Z.pow_le_mono_r; lia.
Qed.

(** C3.  For a component of magnitude in [[1, MV_MAX]], with [z] the
    magnitude less one: below saturation [z] lies in the range of the
    class that the classifier returns, the offset is below the width of the
    class, and no other class has [z] in its range; at or above saturation
    the class is the maximum class; the sign, class and offset reconstruct
    the component; and at every precision the component encoder codes this
    sign and this class. *)
Theorem mv_class_roundtrip (comp : Z) :
  CLASS0_SIZE = 2 -> MV_MAX <= INT_MAX -> 1 <= Z.abs comp <= MV_MAX ->
  let sign := comp <? 0 in
  let z := Z.abs comp - 1 in
  let c := fst (get_mv_class z) in
  let o := snd (get_mv_class z) in
  (z < CLASS0_SIZE * 4096 ->
   mv_class_base c <= z < mv_class_base (c + 1) /\
   0 <= o < mv_class_base (c + 1) - mv_class_base c /\
   forall c' o', 0 <= c' ->
     mv_class_base c' <= z < mv_class_base (c' + 1) ->
     o' = z - mv_class_base c' -> c' = c /\ o' = o) /\
  (CLASS0_SIZE * 4096 <= z -> c = MV_CLASS_10) /\
  mv_reconstruct sign c o = comp /\
  forall (mvcomp : nmv_component_ptr) (precision : MvSubpelPrecision)
         (s : enc_state),
  exists rest,
    encode_mv_component comp mvcomp precision s =
    Some (tt, write_all (mkWrite (if sign then 1 else 0) (mvcomp sign_cdf) 2
                         :: mkWrite c (mvcomp classes_cdf) MV_CLASSES
                         :: rest) s).
Proof.
  intros HS HM Hcomp sign z c o.
  assert (Hz : 0 <= z <= INT_MAX) by (subst z; lia).
  assert (Ho : o = z - mv_class_base c) by reflexivity.
  split; [|split; [|split]].
  - intros Hs.
    destruct (get_mv_class_range z HS Hz Hs) as [Hc Hr]. fold c in Hc, Hr.
    split; [assumption|]. split; [lia|].
    intros c' o' Hc' Hr' Ho'.
    assert (c' = c); [|subst c'; split; [reflexivity|lia]].
    destruct (Z.lt_trichotomy c' c) as [Hlt|[Heq|Hgt]]; [|assumption|].
    + pose proof (mv_class_base_mono c' c HS Hc' Hlt). lia.
    + pose proof (mv_class_base_mono c c' HS Hc Hgt). lia.
  - intros Hsat. subst c. now rewrite get_mv_class_saturated.
  - unfold mv_reconstruct. rewrite Ho. subst sign z.
    destruct (Z.ltb_spec comp 0); lia.
  - intros mvcomp precision s.
    assert (Hne : comp <> 0) by lia.
    rewrite (encode_mv_component_emits comp mvcomp precision Hne s).
    unfold spec_component_symbols, spec_magnitude_symbols.
    fold z. subst c sign. destruct (get_mv_class z) as [c1 o1]. simpl.
    destruct (comp <? 0); eexists; reflexivity.
Qed.

(** ** The component encoder *)

Lemma spec_integer_symbols_length (mvcomp : nmv_component_ptr) (c o : Z) :
  c <> MV_CLASS_0 ->
  length (spec_integer_symbols mvcomp c o) = Z.to_nat (c + CLASS0_BITS - 1).
Proof.
  intros Hc. unfold spec_integer_symbols.
  destruct (Z.eqb_spec c MV_CLASS_0) as [?|_]; [contradiction|].
  now rewrite length_fmap, length_seqZ.
Qed.

(** C5.  Encoding a non-zero component succeeds and appends to the writer,
    in this order: the sign ([comp < 0]) as a binary symbol; the class as
    one symbol over [MV_CLASSES]; for class 0 one symbol over the class-0
    alphabet on [offset >> 3], for another class [c] the
    [c + CLASS0_BITS - 1] low bits of [offset >> 3], least significant
    first, the bit [i] with the distribution [bits_cdf[i]]; the fractional
    bits only if the precision is above [MV_SUBPEL_NONE]; the high
    precision bit only if the precision is above
    [MV_SUBPEL_QTR_PRECISION], with the class-0 distribution for class 0
    and the other one otherwise.  Each distribution used is adapted. *)
Theorem encode_mv_component_symbol_order (comp : Z)
    (mvcomp : nmv_component_ptr) (precision : MvSubpelPrecision)
    (s : enc_state) :
  comp <> 0 ->
  let sign := if comp <? 0 then 1 else 0 in
  let c := fst (get_mv_class (Z.abs comp - 1)) in
  let offset := snd (get_mv_class (Z.abs comp - 1)) in
  let integer := spec_integer_symbols mvcomp c offset in
  let symbols :=
    [mkWrite sign (mvcomp sign_cdf) 2;
     mkWrite c (mvcomp classes_cdf) MV_CLASSES]
    ++ integer
    ++ spec_fractional_symbols mvcomp precision c offset
    ++ spec_hp_symbols mvcomp precision c offset in
  (exists s',
     encode_mv_component comp mvcomp precision s = Some (tt, s') /\
     writer s' = writer s ++ symbols /\
     mvctx s' = adapt_all symbols (mvctx s)) /\
  (c = MV_CLASS_0 ->
   integer = [mkWrite (Z.shiftr offset 3) (mvcomp class0_cdf) CLASS0_SIZE]) /\
  (c <> MV_CLASS_0 ->
   length integer = Z.to_nat (c + CLASS0_BITS - 1) /\
   forall i, 0 <= i < c + CLASS0_BITS - 1 ->
     integer !! Z.to_nat i =
     Some (mkWrite (Z.land (Z.shiftr (Z.shiftr offset 3) i) 1)
                   (mvcomp (bits_cdf i)) 2)) /\
  (precision <= MV_SUBPEL_NONE ->
   spec_fractional_symbols mvcomp precision c offset = []) /\
  (MV_SUBPEL_NONE < precision ->
   spec_fractional_symbols mvcomp precision c offset <> []) /\
  (precision <= MV_SUBPEL_QTR_PRECISION ->
   spec_hp_symbols mvcomp precision c offset = []) /\
  (MV_SUBPEL_QTR_PRECISION < precision ->
   spec_hp_symbols mvcomp precision c offset =
   [mkWrite (Z.land offset 1)
            (mvcomp (if c =? MV_CLASS_0 then class0_hp_cdf else hp_cdf)) 2]).
Proof.
  intros Hcomp sign c offset integer symbols.
  split; [|split; [|split; [|split; [|split; [|split]]]]].
  - eexists. split; [apply (encode_mv_component_emits _ _ _ Hcomp)|].
    unfold spec_component_symbols, spec_magnitude_symbols.
    subst symbols integer c offset sign.
    destruct (get_mv_class (Z.abs comp - 1)) as [c o]. split; reflexivity.
  - intros Hc. subst integer. unfold spec_integer_symbols.
    now rewrite Hc.
  - intros Hc. split; [now apply spec_integer_symbols_length|].
    intros i Hi. subst integer. unfold spec_integer_symbols.
    destruct (Z.eqb_spec c MV_CLASS_0) as [?|_]; [contradiction|].
    rewrite list_lookup_fmap, lookup_seqZ_lt by lia.
    simpl. now rewrite Z2Nat.id by lia.
  - intros Hp. unfold spec_fractional_symbols.
    destruct (Z.gtb_spec precision MV_SUBPEL_NONE); [lia|reflexivity].
  - intros Hp. unfold spec_fractional_symbols.
    destruct (Z.gtb_spec precision MV_SUBPEL_NONE); [|lia].
    now destruct CONFIG_FLEX_MVRES.
  - intros Hp. unfold spec_hp_symbols.
    destruct (Z.gtb_spec precision MV_SUBPEL_QTR_PRECISION); [lia|reflexivity].
  - intros Hp. unfold spec_hp_symbols.
    destruct (Z.gtb_spec precision MV_SUBPEL_QTR_PRECISION); [|lia].
    now destruct (c =? MV_CLASS_0).
Qed.

Lemma spec_component_symbols_cdf (mvcomp : nmv_component_ptr)
    (precision : MvSubpelPrecision) (comp : Z) :
  Forall (fun e => exists f, cdf e = mvcomp f)
         (spec_component_symbols mvcomp precision comp).
Proof.
  unfold spec_component_symbols, spec_magnitude_symbols.
  destruct (get_mv_class (Z.abs comp - 1)) as [c o].
  constructor; [now eexists|].
  constructor; [now eexists|].
  rewrite !Forall_app. split; [|split].
  - unfold spec_integer_symbols. destruct (c =? MV_CLASS_0).
    + constructor; [now eexists|constructor].
    + apply Forall_fmap, Forall_true. intros i. simpl. now eexists.
  - unfold spec_fractional_symbols.
    destruct (precision >? MV_SUBPEL_NONE); [|constructor].
    destruct CONFIG_FLEX_MVRES;
      destruct (precision >? MV_SUBPEL_HALF_PRECISION);
      destruct (c =? MV_CLASS_0);
      repeat (constructor; [now eexists|]); constructor.
  - unfold spec_hp_symbols.
    destruct (precision >? MV_SUBPEL_QTR_PRECISION); [|constructor].
    destruct (c =? MV_CLASS_0); (constructor; [now eexists|constructor]).
Qed.

(** At [MV_SUBPEL_NONE] no symbol is coded with a fractional or a
    high-precision distribution. *)
Lemma spec_component_symbols_full_pixel (k comp : Z) :
  MV_SUBPEL_NONE <= MV_SUBPEL_QTR_PRECISION ->
  Forall (fun e => is_subpel_write e = false)
         (spec_component_symbols (comps k) MV_SUBPEL_NONE comp).
Proof.
  intros Hord.
  unfold spec_component_symbols, spec_magnitude_symbols.
  destruct (get_mv_class (Z.abs comp - 1)) as [c o].
  constructor; [reflexivity|].
  constructor; [reflexivity|].
  rewrite !Forall_app. split; [|split].
  - unfold spec_integer_symbols. destruct (c =? MV_CLASS_0).
    + constructor; [reflexivity|constructor].
    + apply Forall_fmap, Forall_true. now intros i.
  - unfold spec_fractional_symbols.
    destruct (Z.gtb_spec MV_SUBPEL_NONE MV_SUBPEL_NONE); [lia|constructor].
  - unfold spec_hp_symbols.
    destruct (Z.gtb_spec MV_SUBPEL_NONE MV_SUBPEL_QTR_PRECISION);
      [lia|constructor].
Qed.

(** ** The cost table builder *)

Lemma init_rows_other {A : Type} (row : Z -> A) (l : list Z) (a : Z -> A)
    (i : Z) :
  i ∉ l -> fold_left (fun a i => <[i := row i]> a) l a i = a i.
Proof.
  revert a. induction l as [|k l IH]; intros a Hl; simpl; [reflexivity|].
  apply not_elem_of_cons in Hl as [Hne Hl].
  rewrite (IH _ Hl). now rewrite fn_lookup_insert_ne by congruence.
Qed.

Lemma init_rows_lookup {A : Type} (n : Z) (row : Z -> A) (a : Z -> A)
    (i : Z) :
  0 <= i < n -> init_rows n row a i = row i.
Proof.
  intros Hi. unfold init_rows.
  assert (Hin : i ∈ seqZ 0 n) by (apply elem_of_seqZ; lia).
  clear Hi. revert a. induction (seqZ 0 n) as [|k l IH]; intros a.
  - now apply elem_of_nil in Hin.
  - simpl. destruct (decide (i ∈ l)) as [Hl|Hl]; [now apply IH|].
    apply elem_of_cons in Hin as [->|?]; [|contradiction].
    rewrite init_rows_other by assumption. apply fn_lookup_insert.
Qed.

Lemma class0_fp_cost_flex_lookup (mvcomp : nmv_component)
    (precision : MvSubpelPrecision) (i j : Z) :
  0 <= i < CLASS0_SIZE -> 0 <= j < 3 ->
  class0_fp_cost_flex (init_cost_arrays mvcomp precision) i j
  = av1_cost_tokens_from_cdf (mvcomp (class0_fp_cdf [i; j])).
Proof.
  intros Hi Hj. simpl.
  assert (Hin : i ∈ seqZ 0 CLASS0_SIZE) by (apply elem_of_seqZ; lia).
  clear Hi. generalize (fun _ _ _ : Z => indeterminate) as a.
  induction (seqZ 0 CLASS0_SIZE) as [|k l IH]; intros a.
  - now apply elem_of_nil in Hin.
  - simpl. destruct (decide (i ∈ l)) as [Hl|Hl]; [now apply IH|].
    apply elem_of_cons in Hin as [->|?]; [|contradiction].
    clear IH.
    assert (Hother : forall b : Z -> Z -> Z -> Z,
      fold_left
        (fun a i =>
           <[i := init_rows 3
                    (fun j =>
                       av1_cost_tokens_from_cdf
                         (mvcomp (class0_fp_cdf [i; j])))
                    (a i)]> a) l b k = b k).
    { induction l as [|k' l IH]; intros b; simpl; [reflexivity|].
      apply not_elem_of_cons in Hl as [Hne Hl]. rewrite (IH Hl).
      now rewrite fn_lookup_insert_ne by congruence. }
    rewrite Hother, fn_lookup_insert.
    now rewrite init_rows_lookup by assumption.
Qed.

Lemma fold_store_other (g : Z -> Z) (s0 s1 : Z) (l : list Z) (m : Z -> Z)
    (x : Z) :
  (forall v, v ∈ l -> v <> x /\ - v <> x) ->
  fold_left
    (fun mvcost v => <[- v := g v + s1]> (<[v := g v + s0]> mvcost)) l m x
  = m x.
Proof.
  revert m. induction l as [|k l IH]; intros m Hl; simpl; [reflexivity|].
  rewrite IH by (intros v Hv; apply Hl; now right).
  destruct (Hl k ltac:(left)) as [H1 H2].
  now rewrite !fn_lookup_insert_ne.
Qed.

Lemma fold_store_pos (g : Z -> Z) (s0 s1 : Z) (l : list Z) (m : Z -> Z)
    (x : Z) :
  (forall v, v ∈ l -> 0 < v) -> x ∈ l ->
  fold_left
    (fun mvcost v => <[- v := g v + s1]> (<[v := g v + s0]> mvcost)) l m x
  = g x + s0.
Proof.
  revert m. induction l as [|k l IH]; intros m Hpos Hin.
  - now apply elem_of_nil in Hin.
  - simpl. destruct (decide (x ∈ l)) as [Hl|Hl].
    + apply IH; [|assumption]. intros v Hv. apply Hpos. now right.
    + apply elem_of_cons in Hin as [->|?]; [|contradiction].
      rewrite fold_store_other.
      * pose proof (Hpos k ltac:(left)).
        rewrite fn_lookup_insert_ne by lia. apply fn_lookup_insert.
      * intros v Hv. pose proof (Hpos v ltac:(now right)).
        pose proof (Hpos k ltac:(left)).
        split; [|lia]. intros ->. contradiction.
Qed.

Lemma fold_store_neg (g : Z -> Z) (s0 s1 : Z) (l : list Z) (m : Z -> Z)
    (x : Z) :
  (forall v, v ∈ l -> 0 < v) -> x ∈ l ->
  fold_left
    (fun mvcost v => <[- v := g v + s1]> (<[v := g v + s0]> mvcost)) l m
    (- x)
  = g x + s1.
Proof.
  revert m. induction l as [|k l IH]; intros m Hpos Hin.
  - now apply elem_of_nil in Hin.
  - simpl. destruct (decide (x ∈ l)) as [Hl|Hl].
    + apply IH; [|assumption]. intros v Hv. apply Hpos. now right.
    + apply elem_of_cons in Hin as [->|?]; [|contradiction].
      rewrite fold_store_other.
      * apply fn_lookup_insert.
      * intros v Hv. pose proof (Hpos v ltac:(now right)).
        pose proof (Hpos k ltac:(left)).
        split; [lia|]. intros Heq. assert (v = k) by lia. subst v.
        contradiction.
Qed.

(** The entries of the table: zero at zero, and at [v] and [- v] the
    cost of the magnitude plus the cost of the sign symbol 0 and 1. *)
Lemma cost_table_lookup (mvcost : Z -> Z) (mvcomp : nmv_component)
    (precision : MvSubpelPrecision) (v : Z) :
  1 <= v <= MV_MAX ->
  let a := init_cost_arrays mvcomp precision in
  let table := build_nmv_component_cost_table mvcost mvcomp precision in
  table v = magnitude_cost a precision v + sign_cost a 0 /\
  table (- v) = magnitude_cost a precision v + sign_cost a 1.
Proof.
  intros Hv a table. subst table. unfold build_nmv_component_cost_table.
  cbv zeta. fold a.
  assert (Hpos : forall u, u ∈ seqZ 1 MV_MAX -> 0 < u)
    by (intros u Hu; apply elem_of_seqZ in Hu; lia).
  assert (Hin : v ∈ seqZ 1 MV_MAX) by (apply elem_of_seqZ; lia).
  split.
  - now apply (fold_store_pos (magnitude_cost a precision)).
  - now apply (fold_store_neg (magnitude_cost a precision)).
Qed.

Lemma cost_table_zero (mvcost : Z -> Z) (mvcomp : nmv_component)
    (precision : MvSubpelPrecision) :
  build_nmv_component_cost_table mvcost mvcomp precision 0 = 0.
Proof.
  unfold build_nmv_component_cost_table. cbv zeta.
  rewrite (fold_store_other
             (magnitude_cost (init_cost_arrays mvcomp precision) precision)).
  - apply fn_lookup_insert.
  - intros v Hv. apply elem_of_seqZ in Hv. lia.
Qed.

Lemma symbols_cost_cons (ctx : nmv_context) (e : symbol_write)
    (l : list symbol_write) :
  symbols_cost ctx (e :: l) = symbol_cost ctx e + symbols_cost ctx l.
Proof. reflexivity. Qed.

Lemma symbols_cost_app (ctx : nmv_context) (l1 l2 : list symbol_write) :
  symbols_cost ctx (l1 ++ l2) = symbols_cost ctx l1 + symbols_cost ctx l2.
Proof.
  unfold symbols_cost. rewrite fmap_app.
  induction (symbol_cost ctx <$> l1) as [|x l IH]; simpl; [reflexivity|].
  rewrite IH. lia.
Qed.

(** The classes are within [[0, MV_CLASS_10]], and an offset of class 0
    has an integer part below 2. *)
Lemma get_mv_class_bounds (z : Z) :
  2 <= CLASS0_SIZE <= 4 -> 0 <= z <= INT_MAX ->
  let c := fst (get_mv_class z) in
  let o := snd (get_mv_class z) in
  0 <= c <= MV_CLASS_10 /\ (c = MV_CLASS_0 -> 0 <= Z.shiftr o 3 < 2).
Proof.
  intros HS Hz.
  destruct (Z_lt_le_dec z (CLASS0_SIZE * 4096)) as [Hs|Hs].
  - rewrite get_mv_class_unsaturated by assumption. simpl.
    pose proof (Z.log2_nonneg (z / 8)) as Hc0.
    assert (Hq : 0 <= z / 8 < 2 ^ 11).
    { split; [apply Z.div_pos; lia|].
      apply Z.div_lt_upper_bound; lia. }
    split.
    + split; [assumption|]. unfold MV_CLASS_10.
      destruct (Z.eq_dec (z / 8) 0) as [->|Hne]; [simpl; lia|].
      assert (Z.log2 (z / 8) < 11) by (apply Z.log2_lt_pow2; lia). lia.
    + intros Hc. rewrite Hc. unfold MV_CLASS_0, mv_class_base. simpl.
      rewrite Z.sub_0_r, shiftr3_div.
      apply Z.log2_null in Hc. lia.
  - rewrite get_mv_class_saturated by assumption. simpl.
    split; [unfold MV_CLASS_10; lia|]. discriminate.
Qed.

Lemma land_3_bounds (x : Z) : 0 <= Z.land x 3 < 4.
Proof.
  change 3 with (Z.ones 2). rewrite Z.land_ones by lia.
  apply Z.mod_pos_bound. lia.
Qed.

Lemma fractional_index_bounds (o : Z) :
  0 <= 1 + Z.shiftr (Z.land (Z.shiftr o 1) 3) 1 < 3.
Proof.
  pose proof (land_3_bounds (Z.shiftr o 1)) as Hf.
  rewrite Z.shiftr_div_pow2 by lia. change (2 ^ 1) with 2.
  assert (0 <= Z.land (Z.shiftr o 1) 3 / 2 < 2).
  { split; [apply Z.div_pos; lia|apply Z.div_lt_upper_bound; lia]. }
  lia.
Qed.

Lemma bits_cost_symbols (ctx : nmv_context) (mvcomp : nmv_component_ptr)
    (precision : MvSubpelPrecision) (b d cost : Z) :
  b <= MV_OFFSET_BITS ->
  fold_left
    (fun cost i =>
       cost
       + bits_cost (init_cost_arrays (fun f => ctx (mvcomp f)) precision) i
                   (Z.land (Z.shiftr d i) 1))
    (seqZ 0 b) cost
  = cost
    + symbols_cost ctx
        ((fun i => mkWrite (Z.land (Z.shiftr d i) 1) (mvcomp (bits_cdf i)) 2)
           <$> seqZ 0 b).
Proof.
  intros Hb.
  assert (Hl : forall i, i ∈ seqZ 0 b -> 0 <= i < MV_OFFSET_BITS)
    by (intros i Hi; apply elem_of_seqZ in Hi; lia).
  revert cost. induction (seqZ 0 b) as [|i l IH]; intros cost.
  - unfold symbols_cost. simpl. lia.
  - cbn [fold_left]. rewrite IH by (intros k Hk; apply Hl; now right).
    cbn [bits_cost init_cost_arrays].
    rewrite init_rows_lookup by (apply Hl; now left).
    rewrite fmap_cons, symbols_cost_cons. unfold symbol_cost. simpl.
    lia.
Qed.

(** The cost of a magnitude is the cost, under the distributions of the
    component, of the symbols that the encoder writes for it after the
    sign: no cell of a local array is read before it is written. *)
Lemma magnitude_cost_symbols (ctx : nmv_context) (mvcomp : nmv_component_ptr)
    (precision : MvSubpelPrecision) (v : Z) :
  2 <= CLASS0_SIZE <= 4 ->
  MV_CLASS_10 + CLASS0_BITS - 1 <= MV_OFFSET_BITS ->
  MV_SUBPEL_NONE <= MV_SUBPEL_QTR_PRECISION ->
  1 <= v <= INT_MAX ->
  magnitude_cost (init_cost_arrays (fun f => ctx (mvcomp f)) precision)
                 precision v
  = symbols_cost ctx (spec_magnitude_symbols mvcomp precision v).
Proof.
  intros HS HB Hord Hv.
  pose proof (get_mv_class_bounds (v - 1) HS ltac:(lia)) as [Hc Hd].
  pose proof (fun o => land_3_bounds (Z.shiftr o 1)) as Hf.
  pose proof fractional_index_bounds as Hj.
  unfold magnitude_cost, spec_magnitude_symbols.
  destruct (get_mv_class (v - 1)) as [c o]. simpl in Hc, Hd.
  cbv zeta.
  rewrite symbols_cost_cons, !symbols_cost_app.
  unfold spec_integer_symbols, spec_fractional_symbols, spec_hp_symbols.
  destruct (Z.eqb_spec c MV_CLASS_0) as [Hc0|Hc0].
  - specialize (Hd Hc0).
    destruct (Z.gtb_spec precision MV_SUBPEL_NONE) as [Hp|Hp].
    + destruct CONFIG_FLEX_MVRES;
        destruct (Z.gtb_spec precision MV_SUBPEL_HALF_PRECISION);
        destruct (Z.gtb_spec precision MV_SUBPEL_QTR_PRECISION) as [Hq|Hq];
        rewrite ?class0_fp_cost_flex_lookup by (auto; lia);
        cbn [class_cost class0_cost class0_fp_cost class0_hp_cost
             init_cost_arrays];
        rewrite ?init_rows_lookup by lia;
        destruct (Z.gtb_spec precision MV_SUBPEL_QTR_PRECISION); try lia;
        unfold symbols_cost, symbol_cost; simpl; lia.
    + destruct (Z.gtb_spec precision MV_SUBPEL_QTR_PRECISION); [lia|].
      unfold symbols_cost, symbol_cost. simpl. lia.
  - rewrite bits_cost_symbols by (unfold MV_CLASS_10 in *; lia).
    generalize (symbols_cost ctx
                  ((fun i => mkWrite (Z.land (Z.shiftr (Z.shiftr o 3) i) 1)
                                     (mvcomp (bits_cdf i)) 2)
                     <$> seqZ 0 (c + CLASS0_BITS - 1))) as integer_cost.
    intros integer_cost.
    destruct (Z.gtb_spec precision MV_SUBPEL_NONE) as [Hp|Hp].
    + destruct CONFIG_FLEX_MVRES;
        destruct (Z.gtb_spec precision MV_SUBPEL_HALF_PRECISION);
        destruct (Z.gtb_spec precision MV_SUBPEL_QTR_PRECISION) as [Hq|Hq];
        cbn [class_cost fp_cost_flex fp_cost hp_cost init_cost_arrays];
        rewrite ?init_rows_lookup by (auto; lia);
        destruct (Z.gtb_spec precision MV_SUBPEL_QTR_PRECISION); try lia;
        unfold symbols_cost, symbol_cost; simpl; lia.
    + destruct (Z.gtb_spec precision MV_SUBPEL_QTR_PRECISION); [lia|].
      unfold symbols_cost, symbol_cost. simpl. lia.
Qed.

(** C1.  For a component of magnitude in [[1, MV_MAX]] and every
    precision, encoding the component writes the sign symbol followed by
    the symbols of the magnitude (class; class-0 symbol or integer bits;
    fractional bits; high-precision bit), and the entry of the cost table
    built from the distributions of the component before the encoding is
    the sum of the costs of these magnitude symbols under those
    distributions plus the cost of the sign symbol.  The entry for 0 is
    0. *)
Theorem cost_table_matches_encoder (mvcost : Z -> Z)
    (mvcomp : nmv_component_ptr) (precision : MvSubpelPrecision)
    (s : enc_state) (comp : Z) :
  2 <= CLASS0_SIZE <= 4 ->
  MV_CLASS_10 + CLASS0_BITS - 1 <= MV_OFFSET_BITS ->
  MV_SUBPEL_NONE <= MV_SUBPEL_QTR_PRECISION ->
  MV_MAX <= INT_MAX ->
  1 <= Z.abs comp <= MV_MAX ->
  let snapshot : nmv_component := fun f => mvctx s (mvcomp f) in
  let table := build_nmv_component_cost_table mvcost snapshot precision in
  let sign := if comp <? 0 then 1 else 0 in
  (exists magnitude s',
     encode_mv_component comp mvcomp precision s = Some (tt, s') /\
     writer s' = writer s ++ mkWrite sign (mvcomp sign_cdf) 2 :: magnitude /\
     table comp =
     symbols_cost (mvctx s) magnitude
     + av1_cost_tokens_from_cdf (snapshot sign_cdf) sign) /\
  table 0 = 0.
Proof.
  intros HS HB Hord HM Hcomp snapshot table sign.
  split; [|apply cost_table_zero].
  exists (spec_magnitude_symbols mvcomp precision (Z.abs comp)).
  eexists. split; [apply encode_mv_component_emits; lia|].
  split; [reflexivity|].
  rewrite <- (magnitude_cost_symbols (mvctx s) mvcomp precision (Z.abs comp))
    by (assumption || lia).
  destruct (cost_table_lookup mvcost snapshot precision (Z.abs comp) Hcomp)
    as [Hpos Hneg].
  subst table sign. destruct (Z.ltb_spec comp 0).
  - replace comp with (- Z.abs comp) at 1 by lia. exact Hneg.
  - replace comp with (Z.abs comp) at 1 by lia. exact Hpos.
Qed.

(** C2, as amended.  For every magnitude [v] in [[1, MV_MAX]] the entries
    for [v] and [- v] are one and the same magnitude cost plus the cost of
    the sign symbol 0 and of the sign symbol 1, so that
    [cost(v) - cost(-v) = signCost(0) - signCost(1)]. *)
Theorem cost_table_sign_symmetry (mvcost : Z -> Z) (mvcomp : nmv_component)
    (precision : MvSubpelPrecision) (v : Z) :
  1 <= v <= MV_MAX ->
  let table := build_nmv_component_cost_table mvcost mvcomp precision in
  let signCost := av1_cost_tokens_from_cdf (mvcomp sign_cdf) in
  table v - table (- v) = signCost 0 - signCost 1 /\
  exists magnitude,
    table v = magnitude + signCost 0 /\ table (- v) = magnitude + signCost 1.
Proof.
  intros Hv table signCost.
  destruct (cost_table_lookup mvcost mvcomp precision v Hv) as [Hpos Hneg].
  fold table in Hpos, Hneg.
  cbn [sign_cost init_cost_arrays] in Hpos, Hneg.
  fold signCost in Hpos, Hneg.
  split; [lia|]. eexists. split; eassumption.
Qed.

(** C6, as amended.  Magnitude 1, [z = 0], is of class 0 with offset 0 and
    class-0 symbol 0, and at [MV_SUBPEL_NONE] its entries in the cost table
    are the cost of the sign plus the cost of class 0 among the classes
    plus the cost of the class-0 symbol 0, and nothing else. *)
Theorem cost_table_magnitude_1 (mvcost : Z -> Z) (mvcomp : nmv_component) :
  0 < CLASS0_SIZE -> 1 <= MV_MAX ->
  let table :=
    build_nmv_component_cost_table mvcost mvcomp MV_SUBPEL_NONE in
  let signCost := av1_cost_tokens_from_cdf (mvcomp sign_cdf) in
  let classCost := av1_cost_tokens_from_cdf (mvcomp classes_cdf) in
  let class0Cost := av1_cost_tokens_from_cdf (mvcomp class0_cdf) in
  get_mv_class 0 = (MV_CLASS_0, 0) /\
  Z.shiftr (snd (get_mv_class 0)) 3 = 0 /\
  table 1 = signCost 0 + classCost MV_CLASS_0 + class0Cost 0 /\
  table (- 1) = signCost 1 + classCost MV_CLASS_0 + class0Cost 0.
Proof.
  intros HS HM table signCost classCost class0Cost.
  assert (Hcls : get_mv_class 0 = (MV_CLASS_0, 0)).
  { rewrite get_mv_class_unsaturated by (unfold INT_MAX; lia). reflexivity. }
  split; [assumption|]. split; [now rewrite Hcls|].
  destruct (cost_table_lookup mvcost mvcomp MV_SUBPEL_NONE 1 ltac:(lia))
    as [Hpos Hneg].
  fold table in Hpos, Hneg.
  assert (Hmag : magnitude_cost (init_cost_arrays mvcomp MV_SUBPEL_NONE)
                                MV_SUBPEL_NONE 1
                 = classCost MV_CLASS_0 + class0Cost 0).
  { unfold magnitude_cost. change (1 - 1) with 0. rewrite Hcls.
    destruct (Z.gtb_spec MV_SUBPEL_NONE MV_SUBPEL_NONE); [lia|].
    reflexivity. }
  rewrite Hmag in Hpos, Hneg.
  cbn [sign_cost init_cost_arrays] in Hpos, Hneg.
  fold signCost in Hpos, Hneg.
  split; [|change (-1) with (Z.opp 1)]; lia.
Qed.

(** The difference [cost(v) - cost(-v)] is [signCost(1) - signCost(0)]
    only when the two sign symbols cost the same. *)
Remark sign_difference_as_claimed_iff (mvcost : Z -> Z) (mvcomp : nmv_component)
    (precision : MvSubpelPrecision) (v : Z) :
  1 <= v <= MV_MAX ->
  let table := build_nmv_component_cost_table mvcost mvcomp precision in
  let signCost := av1_cost_tokens_from_cdf (mvcomp sign_cdf) in
  table v - table (- v) = signCost 1 - signCost 0 <->
  signCost 0 = signCost 1.
Proof.
  intros Hv table signCost.
  destruct (cost_table_lookup mvcost mvcomp precision v Hv) as [Hpos Hneg].
  fold table in Hpos, Hneg.
  cbn [sign_cost init_cost_arrays] in Hpos, Hneg.
  fold signCost in Hpos, Hneg. lia.
Qed.

(** At [MV_SUBPEL_NONE] the entry for magnitude 1 is the sign cost plus
    [class0Cost[0]] alone only when the class symbol 0 costs nothing. *)
Remark magnitude_1_entry_two_terms_iff (mvcost : Z -> Z)
    (mvcomp : nmv_component) :
  0 < CLASS0_SIZE -> 1 <= MV_MAX ->
  let table :=
    build_nmv_component_cost_table mvcost mvcomp MV_SUBPEL_NONE in
  let signCost := av1_cost_tokens_from_cdf (mvcomp sign_cdf) in
  let classCost := av1_cost_tokens_from_cdf (mvcomp classes_cdf) in
  let class0Cost := av1_cost_tokens_from_cdf (mvcomp class0_cdf) in
  table 1 = signCost 0 + class0Cost 0 <-> classCost MV_CLASS_0 = 0.
Proof.
  intros HS HM table signCost classCost class0Cost.
  destruct (cost_table_lookup mvcost mvcomp MV_SUBPEL_NONE 1 ltac:(lia))
    as [Hpos _].
  fold table in Hpos.
  assert (Hmag : magnitude_cost (init_cost_arrays mvcomp MV_SUBPEL_NONE)
                                MV_SUBPEL_NONE 1
                 = classCost MV_CLASS_0 + class0Cost 0).
  { unfold magnitude_cost. change (1 - 1) with 0.
    rewrite get_mv_class_unsaturated by (unfold INT_MAX; lia).
    destruct (Z.gtb_spec MV_SUBPEL_NONE MV_SUBPEL_NONE); [lia|].
    reflexivity. }
  rewrite Hmag in Hpos. cbn [sign_cost init_cost_arrays] in Hpos.
  fold signCost in Hpos. lia.
Qed.

(** ** The joint encoder *)

Lemma mv_joint_vertical_row (diff : MV) :
  mv_joint_vertical (av1_get_mv_joint diff) = negb (row diff =? 0).
Proof.
  unfold av1_get_mv_joint.
  now destruct (row diff =? 0), (col diff =? 0).
Qed.

Lemma mv_joint_horizontal_col (diff : MV) :
  mv_joint_horizontal (av1_get_mv_joint diff) = negb (col diff =? 0).
Proof.
  unfold av1_get_mv_joint.
  now destruct (row diff =? 0), (col diff =? 0).
Qed.

Lemma emits_component_if_nonzero (comp : Z) (mvcomp : nmv_component_ptr)
    (precision : MvSubpelPrecision) :
  emits (if negb (comp =? 0)
         then encode_mv_component comp mvcomp precision
         else mret tt)
        tt
        (if comp =? 0 then []
         else spec_component_symbols mvcomp precision comp).
Proof.
  destruct (Z.eqb_spec comp 0) as [?|Hne]; simpl.
  - apply emits_ret.
  - now apply encode_mv_component_emits.
Qed.

Lemma av1_encode_mv_emits (cpi : AV1_COMP) (mv ref : MV)
    (precision : MvSubpelPrecision) :
  exists cpi',
    emits (av1_encode_mv cpi mv ref precision) cpi'
          (spec_joint_symbols precision
             (mkMV (to_int16 (row mv - row ref))
                   (to_int16 (col mv - col ref)))).
Proof.
  eexists. unfold av1_encode_mv, spec_joint_symbols.
  rewrite mv_joint_vertical_row, mv_joint_horizontal_col.
  eapply emits_seq; [apply emits_write| |reflexivity].
  eapply emits_seq; [apply emits_component_if_nonzero| |reflexivity].
  eapply emits_seq;
    [apply emits_component_if_nonzero|apply emits_ret|].
  now rewrite app_nil_r.
Qed.

Lemma av1_encode_dv_emits (mv ref : MV) :
  Z.land (col mv) 7 = 0 -> Z.land (row mv) 7 = 0 ->
  Z.land (col ref) 7 = 0 -> Z.land (row ref) 7 = 0 ->
  emits (av1_encode_dv mv ref) tt
        (spec_joint_symbols MV_SUBPEL_NONE
           (mkMV (to_int16 (row mv - row ref))
                 (to_int16 (col mv - col ref)))).
Proof.
  intros H1 H2 H3 H4. unfold av1_encode_dv, spec_joint_symbols.
  rewrite mv_joint_vertical_row, mv_joint_horizontal_col.
  rewrite H1, H2, H3, H4.
  do 4 (eapply emits_seq; [now apply emits_assert| |reflexivity]).
  eapply emits_seq; [apply emits_write| |reflexivity].
  eapply emits_seq;
    [apply emits_component_if_nonzero
    |apply emits_component_if_nonzero
    |reflexivity].
Qed.

(** The restricted entry rejects a vector or a predictor with a non-zero
    low bit. *)
Lemma av1_encode_dv_rejects_subpel (mv ref : MV) (s : enc_state) :
  Z.land (col mv) 7 <> 0 \/ Z.land (row mv) 7 <> 0 \/
  Z.land (col ref) 7 <> 0 \/ Z.land (row ref) 7 <> 0 ->
  av1_encode_dv mv ref s = None.
Proof.
  intros H. unfold av1_encode_dv, mbind, M_bind, assert.
  destruct (Z.eqb_spec (Z.land (col mv) 7) 0); [|reflexivity].
  destruct (Z.eqb_spec (Z.land (row mv) 7) 0); [|reflexivity].
  destruct (Z.eqb_spec (Z.land (col ref) 7) 0); [|reflexivity].
  destruct (Z.eqb_spec (Z.land (row ref) 7) 0); [|reflexivity].
  tauto.
Qed.

(** C7.  In the general entry, with [diff] the difference [mv - ref] as
    the code holds it, in the 16-bit fields of an [MV]: when both
    components of [diff] are zero, the only symbol written is the joint
    symbol of [MV_JOINT_ZERO] and only the joint distribution is adapted;
    when only the row is non-zero, the joint symbol of [MV_JOINT_HZVNZ] is
    written, then the symbols of one run of the component encoder on the
    row with [comps[0]], and nothing is coded with a distribution of
    [comps[1]]: the state that is left is the one that the joint symbol
    followed by that single run leaves.  [diff] is the exact difference
    whenever that fits the 16 bits; and for a vector and a predictor that
    are themselves 16-bit values, a component of [diff] is zero exactly
    when the vector and the predictor agree on it. *)
Theorem av1_encode_mv_joint (cpi : AV1_COMP) (mv ref : MV)
    (precision : MvSubpelPrecision) (s : enc_state) :
  let diff :=
    mkMV (to_int16 (row mv - row ref)) (to_int16 (col mv - col ref)) in
  (INT16_MIN <= row mv - row ref <= INT16_MAX ->
   INT16_MIN <= col mv - col ref <= INT16_MAX ->
   diff = mkMV (row mv - row ref) (col mv - col ref)) /\
  (INT16_MIN <= row mv <= INT16_MAX -> INT16_MIN <= row ref <= INT16_MAX ->
   INT16_MIN <= col mv <= INT16_MAX -> INT16_MIN <= col ref <= INT16_MAX ->
   (row diff = 0 <-> row mv = row ref) /\
   (col diff = 0 <-> col mv = col ref)) /\
  (row diff = 0 -> col diff = 0 ->
   exists cpi',
     av1_encode_mv cpi mv ref precision s =
     Some (cpi',
           write_all [mkWrite (joint_symbol MV_JOINT_ZERO) joints_cdf
                              MV_JOINTS] s)) /\
  (row diff <> 0 -> col diff = 0 ->
   (exists cpi',
      av1_encode_mv cpi mv ref precision s =
      Some (cpi',
            write_all
              (mkWrite (joint_symbol MV_JOINT_HZVNZ) joints_cdf MV_JOINTS
               :: spec_component_symbols (comps 0) precision (row diff))
              s)) /\
   snd <$> av1_encode_mv cpi mv ref precision s =
   snd <$> (aom_write_symbol (joint_symbol MV_JOINT_HZVNZ) joints_cdf
                             MV_JOINTS;;
            encode_mv_component (row diff) (comps 0) precision) s /\
   Forall (fun e => forall f, cdf e <> comps 1 f)
          (spec_component_symbols (comps 0) precision (row diff))).
Proof.
  intros diff.
  destruct (av1_encode_mv_emits cpi mv ref precision) as [cpi' Hrun].
  specialize (Hrun s). fold diff in Hrun.
  unfold spec_joint_symbols, av1_get_mv_joint in Hrun.
  split; [|split; [|split]].
  - intros Hr Hc. subst diff. now rewrite !to_int16_small.
  - intros Hr Hr' Hc Hc'. subst diff. cbn [row col].
    split; apply to_int16_eq_0_iff;
      unfold INT16_MIN, INT16_MAX in *; lia.
  - intros Hr Hc. exists cpi'. now rewrite Hrun, Hr, Hc.
  - intros Hr Hc.
    destruct (Z.eqb_spec (row diff) 0) as [?|_]; [contradiction|].
    rewrite Hc, app_nil_r in Hrun. simpl in Hrun.
    split; [now exists cpi'|]. split.
    + rewrite Hrun.
      erewrite (emits_seq _ _ tt tt);
        [reflexivity|apply emits_write
        |now apply encode_mv_component_emits|reflexivity].
    + pose proof (spec_component_symbols_cdf (comps 0) precision (row diff))
        as Hcdf.
      rewrite Forall_forall in Hcdf |- *.
      intros e He f'. destruct (Hcdf e He) as [f ->]. discriminate.
Qed.

(** C8.  When the low three bits of both components of the vector and of
    its predictor are zero, the restricted entry succeeds and writes what
    the general entry writes at [MV_SUBPEL_NONE]: the joint symbol and
    then the symbols of the non-zero components of [diff], the difference
    as the code holds it in the 16-bit fields of an [MV]; none of them is
    coded with a fractional or a high-precision distribution.  [diff] is
    the exact difference whenever that fits the 16 bits. *)
Theorem av1_encode_dv_full_pixel (cpi : AV1_COMP) (mv ref : MV)
    (s : enc_state) :
  MV_SUBPEL_NONE <= MV_SUBPEL_QTR_PRECISION ->
  Z.land (col mv) 7 = 0 -> Z.land (row mv) 7 = 0 ->
  Z.land (col ref) 7 = 0 -> Z.land (row ref) 7 = 0 ->
  let diff :=
    mkMV (to_int16 (row mv - row ref)) (to_int16 (col mv - col ref)) in
  let symbols := spec_joint_symbols MV_SUBPEL_NONE diff in
  av1_encode_dv mv ref s = Some (tt, write_all symbols s) /\
  (exists cpi',
     av1_encode_mv cpi mv ref MV_SUBPEL_NONE s =
     Some (cpi', write_all symbols s)) /\
  Forall (fun e => is_subpel_write e = false) symbols /\
  (INT16_MIN <= row mv - row ref <= INT16_MAX ->
   INT16_MIN <= col mv - col ref <= INT16_MAX ->
   diff = mkMV (row mv - row ref) (col mv - col ref)).
Proof.
  intros Hord H1 H2 H3 H4 diff symbols.
  split; [now apply av1_encode_dv_emits|].
  split; [|split;
             [|intros Hr Hc; subst diff; now rewrite !to_int16_small]].
  - destruct (av1_encode_mv_emits cpi mv ref MV_SUBPEL_NONE) as [cpi' Hrun].
    exists cpi'. apply Hrun.
  - subst symbols. unfold spec_joint_symbols.
    constructor; [reflexivity|]. rewrite Forall_app. split.
    + destruct (row diff =? 0);
        [constructor|now apply spec_component_symbols_full_pixel].
    + destruct (col diff =? 0);
        [constructor|now apply spec_component_symbols_full_pixel].
Qed.

(** ** The reference vector resolver *)

(** C9.  With [t] the key of the reference pair: for a compound pair
    ([ref_frame[1] > INTRA_FRAME]) slot 0 is the "this" vector and slot 1
    the "comp" vector of the entry at the index in the stack of [t]; for a
    single reference, slot 0 is the "this" vector of that entry when the
    index is below the populated count of [t], and the global vector of
    [t] otherwise, in particular for every index when the count is zero;
    any other slot fails the assertion. *)
Theorem av1_get_ref_mv_from_stack_spec (ref_frame : Z -> MV_REFERENCE_FRAME)
    (ref_mv_idx : Z) (mbmi_ext : MB_MODE_INFO_EXT) :
  let t := av1_ref_frame_type ref_frame in
  let entry := ref_mv_stack mbmi_ext t ref_mv_idx in
  let resolve ref_idx :=
    av1_get_ref_mv_from_stack ref_idx ref_frame ref_mv_idx mbmi_ext in
  (ref_frame 1 > INTRA_FRAME ->
   resolve 0 = Some (this_mv entry) /\ resolve 1 = Some (comp_mv entry)) /\
  (ref_frame 1 <= INTRA_FRAME ->
   (ref_mv_idx < ref_mv_count mbmi_ext t ->
    resolve 0 = Some (this_mv entry)) /\
   (ref_mv_count mbmi_ext t <= ref_mv_idx ->
    resolve 0 = Some (global_mvs mbmi_ext t)) /\
   (ref_mv_count mbmi_ext t = 0 -> 0 <= ref_mv_idx ->
    resolve 0 = Some (global_mvs mbmi_ext t)) /\
   (forall ref_idx, ref_idx <> 0 -> resolve ref_idx = None)).
Proof.
  intros t entry resolve. subst resolve entry t.
  unfold av1_get_ref_mv_from_stack. split.
  - intros Hc.
    destruct (Z.gtb_spec (ref_frame 1) INTRA_FRAME); [|lia].
    split; reflexivity.
  - intros Hs.
    destruct (Z.gtb_spec (ref_frame 1) INTRA_FRAME); [lia|].
    split; [|split; [|split]].
    + intros Hi. simpl.
      now destruct (Z.ltb_spec ref_mv_idx
                      (ref_mv_count mbmi_ext (av1_ref_frame_type ref_frame)));
        [|lia].
    + intros Hi. simpl.
      now destruct (Z.ltb_spec ref_mv_idx
                      (ref_mv_count mbmi_ext (av1_ref_frame_type ref_frame)));
        [lia|].
    + intros Hn Hi. simpl.
      now destruct (Z.ltb_spec ref_mv_idx
                      (ref_mv_count mbmi_ext (av1_ref_frame_type ref_frame)));
        [lia|].
    + intros ref_idx Hne. now destruct (Z.eqb_spec ref_idx 0).
Qed.

(** ** Failure of the assertions *)

(** The component encoder fails, writing nothing, exactly on the zero
    component. *)
Theorem encode_mv_component_fails_iff (comp : Z) (mvcomp : nmv_component_ptr)
    (precision : MvSubpelPrecision) (s : enc_state) :
  encode_mv_component comp mvcomp precision s = None <-> comp = 0.
Proof.
  split.
  - intros Hnone. destruct (Z.eq_dec comp 0) as [?|Hne]; [assumption|].
    rewrite (encode_mv_component_emits comp mvcomp precision Hne s) in Hnone.
    discriminate.
  - intros ->. reflexivity.
Qed.

(** The restricted entry fails exactly when one of the four components of
    the vector and of its predictor has a non-zero low bit; a difference
    that is a multiple of 8 does not save a vector with a fractional
    part. *)
Theorem av1_encode_dv_fails_iff (mv ref : MV) (s : enc_state) :
  av1_encode_dv mv ref s = None <->
  Z.land (col mv) 7 <> 0 \/ Z.land (row mv) 7 <> 0 \/
  Z.land (col ref) 7 <> 0 \/ Z.land (row ref) 7 <> 0.
Proof.
  split; [|apply av1_encode_dv_rejects_subpel].
  intros Hnone.
  destruct (Z.eq_dec (Z.land (col mv) 7) 0) as [H1|?]; [|tauto].
  destruct (Z.eq_dec (Z.land (row mv) 7) 0) as [H2|?]; [|tauto].
  destruct (Z.eq_dec (Z.land (col ref) 7) 0) as [H3|?]; [|tauto].
  destruct (Z.eq_dec (Z.land (row ref) 7) 0) as [H4|?]; [|tauto].
  rewrite (av1_encode_dv_emits mv ref H1 H2 H3 H4 s) in Hnone.
  discriminate.
Qed.

(** ** The step-size tracking of the general entry *)

Lemma av1_encode_mv_run (cpi : AV1_COMP) (mv ref : MV)
    (precision : MvSubpelPrecision) :
  emits (av1_encode_mv cpi mv ref precision)
        (if nonzero (auto_mv_step_size cpi)
         then
           mkCpi (auto_mv_step_size cpi)
                 (to_int
                    (AOMMAX
                       (to_unsigned
                          (Z.shiftr
                             (AOMMAX (Z.abs (row mv)) (Z.abs (col mv))) 3))
                       (to_unsigned (max_mv_magnitude cpi))))
         else cpi)
        (spec_joint_symbols precision
           (mkMV (to_int16 (row mv - row ref))
                 (to_int16 (col mv - col ref)))).
Proof.
  unfold av1_encode_mv, spec_joint_symbols.
  rewrite mv_joint_vertical_row, mv_joint_horizontal_col.
  eapply emits_seq; [apply emits_write| |reflexivity].
  eapply emits_seq; [apply emits_component_if_nonzero| |reflexivity].
  eapply emits_seq;
    [apply emits_component_if_nonzero|apply emits_ret|].
  now rewrite app_nil_r.
Qed.

Lemma AOMMAX_max (a b : Z) : AOMMAX a b = Z.max a b.
Proof. unfold AOMMAX. destruct (Z.gtb_spec a b); lia. Qed.

(** The general entry never fails: the component encoder is only run on
    a non-zero component.  It leaves the encoder instance as it is when
    [auto_mv_step_size] is off.  When it is on and the running maximum is
    not negative, the running maximum becomes the larger of its old value
    and the larger magnitude of the vector itself, not of the difference,
    in whole pixels; a negative running maximum is kept as it is, since
    the comparison is made in [unsigned int], where it is the larger one.
    So the running maximum never decreases, whatever the predictor and
    the precision. *)
Theorem av1_encode_mv_step_size (cpi : AV1_COMP) (mv ref : MV)
    (precision : MvSubpelPrecision) (s : enc_state) :
  Z.abs (row mv) <= INT_MAX -> Z.abs (col mv) <= INT_MAX ->
  INT_MIN <= max_mv_magnitude cpi <= INT_MAX ->
  exists cpi' s',
    av1_encode_mv cpi mv ref precision s = Some (cpi', s') /\
    auto_mv_step_size cpi' = auto_mv_step_size cpi /\
    (auto_mv_step_size cpi = 0 -> cpi' = cpi) /\
    (auto_mv_step_size cpi <> 0 -> 0 <= max_mv_magnitude cpi ->
     max_mv_magnitude cpi' =
     Z.max (Z.max (Z.abs (row mv)) (Z.abs (col mv)) / 8)
           (max_mv_magnitude cpi)) /\
    (auto_mv_step_size cpi <> 0 -> max_mv_magnitude cpi < 0 ->
     max_mv_magnitude cpi' = max_mv_magnitude cpi) /\
    max_mv_magnitude cpi <= max_mv_magnitude cpi'.
Proof.
  intros Hr Hc Hold. do 2 eexists.
  split; [apply av1_encode_mv_run|].
  assert (Hmax : to_unsigned
                   (Z.shiftr (AOMMAX (Z.abs (row mv)) (Z.abs (col mv))) 3)
                 = Z.max (Z.abs (row mv)) (Z.abs (col mv)) / 8).
  { rewrite AOMMAX_max. apply shiftr3_int. lia. }
  assert (Hfit : 0 <= Z.max (Z.abs (row mv)) (Z.abs (col mv)) / 8
                 <= INT_MAX).
  { unfold INT_MAX in *. Z.to_euclidean_division_equations; lia. }
  unfold nonzero.
  destruct (Z.eqb_spec (auto_mv_step_size cpi) 0) as [H0|H0]; simpl.
  - split; [reflexivity|]. split; [reflexivity|].
    split; [intros ?; contradiction|].
    split; [intros ?; contradiction|]. lia.
  - rewrite Hmax, (to_int_AOMMAX_unsigned _ _ Hfit Hold).
    split; [reflexivity|]. split; [intros ?; contradiction|].
    destruct (Z.ltb_spec (max_mv_magnitude cpi) 0);
      (split; [intros _ ?; first [reflexivity|lia]|]);
      (split; [intros _ ?; first [reflexivity|lia]|]); lia.
Qed.

(** ** The extent of the cost table *)

(** The builder writes the entries from [- MV_MAX] to [MV_MAX] and no
    other: outside this range the array is left as it was, and inside it
    nothing of the previous contents remains. *)
Theorem cost_table_extent (mvcost mvcost' : Z -> Z) (mvcomp : nmv_component)
    (precision : MvSubpelPrecision) (x : Z) :
  (x <> 0 -> MV_MAX < Z.abs x ->
   build_nmv_component_cost_table mvcost mvcomp precision x = mvcost x) /\
  (Z.abs x <= MV_MAX ->
   build_nmv_component_cost_table mvcost mvcomp precision x
   = build_nmv_component_cost_table mvcost' mvcomp precision x).
Proof.
  split.
  - intros Hx Hout. unfold build_nmv_component_cost_table. cbv zeta.
    rewrite (fold_store_other
               (magnitude_cost (init_cost_arrays mvcomp precision) precision)).
    + now rewrite fn_lookup_insert_ne by congruence.
    + intros v Hv. apply elem_of_seqZ in Hv. lia.
  - intros Hin. destruct (Z.eq_dec x 0) as [->|Hx].
    + now rewrite !cost_table_zero.
    + assert (Habs : 1 <= Z.abs x <= MV_MAX) by lia.
      destruct (cost_table_lookup mvcost mvcomp precision (Z.abs x) Habs)
        as [Hp Hn].
      destruct (cost_table_lookup mvcost' mvcomp precision (Z.abs x) Habs)
        as [Hp' Hn'].
      destruct (Z_lt_le_dec x 0).
      * replace x with (- Z.abs x) by lia. now rewrite Hn, Hn'.
      * replace x with (Z.abs x) by lia. now rewrite Hp, Hp'.
Qed.

(** ** What a call adapts *)

Lemma adapt_all_frame (evs : list symbol_write) (ctx : nmv_context)
    (l : nmv_context_cdf) :
  Forall (fun e => cdf e <> l) evs -> adapt_all evs ctx l = ctx l.
Proof.
  unfold adapt_all. revert ctx.
  induction evs as [|e evs IH]; intros ctx Hall; simpl; [reflexivity|].
  apply Forall_cons_1 in Hall as [He Hall].
  rewrite (IH _ Hall). now rewrite fn_lookup_insert_ne.
Qed.

Lemma spec_joint_symbols_cdf (precision : MvSubpelPrecision) (diff : MV) :
  Forall (fun e => cdf e = joints_cdf \/
                   (row diff <> 0 /\ exists f, cdf e = comps 0 f) \/
                   (col diff <> 0 /\ exists f, cdf e = comps 1 f))
         (spec_joint_symbols precision diff).
Proof.
  unfold spec_joint_symbols. constructor; [now left|].
  rewrite Forall_app. split.
  - destruct (Z.eqb_spec (row diff) 0); [constructor|].
    eapply Forall_impl;
      [|apply (spec_component_symbols_cdf (comps 0) precision (row diff))].
    intros e He. right. left. now split.
  - destruct (Z.eqb_spec (col diff) 0); [constructor|].
    eapply Forall_impl;
      [|apply (spec_component_symbols_cdf (comps 1) precision (col diff))].
    intros e He. right. right. now split.
Qed.

(** The general entry adapts the joint distribution and the model of a
    component that differs from its predictor, and nothing else: the
    model of a component that equals its predictor, and any model beside
    the two of the context, is left as it was. *)
Theorem av1_encode_mv_frame (cpi : AV1_COMP) (mv ref : MV)
    (precision : MvSubpelPrecision) (s : enc_state) :
  exists cpi' s',
    av1_encode_mv cpi mv ref precision s = Some (cpi', s') /\
    (row mv = row ref ->
     forall f, mvctx s' (comps 0 f) = mvctx s (comps 0 f)) /\
    (col mv = col ref ->
     forall f, mvctx s' (comps 1 f) = mvctx s (comps 1 f)) /\
    (forall k f, k <> 0 -> k <> 1 ->
     mvctx s' (comps k f) = mvctx s (comps k f)).
Proof.
  do 2 eexists. split; [apply av1_encode_mv_run|].
  pose proof (spec_joint_symbols_cdf precision
                (mkMV (to_int16 (row mv - row ref))
                      (to_int16 (col mv - col ref)))) as Hcdf.
  simpl in Hcdf. rewrite Forall_forall in Hcdf.
  split; [|split].
  - intros Heq f. apply adapt_all_frame. apply Forall_forall.
    intros e He. destruct (Hcdf e He) as [->|[[Hr _]|[_ [f' ->]]]];
      [discriminate| |discriminate].
    rewrite Heq, Z.sub_diag in Hr. now contradict Hr.
  - intros Heq f. apply adapt_all_frame. apply Forall_forall.
    intros e He. destruct (Hcdf e He) as [->|[[_ [f' ->]]|[Hc _]]];
      [discriminate|discriminate|].
    rewrite Heq, Z.sub_diag in Hc. now contradict Hc.
  - intros k f H0 H1. apply adapt_all_frame. apply Forall_forall.
    intros e He. destruct (Hcdf e He) as [->|[[_ [f' ->]]|[_ [f' ->]]]];
      [discriminate|congruence|congruence].
Qed.

(** The restricted entry never adapts a fractional or a high-precision
    distribution. *)
Theorem av1_encode_dv_frame (mv ref : MV) (s s' : enc_state) :
  MV_SUBPEL_NONE <= MV_SUBPEL_QTR_PRECISION ->
  av1_encode_dv mv ref s = Some (tt, s') ->
  forall k,
    (forall idx, mvctx s' (comps k (class0_fp_cdf idx))
                 = mvctx s (comps k (class0_fp_cdf idx))) /\
    (forall idx, mvctx s' (comps k (fp_cdf idx))
                 = mvctx s (comps k (fp_cdf idx))) /\
    mvctx s' (comps k class0_hp_cdf) = mvctx s (comps k class0_hp_cdf) /\
    mvctx s' (comps k hp_cdf) = mvctx s (comps k hp_cdf).
Proof.
  intros Hord Hrun k.
  destruct (Z.eq_dec (Z.land (col mv) 7) 0) as [H1|H1];
    [|rewrite (av1_encode_dv_rejects_subpel mv ref s) in Hrun by tauto;
      discriminate].
  destruct (Z.eq_dec (Z.land (row mv) 7) 0) as [H2|H2];
    [|rewrite (av1_encode_dv_rejects_subpel mv ref s) in Hrun by tauto;
      discriminate].
  destruct (Z.eq_dec (Z.land (col ref) 7) 0) as [H3|H3];
    [|rewrite (av1_encode_dv_rejects_subpel mv ref s) in Hrun by tauto;
      discriminate].
  destruct (Z.eq_dec (Z.land (row ref) 7) 0) as [H4|H4];
    [|rewrite (av1_encode_dv_rejects_subpel mv ref s) in Hrun by tauto;
      discriminate].
  rewrite (av1_encode_dv_emits mv ref H1 H2 H3 H4 s) in Hrun.
  injection Hrun as <-.
  assert (Hsub : Forall (fun e => is_subpel_write e = false)
                   (spec_joint_symbols MV_SUBPEL_NONE
                      (mkMV (to_int16 (row mv - row ref))
                            (to_int16 (col mv - col ref))))).
  { unfold spec_joint_symbols. constructor; [reflexivity|].
    rewrite Forall_app.
    split; match goal with |- Forall _ (if ?b then _ else _) =>
             destruct b;
               [constructor|now apply spec_component_symbols_full_pixel]
           end. }
  assert (Hframe : forall l,
            is_subpel_write (mkWrite 0 l 0) = true ->
            adapt_all (spec_joint_symbols MV_SUBPEL_NONE
                         (mkMV (to_int16 (row mv - row ref))
                               (to_int16 (col mv - col ref))))
                      (mvctx s) l
            = mvctx s l).
  { intros l Hl. apply adapt_all_frame.
    eapply Forall_impl; [|exact Hsub].
    intros e He Heq. unfold is_subpel_write in He, Hl. simpl in Hl.
    rewrite Heq in He. congruence. }
  repeat split; intros; now apply Hframe.
Qed.

(** ** The symbols lie in their alphabets *)

Lemma land_1_bounds (x : Z) : 0 <= Z.land x 1 < 2.
Proof.
  change 1 with (Z.ones 1). rewrite Z.land_ones by lia.
  apply Z.mod_pos_bound. lia.
Qed.

Lemma shiftr1_fr_bounds (o : Z) :
  0 <= Z.shiftr (Z.land (Z.shiftr o 1) 3) 1 < 2.
Proof.
  pose proof (land_3_bounds (Z.shiftr o 1)) as Hf.
  rewrite Z.shiftr_div_pow2 by lia. change (2 ^ 1) with 2.
  split; [apply Z.div_pos; lia|apply Z.div_lt_upper_bound; lia].
Qed.

Lemma spec_component_symbols_in_alphabet (mvcomp : nmv_component_ptr)
    (precision : MvSubpelPrecision) (comp : Z) :
  2 <= CLASS0_SIZE <= 4 -> MV_CLASS_10 < MV_CLASSES -> 4 <= MV_FP_SIZE ->
  MV_MAX <= INT_MAX -> 1 <= Z.abs comp <= MV_MAX ->
  Forall in_alphabet (spec_component_symbols mvcomp precision comp).
Proof.
  intros HS HC HF HM Hcomp.
  pose proof (get_mv_class_bounds (Z.abs comp - 1) HS ltac:(lia)) as [Hc Hd].
  unfold spec_component_symbols, spec_magnitude_symbols.
  destruct (get_mv_class (Z.abs comp - 1)) as [c o]. simpl in Hc, Hd.
  pose proof (land_1_bounds o) as Hhp.
  pose proof (land_3_bounds (Z.shiftr o 1)) as Hfr.
  pose proof (shiftr1_fr_bounds o) as Hhi.
  pose proof (land_1_bounds (Z.land (Z.shiftr o 1) 3)) as Hlo.
  constructor; [unfold in_alphabet; simpl; destruct (comp <? 0); lia|].
  constructor; [unfold in_alphabet; simpl; lia|].
  rewrite !Forall_app. split; [|split].
  - unfold spec_integer_symbols.
    destruct (Z.eqb_spec c MV_CLASS_0) as [Hc0|_].
    + specialize (Hd Hc0).
      constructor; [unfold in_alphabet; simpl; lia|constructor].
    + apply Forall_fmap, Forall_true. intros i.
      unfold in_alphabet. simpl. apply land_1_bounds.
  - unfold spec_fractional_symbols.
    destruct (precision >? MV_SUBPEL_NONE); [|constructor].
    destruct CONFIG_FLEX_MVRES.
    + constructor; [unfold in_alphabet; simpl; lia|].
      destruct (precision >? MV_SUBPEL_HALF_PRECISION); [|constructor].
      constructor; [unfold in_alphabet; simpl; lia|constructor].
    + constructor; [unfold in_alphabet; simpl; lia|constructor].
  - unfold spec_hp_symbols.
    destruct (precision >? MV_SUBPEL_QTR_PRECISION); [|constructor].
    constructor; [unfold in_alphabet; simpl; lia|constructor].
Qed.

(** Every symbol that the general entry writes for a difference within
    [[- MV_MAX, MV_MAX]] lies in the alphabet it is written with, as the
    coder requires, when the alphabets are large enough for the classes,
    for the class-0 integer part and for the fractional value. *)
Theorem av1_encode_mv_in_alphabet (cpi : AV1_COMP) (mv ref : MV)
    (precision : MvSubpelPrecision) (s : enc_state) :
  2 <= CLASS0_SIZE <= 4 -> MV_CLASS_10 < MV_CLASSES -> 4 <= MV_FP_SIZE ->
  4 <= MV_JOINTS -> MV_MAX <= INT_MAX ->
  Z.abs (row mv - row ref) <= MV_MAX -> Z.abs (col mv - col ref) <= MV_MAX ->
  exists cpi' s' symbols,
    av1_encode_mv cpi mv ref precision s = Some (cpi', s') /\
    writer s' = writer s ++ symbols /\
    Forall in_alphabet symbols.
Proof.
  intros HS HC HF HJ HM Hr Hc. do 3 eexists.
  split; [apply av1_encode_mv_run|]. split; [reflexivity|].
  apply to_int16_within in Hr, Hc.
  revert Hr Hc.
  generalize (to_int16 (row mv - row ref)) (to_int16 (col mv - col ref)).
  intros dr dc Hr Hc.
  unfold spec_joint_symbols. simpl.
  constructor.
  - unfold in_alphabet, av1_get_mv_joint. simpl.
    destruct (dr =? 0), (dc =? 0); simpl; lia.
  - rewrite Forall_app. split.
    + destruct (Z.eqb_spec dr 0); [constructor|].
      apply spec_component_symbols_in_alphabet; (assumption || lia).
    + destruct (Z.eqb_spec dc 0); [constructor|].
      apply spec_component_symbols_in_alphabet; (assumption || lia).
Qed.

(** ** How many symbols a vector takes *)

Lemma spec_component_symbols_length (mvcomp : nmv_component_ptr)
    (precision : MvSubpelPrecision) (comp : Z) :
  2 <= CLASS0_SIZE <= 4 -> MV_MAX <= INT_MAX -> 1 <= Z.abs comp <= MV_MAX ->
  (2 <= length (spec_component_symbols mvcomp precision comp)
   <= 5 + Z.to_nat (Z.max 1 (MV_CLASS_10 + CLASS0_BITS - 1)))%nat.
Proof.
  intros HS HM Hcomp.
  pose proof (get_mv_class_bounds (Z.abs comp - 1) HS ltac:(lia)) as [Hc _].
  unfold spec_component_symbols, spec_magnitude_symbols.
  destruct (get_mv_class (Z.abs comp - 1)) as [c o]. simpl in Hc.
  cbn [length]. rewrite !length_app.
  assert (Hi : (length (spec_integer_symbols mvcomp c o)
                <= Z.to_nat (Z.max 1 (MV_CLASS_10 + CLASS0_BITS - 1)))%nat).
  { unfold spec_integer_symbols.
    destruct (Z.eqb_spec c MV_CLASS_0) as [Hc0|Hc0].
    - simpl. lia.
    - rewrite length_fmap, length_seqZ. lia. }
  assert (Hf : (length (spec_fractional_symbols mvcomp precision c o) <= 2)%nat).
  { unfold spec_fractional_symbols.
    destruct (precision >? MV_SUBPEL_NONE); [|simpl; lia].
    destruct CONFIG_FLEX_MVRES; [|simpl; lia].
    destruct (precision >? MV_SUBPEL_HALF_PRECISION); simpl; lia. }
  assert (Hh : (length (spec_hp_symbols mvcomp precision c o) <= 1)%nat).
  { unfold spec_hp_symbols.
    destruct (precision >? MV_SUBPEL_QTR_PRECISION); simpl; lia. }
  lia.
Qed.

(** The general entry writes one symbol for a vector equal to its
    predictor, and for a difference within [[- MV_MAX, MV_MAX]] never more
    than the joint symbol and, for each component, the sign, the class,
    the integer bits of the largest class, two fractional symbols and the
    high-precision bit. *)
Theorem av1_encode_mv_symbol_count (cpi : AV1_COMP) (mv ref : MV)
    (precision : MvSubpelPrecision) (s : enc_state) :
  2 <= CLASS0_SIZE <= 4 -> MV_MAX <= INT_MAX ->
  Z.abs (row mv - row ref) <= MV_MAX -> Z.abs (col mv - col ref) <= MV_MAX ->
  exists cpi' s' symbols,
    av1_encode_mv cpi mv ref precision s = Some (cpi', s') /\
    writer s' = writer s ++ symbols /\
    (row mv = row ref -> col mv = col ref -> length symbols = 1%nat) /\
    (1 <= length symbols
     <= 1 + 2 * (5 + Z.to_nat (Z.max 1 (MV_CLASS_10 + CLASS0_BITS - 1))))%nat.
Proof.
  intros HS HM Hr Hc. do 3 eexists.
  split; [apply av1_encode_mv_run|]. split; [reflexivity|].
  apply to_int16_within in Hr, Hc.
  unfold spec_joint_symbols. cbn [row col length]. rewrite length_app.
  split.
  - intros -> ->. now rewrite !Z.sub_diag, to_int16_0.
  - revert Hr Hc.
    generalize (to_int16 (row mv - row ref)) (to_int16 (col mv - col ref)).
    intros dr dc Hr Hc.
    destruct (Z.eqb_spec dr 0); destruct (Z.eqb_spec dc 0); cbn [length];
      try (pose proof (spec_component_symbols_length (comps 0) precision
                         dr HS HM ltac:(lia)));
      try (pose proof (spec_component_symbols_length (comps 1) precision
                         dc HS HM ltac:(lia)));
      lia.
Qed.

(** ** No distribution is used twice in a call *)

Lemma NoDup_app_by_group {A : Type} (g : A -> Z) (n : Z) (l1 l2 : list A) :
  NoDup l1 -> NoDup l2 ->
  Forall (fun x => g x < n) l1 -> Forall (fun x => n <= g x) l2 ->
  NoDup (l1 ++ l2).
Proof.
  intros H1 H2 Hlt Hge. apply list.NoDup_app. split; [assumption|].
  split; [|assumption].
  intros x Hx1 Hx2. rewrite list.Forall_forall in Hlt, Hge.
  specialize (Hlt x Hx1). specialize (Hge x Hx2). lia.
Qed.

Lemma integer_cdfs (k c o : Z) :
  NoDup (cdf <$> spec_integer_symbols (comps k) c o) /\
  Forall (fun l => cdf_group l = 3 + 5 * k)
         (cdf <$> spec_integer_symbols (comps k) c o).
Proof.
  unfold spec_integer_symbols. destruct (c =? MV_CLASS_0).
  - split; [apply NoDup_singleton|].
    constructor; [simpl; lia|constructor].
  - rewrite <- list_fmap_compose. split.
    + apply NoDup_fmap_2; [|apply NoDup_seqZ].
      intros i j Hij. simpl in Hij. congruence.
    + apply Forall_fmap, Forall_true. intros i. simpl. lia.
Qed.

Lemma fractional_cdfs (k : Z) (precision : MvSubpelPrecision) (c o : Z) :
  NoDup (cdf <$> spec_fractional_symbols (comps k) precision c o) /\
  Forall (fun l => cdf_group l = 4 + 5 * k)
         (cdf <$> spec_fractional_symbols (comps k) precision c o).
Proof.
  pose proof (shiftr1_fr_bounds o) as Hhi.
  unfold spec_fractional_symbols.
  destruct (precision >? MV_SUBPEL_NONE); [|split; constructor].
  destruct CONFIG_FLEX_MVRES.
  - destruct (precision >? MV_SUBPEL_HALF_PRECISION);
      destruct (c =? MV_CLASS_0); simpl; split;
      repeat first [apply NoDup_nil_2
                   |apply NoDup_cons_2;
                    [rewrite ?elem_of_cons, ?elem_of_nil;
                     intros [Heq|[]]; injection Heq; lia|]
                   |apply NoDup_singleton];
      repeat (constructor; [simpl; lia|]); constructor.
  - destruct (c =? MV_CLASS_0); simpl; split;
      first [apply NoDup_singleton
            |repeat (constructor; [simpl; lia|]); constructor].
Qed.

Lemma hp_cdfs (k : Z) (precision : MvSubpelPrecision) (c o : Z) :
  NoDup (cdf <$> spec_hp_symbols (comps k) precision c o) /\
  Forall (fun l => cdf_group l = 5 + 5 * k)
         (cdf <$> spec_hp_symbols (comps k) precision c o).
Proof.
  unfold spec_hp_symbols.
  destruct (precision >? MV_SUBPEL_QTR_PRECISION); [|split; constructor].
  destruct (c =? MV_CLASS_0); simpl;
    (split; [apply NoDup_singleton|constructor; [simpl; lia|constructor]]).
Qed.

Lemma component_cdfs (k : Z) (precision : MvSubpelPrecision) (comp : Z) :
  NoDup (cdf <$> spec_component_symbols (comps k) precision comp) /\
  Forall (fun l => 1 + 5 * k <= cdf_group l <= 5 + 5 * k)
         (cdf <$> spec_component_symbols (comps k) precision comp).
Proof.
  unfold spec_component_symbols, spec_magnitude_symbols.
  destruct (get_mv_class (Z.abs comp - 1)) as [c o].
  destruct (integer_cdfs k c o) as [Hi Gi].
  destruct (fractional_cdfs k precision c o) as [Hf Gf].
  destruct (hp_cdfs k precision c o) as [Hh Gh].
  rewrite !fmap_cons, !fmap_app. cbn [cdf].
  change (comps k sign_cdf :: comps k classes_cdf :: ?l)
    with ([comps k sign_cdf] ++ [comps k classes_cdf] ++ l).
  split.
  - apply (NoDup_app_by_group cdf_group (2 + 5 * k));
      [apply NoDup_singleton| |constructor; [simpl; lia|constructor]|].
    + apply (NoDup_app_by_group cdf_group (3 + 5 * k));
        [apply NoDup_singleton| |constructor; [simpl; lia|constructor]|].
      * apply (NoDup_app_by_group cdf_group (4 + 5 * k)); [assumption| | |].
        -- apply (NoDup_app_by_group cdf_group (5 + 5 * k));
             [assumption|assumption| |].
           ++ eapply Forall_impl; [|exact Gf]. simpl. intros; lia.
           ++ eapply Forall_impl; [|exact Gh]. simpl. intros; lia.
        -- eapply Forall_impl; [|exact Gi]. simpl. intros; lia.
        -- rewrite Forall_app. split.
           ++ eapply Forall_impl; [|exact Gf]. simpl. intros; lia.
           ++ eapply Forall_impl; [|exact Gh]. simpl. intros; lia.
      * rewrite !Forall_app. split; [|split].
        -- eapply Forall_impl; [|exact Gi]. simpl. intros; lia.
        -- eapply Forall_impl; [|exact Gf]. simpl. intros; lia.
        -- eapply Forall_impl; [|exact Gh]. simpl. intros; lia.
    + rewrite !Forall_app. split; [|split; [|split]].
      * constructor; [simpl; lia|constructor].
      * eapply Forall_impl; [|exact Gi]. simpl. intros; lia.
      * eapply Forall_impl; [|exact Gf]. simpl. intros; lia.
      * eapply Forall_impl; [|exact Gh]. simpl. intros; lia.
  - rewrite !Forall_app. split; [|split; [|split; [|split]]].
    + constructor; [simpl; lia|constructor].
    + constructor; [simpl; lia|constructor].
    + eapply Forall_impl; [|exact Gi]. simpl. intros; lia.
    + eapply Forall_impl; [|exact Gf]. simpl. intros; lia.
    + eapply Forall_impl; [|exact Gh]. simpl. intros; lia.
Qed.

Lemma joint_cdfs (precision : MvSubpelPrecision) (diff : MV) :
  NoDup (cdf <$> spec_joint_symbols precision diff).
Proof.
  unfold spec_joint_symbols. rewrite fmap_cons, fmap_app. cbn [cdf].
  destruct (component_cdfs 0 precision (row diff)) as [H0 G0].
  destruct (component_cdfs 1 precision (col diff)) as [H1 G1].
  assert (Hr : NoDup (cdf <$> (if row diff =? 0 then []
                               else spec_component_symbols (comps 0) precision
                                      (row diff)))
               /\ Forall (fun l => 1 <= cdf_group l <= 5)
                     (cdf <$> (if row diff =? 0 then []
                               else spec_component_symbols (comps 0) precision
                                      (row diff)))).
  { destruct (row diff =? 0); [split; constructor|].
    split; [assumption|]. eapply Forall_impl; [|exact G0]. simpl. intros; lia. }
  assert (Hc : NoDup (cdf <$> (if col diff =? 0 then []
                               else spec_component_symbols (comps 1) precision
                                      (col diff)))
               /\ Forall (fun l => 6 <= cdf_group l <= 10)
                     (cdf <$> (if col diff =? 0 then []
                               else spec_component_symbols (comps 1) precision
                                      (col diff)))).
  { destruct (col diff =? 0); [split; constructor|].
    split; [assumption|]. eapply Forall_impl; [|exact G1]. simpl. intros; lia. }
  destruct Hr as [Hr Gr]. destruct Hc as [Hc Gc].
  change (joints_cdf :: ?l) with ([joints_cdf] ++ l).
  apply (NoDup_app_by_group cdf_group 1);
    [apply NoDup_singleton| |constructor; [simpl; lia|constructor]|].
  - apply (NoDup_app_by_group cdf_group 6); [assumption|assumption| |].
    + eapply Forall_impl; [|exact Gr]. simpl. intros; lia.
    + eapply Forall_impl; [|exact Gc]. simpl. intros; lia.
  - rewrite Forall_app. split.
    + eapply Forall_impl; [|exact Gr]. simpl. intros; lia.
    + eapply Forall_impl; [|exact Gc]. simpl. intros; lia.
Qed.

Lemma adaptive_cost_snapshot (evs : list symbol_write) :
  NoDup (cdf <$> evs) ->
  forall ctx ctx' : nmv_context,
    (forall e, e ∈ evs -> ctx' (cdf e) = ctx (cdf e)) ->
    adaptive_cost ctx' evs = symbols_cost ctx evs.
Proof.
  induction evs as [|e evs IH]; intros Hnd ctx ctx' Hagree; [reflexivity|].
  rewrite fmap_cons in Hnd. apply list.NoDup_cons in Hnd as [Hnotin Hnd].
  cbn [adaptive_cost]. rewrite symbols_cost_cons.
  rewrite (IH Hnd ctx).
  - unfold symbol_cost. rewrite (Hagree e ltac:(left)). reflexivity.
  - intros e' He'.
    assert (Hne : cdf e <> cdf e').
    { intros Heq. apply Hnotin. rewrite Heq.
      apply list_elem_of_fmap. now exists e'. }
    unfold insert, fn_insert. destruct (decide (cdf e = cdf e'));
      [contradiction|].
    apply Hagree. now right.
Qed.

(** In one call of the general entry no distribution is used for two
    symbols; so the adaptation that goes on during the call changes the
    cost of none of its symbols: costed one by one under the distributions
    as they are when each is written, the symbols cost what they cost
    under the distributions before the call. *)
Theorem av1_encode_mv_no_reuse (cpi : AV1_COMP) (mv ref : MV)
    (precision : MvSubpelPrecision) (s : enc_state) :
  exists cpi' s' symbols,
    av1_encode_mv cpi mv ref precision s = Some (cpi', s') /\
    writer s' = writer s ++ symbols /\
    NoDup (cdf <$> symbols) /\
    adaptive_cost (mvctx s) symbols = symbols_cost (mvctx s) symbols.
Proof.
  do 3 eexists. split; [apply av1_encode_mv_run|].
  split; [reflexivity|].
  pose proof (joint_cdfs precision
                (mkMV (to_int16 (row mv - row ref))
                      (to_int16 (col mv - col ref)))) as Hnd.
  split; [exact Hnd|]. now apply adaptive_cost_snapshot.
Qed.

(** ** The cost of a vector *)

Lemma component_symbols_cost (ctx : nmv_context) (mvcomp : nmv_component_ptr)
    (precision : MvSubpelPrecision) (mvcost : Z -> Z) (comp : Z) :
  2 <= CLASS0_SIZE <= 4 ->
  MV_CLASS_10 + CLASS0_BITS - 1 <= MV_OFFSET_BITS ->
  MV_SUBPEL_NONE <= MV_SUBPEL_QTR_PRECISION ->
  MV_MAX <= INT_MAX ->
  Z.abs comp <= MV_MAX ->
  symbols_cost ctx (if comp =? 0 then []
                    else spec_component_symbols mvcomp precision comp)
  = build_nmv_component_cost_table mvcost (fun f => ctx (mvcomp f))
                                   precision comp.
Proof.
  intros HS HB Hord HM Hcomp.
  destruct (Z.eqb_spec comp 0) as [->|Hne].
  - now rewrite cost_table_zero.
  - assert (Habs : 1 <= Z.abs comp <= MV_MAX) by lia.
    unfold spec_component_symbols. rewrite symbols_cost_cons.
    rewrite <- (magnitude_cost_symbols ctx mvcomp precision (Z.abs comp))
      by (assumption || lia).
    destruct (cost_table_lookup mvcost (fun f => ctx (mvcomp f)) precision
                (Z.abs comp) Habs) as [Hpos Hneg].
    cbn [sign_cost init_cost_arrays] in Hpos, Hneg.
    unfold symbol_cost. cbn [cdf symb].
    set (table := build_nmv_component_cost_table mvcost
                    (fun f => ctx (mvcomp f)) precision) in *.
    destruct (Z.ltb_spec comp 0).
    + replace (table comp) with (table (- Z.abs comp)) by (f_equal; lia).
      rewrite Hneg. lia.
    + replace (table comp) with (table (Z.abs comp)) by (f_equal; lia).
      rewrite Hpos. lia.
Qed.

(** The cost tables built from a context give the cost of coding a vector
    from that context: for a difference within [[- MV_MAX, MV_MAX]] the
    symbols that the general entry writes, each costed under the
    distributions as they are when it is written, cost the joint cost of
    the joint type plus the entry of the row table at the row difference
    plus the entry of the column table at the column difference.  The
    difference is the one the code holds, in the 16-bit fields of an
    [MV]; it is the exact one when [MV_MAX] fits 16 bits. *)
Theorem av1_encode_mv_cost (mvcost0 mvcost1 : Z -> Z) (cpi : AV1_COMP)
    (mv ref : MV) (precision : MvSubpelPrecision) (s : enc_state) :
  2 <= CLASS0_SIZE <= 4 ->
  MV_CLASS_10 + CLASS0_BITS - 1 <= MV_OFFSET_BITS ->
  MV_SUBPEL_NONE <= MV_SUBPEL_QTR_PRECISION ->
  MV_MAX <= INT_MAX ->
  Z.abs (row mv - row ref) <= MV_MAX -> Z.abs (col mv - col ref) <= MV_MAX ->
  let diff :=
    mkMV (to_int16 (row mv - row ref)) (to_int16 (col mv - col ref)) in
  let '(mvjoint, mvcost_row, mvcost_col) :=
    av1_build_nmv_cost_table mvcost0 mvcost1 (mvctx s) precision in
  (MV_MAX <= INT16_MAX ->
   diff = mkMV (row mv - row ref) (col mv - col ref)) /\
  exists cpi' s' symbols,
    av1_encode_mv cpi mv ref precision s = Some (cpi', s') /\
    writer s' = writer s ++ symbols /\
    adaptive_cost (mvctx s) symbols
    = mvjoint (joint_symbol (av1_get_mv_joint diff))
      + mvcost_row (row diff) + mvcost_col (col diff).
Proof.
  intros HS HB Hord HM Hr Hc diff. unfold av1_build_nmv_cost_table.
  split.
  { intros H16. subst diff.
    rewrite !to_int16_small; [reflexivity| |];
      unfold INT16_MIN, INT16_MAX in *; lia. }
  apply to_int16_within in Hr, Hc.
  do 3 eexists. split; [apply av1_encode_mv_run|].
  split; [reflexivity|]. fold diff.
  rewrite (adaptive_cost_snapshot _ (joint_cdfs precision diff)
             (mvctx s) (mvctx s)) by reflexivity.
  unfold spec_joint_symbols.
  rewrite symbols_cost_cons, symbols_cost_app.
  subst diff. cbn [row col].
  rewrite (component_symbols_cost (mvctx s) (comps 0) precision mvcost0)
    by assumption.
  rewrite (component_symbols_cost (mvctx s) (comps 1) precision mvcost1)
    by assumption.
  unfold symbol_cost. cbn [cdf symb]. lia.
Qed.

(** ** Nothing is lost in the writing *)

Lemma land_1_mod (x : Z) : Z.land x 1 = x mod 2.
Proof. change 1 with (Z.ones 1). now rewrite Z.land_ones by lia. Qed.

Lemma land_3_mod (x : Z) : Z.land x 3 = x mod 4.
Proof. change 3 with (Z.ones 2). now rewrite Z.land_ones by lia. Qed.

Lemma shiftr1_div (x : Z) : Z.shiftr x 1 = x / 2.
Proof. now rewrite Z.shiftr_div_pow2 by lia. Qed.

(** The three fields of an offset make it up again. *)
Lemma offset_fields (o : Z) :
  o = 8 * Z.shiftr o 3 + 2 * Z.land (Z.shiftr o 1) 3 + Z.land o 1.
Proof.
  rewrite shiftr3_div, shiftr1_div, land_3_mod, land_1_mod.
  Z.to_euclidean_division_equations. lia.
Qed.

Lemma fractional_fields (fr : Z) :
  fr = 2 * Z.shiftr fr 1 + Z.land fr 1.
Proof.
  rewrite shiftr1_div, land_1_mod.
  Z.to_euclidean_division_equations. lia.
Qed.

Lemma read_bits_written (f : Z -> nmv_context_cdf) (d : Z) (n : nat)
    (k : Z) (tail : list symbol_write) :
  0 <= k ->
  read_bits n (((fun i => mkWrite (Z.land (Z.shiftr d i) 1) (f i) 2)
                  <$> seqZ k (Z.of_nat n)) ++ tail)
  = Some (Z.shiftr d k mod 2 ^ Z.of_nat n, tail).
Proof.
  revert k. induction n as [|n IH]; intros k Hk.
  - simpl. now rewrite Z.mod_1_r.
  - rewrite seqZ_cons by lia.
    replace (Z.pred (Z.of_nat (S n))) with (Z.of_nat n) by lia.
    rewrite fmap_cons. cbn [read_bits app read_symbol mbind option_bind symb].
    rewrite IH by lia. cbn [mbind option_bind].
    do 2 f_equal.
    replace (Z.succ k) with (k + 1) by lia.
    rewrite <- Z.shiftr_shiftr by lia.
    rewrite shiftr1_div, land_1_mod.
    replace (2 ^ Z.of_nat (S n)) with (2 * 2 ^ Z.of_nat n)
      by (rewrite Nat2Z.inj_succ, Z.pow_succ_r by lia; reflexivity).
    rewrite Z.rem_mul_r by lia. reflexivity.
Qed.

(** On the AV1 numbering of the classes the offset of a magnitude is not
    negative and its integer part fits the bits that are written for
    it. *)
Lemma offset_fits (mag : Z) :
  CLASS0_BITS = 1 -> CLASS0_SIZE = 2 -> MV_MAX <= 16384 ->
  1 <= mag <= MV_MAX ->
  let c := fst (get_mv_class (mag - 1)) in
  let o := snd (get_mv_class (mag - 1)) in
  0 <= c /\ 0 <= o /\ mv_class_base c + o + 1 = mag /\
  (c = MV_CLASS_0 -> 0 <= Z.shiftr o 3 < 2) /\
  (c <> MV_CLASS_0 -> 0 <= Z.shiftr o 3 < 2 ^ (c + CLASS0_BITS - 1)) /\
  mv_class_base c mod 8 = 0.
Proof.
  intros HB HS HM Hmag c o.
  assert (Hz : 0 <= mag - 1 <= INT_MAX) by (unfold INT_MAX; lia).
  assert (Ho : o = mag - 1 - mv_class_base c) by reflexivity.
  assert (Hrange : 0 <= c /\ mv_class_base c <= mag - 1
                                < mv_class_base (c + 1)).
  { destruct (Z_lt_le_dec (mag - 1) (CLASS0_SIZE * 4096)) as [Hs|Hs].
    - exact (get_mv_class_range (mag - 1) HS Hz Hs).
    - subst c. rewrite get_mv_class_saturated by assumption. simpl.
      rewrite !mv_class_base_two by (assumption || (unfold MV_CLASS_10; lia)).
      unfold MV_CLASS_10. simpl. lia. }
  destruct Hrange as [Hc Hr].
  split; [assumption|]. split; [lia|]. split; [lia|].
  rewrite shiftr3_div.
  destruct (Z.eq_dec c MV_CLASS_0) as [Hc0|Hc0].
  - rewrite Hc0 in Hr, Ho.
    rewrite (mv_class_base_two (MV_CLASS_0 + 1)) in Hr
      by (assumption || (unfold MV_CLASS_0; lia)).
    unfold MV_CLASS_0, mv_class_base in Hr, Ho. simpl in Hr, Ho.
    split; [|split].
    + intros _. Z.to_euclidean_division_equations. lia.
    + intros Hne. contradiction.
    + rewrite Hc0. reflexivity.
  - unfold MV_CLASS_0 in Hc0.
    rewrite !mv_class_base_two in * by (assumption || lia).
    rewrite Z.pow_add_r in Hr by lia. change (2 ^ 1) with 2 in Hr.
    rewrite HB. replace (c + 1 - 1) with c by lia.
    pose proof (Z.pow_pos_nonneg 2 c ltac:(lia) ltac:(lia)) as Hpow.
    split; [|split].
    + intros Heq. unfold MV_CLASS_0 in Heq. contradiction.
    + intros _. generalize dependent (2 ^ c). intros p Hr Ho Hp.
      Z.to_euclidean_division_equations. nia.
    + rewrite Z.mul_comm. apply Z.mod_mul. lia.
Qed.

Lemma read_integer_written (mvcomp : nmv_component_ptr) (c o : Z)
    (tail : list symbol_write) :
  (c <> MV_CLASS_0 -> 0 <= Z.shiftr o 3 < 2 ^ (c + CLASS0_BITS - 1)) ->
  (if c =? MV_CLASS_0
   then read_symbol (spec_integer_symbols mvcomp c o ++ tail)
   else read_bits (Z.to_nat (c + CLASS0_BITS - 1))
                  (spec_integer_symbols mvcomp c o ++ tail))
  = Some (Z.shiftr o 3, tail).
Proof.
  intros Hd. unfold spec_integer_symbols.
  destruct (Z.eqb_spec c MV_CLASS_0) as [Hc|Hc]; [reflexivity|].
  specialize (Hd Hc).
  assert (Hn : 0 <= c + CLASS0_BITS - 1).
  { destruct (Z_lt_le_dec (c + CLASS0_BITS - 1) 0) as [Hneg|?]; [|assumption].
    rewrite Z.pow_neg_r in Hd by assumption. lia. }
  rewrite <- (Z2Nat.id (c + CLASS0_BITS - 1)) at 2 by assumption.
  rewrite (read_bits_written (fun i => mvcomp (bits_cdf i))) by lia.
  rewrite Z2Nat.id by assumption.
  rewrite Z.shiftr_0_r, Z.mod_small by assumption. reflexivity.
Qed.

Lemma read_fractional_written (mvcomp : nmv_component_ptr)
    (precision : MvSubpelPrecision) (c o : Z) (tail : list symbol_write) :
  implied_bits_set precision o ->
  (if precision >? MV_SUBPEL_NONE
   then
     if CONFIG_FLEX_MVRES
     then
       '(hi, l) ← read_symbol
                    (spec_fractional_symbols mvcomp precision c o ++ tail);
       '(lo, l) ← (if precision >? MV_SUBPEL_HALF_PRECISION
                   then read_symbol l
                   else Some (1, l));
       Some (2 * hi + lo, l)
     else read_symbol (spec_fractional_symbols mvcomp precision c o ++ tail)
   else Some (3, spec_fractional_symbols mvcomp precision c o ++ tail))
  = Some (Z.land (Z.shiftr o 1) 3, tail).
Proof.
  intros (_ & Hnone & Hhalf). unfold spec_fractional_symbols.
  destruct (Z.gtb_spec precision MV_SUBPEL_NONE) as [Hp|Hp].
  - destruct CONFIG_FLEX_MVRES; [|reflexivity].
    pose proof (fractional_fields (Z.land (Z.shiftr o 1) 3)) as Hfr.
    destruct (Z.gtb_spec precision MV_SUBPEL_HALF_PRECISION) as [Hh|Hh];
      cbn [app read_symbol mbind option_bind symb].
    + do 2 f_equal. lia.
    + pose proof (Hhalf eq_refl Hh). do 2 f_equal. lia.
  - simpl. now rewrite (Hnone Hp).
Qed.

Lemma read_hp_written (mvcomp : nmv_component_ptr)
    (precision : MvSubpelPrecision) (c o : Z) (tail : list symbol_write) :
  implied_bits_set precision o ->
  (if precision >? MV_SUBPEL_QTR_PRECISION
   then read_symbol (spec_hp_symbols mvcomp precision c o ++ tail)
   else Some (1, spec_hp_symbols mvcomp precision c o ++ tail))
  = Some (Z.land o 1, tail).
Proof.
  intros (Hqtr & _). unfold spec_hp_symbols.
  destruct (Z.gtb_spec precision MV_SUBPEL_QTR_PRECISION) as [Hp|Hp];
    [reflexivity|].
  simpl. now rewrite (Hqtr Hp).
Qed.

(** Reading back what the component encoder writes gives the component,
    when the bits that the precision leaves out are set. *)
Lemma read_mv_component_written (mvcomp : nmv_component_ptr)
    (precision : MvSubpelPrecision) (comp : Z) (tail : list symbol_write) :
  CLASS0_BITS = 1 -> CLASS0_SIZE = 2 -> MV_MAX <= 16384 ->
  1 <= Z.abs comp <= MV_MAX ->
  implied_bits_set precision (snd (get_mv_class (Z.abs comp - 1))) ->
  read_mv_component precision
    (spec_component_symbols mvcomp precision comp ++ tail)
  = Some (comp, tail).
Proof.
  intros HB HS HM Hcomp Himplied.
  destruct (offset_fits (Z.abs comp) HB HS HM Hcomp)
    as (Hc & Ho & Hmag & _ & Hd & _).
  unfold read_mv_component, spec_component_symbols, spec_magnitude_symbols.
  destruct (get_mv_class (Z.abs comp - 1)) as [c o].
  cbn [fst snd] in Hc, Ho, Hmag, Hd, Himplied.
  cbn [app read_symbol mbind option_bind symb].
  rewrite <- !app_assoc.
  rewrite (read_integer_written mvcomp c o _ Hd).
  cbn [mbind option_bind].
  rewrite (read_fractional_written mvcomp precision c o _ Himplied).
  cbn [mbind option_bind].
  rewrite (read_hp_written mvcomp precision c o _ Himplied).
  cbn [mbind option_bind].
  rewrite <- (offset_fields o). rewrite Hmag.
  do 2 f_equal. destruct (Z.ltb_spec comp 0); simpl; lia.
Qed.

Lemma full_precision_implied (precision : MvSubpelPrecision) (o : Z) :
  MV_SUBPEL_NONE < precision -> MV_SUBPEL_HALF_PRECISION < precision ->
  MV_SUBPEL_QTR_PRECISION < precision ->
  implied_bits_set precision o.
Proof. intros H1 H2 H3. repeat split; intros; lia. Qed.

(** A whole number of pixels has its three low offset bits set. *)
Lemma full_pel_implied (precision : MvSubpelPrecision) (comp : Z) :
  CLASS0_BITS = 1 -> CLASS0_SIZE = 2 -> MV_MAX <= 16384 ->
  1 <= Z.abs comp <= MV_MAX -> comp mod 8 = 0 ->
  implied_bits_set precision (snd (get_mv_class (Z.abs comp - 1))).
Proof.
  intros HB HS HM Hcomp H8.
  destruct (offset_fits (Z.abs comp) HB HS HM Hcomp)
    as (_ & _ & Hmag & _ & _ & Hbase).
  set (o := snd (get_mv_class (Z.abs comp - 1))) in *.
  set (b := mv_class_base (fst (get_mv_class (Z.abs comp - 1)))) in *.
  assert (Ho : o mod 8 = 7).
  { clearbody o b. Z.to_euclidean_division_equations. lia. }
  assert (Hhp : Z.land o 1 = 1).
  { rewrite land_1_mod. clearbody o.
    Z.to_euclidean_division_equations. lia. }
  assert (Hfr : Z.land (Z.shiftr o 1) 3 = 3).
  { rewrite shiftr1_div, land_3_mod. clearbody o.
    Z.to_euclidean_division_equations. lia. }
  repeat split; intros; try assumption. now rewrite Hfr.
Qed.

Lemma read_mv_written (precision : MvSubpelPrecision) (diff : MV)
    (tail : list symbol_write) :
  CLASS0_BITS = 1 -> CLASS0_SIZE = 2 -> MV_MAX <= 16384 ->
  Z.abs (row diff) <= MV_MAX -> Z.abs (col diff) <= MV_MAX ->
  (row diff <> 0 ->
   implied_bits_set precision (snd (get_mv_class (Z.abs (row diff) - 1)))) ->
  (col diff <> 0 ->
   implied_bits_set precision (snd (get_mv_class (Z.abs (col diff) - 1)))) ->
  read_mv precision (spec_joint_symbols precision diff ++ tail)
  = Some (diff, tail).
Proof.
  intros HB HS HM Hr Hc Hir Hic. destruct diff as [r c]. simpl in *.
  unfold read_mv, spec_joint_symbols, av1_get_mv_joint. cbn [row col].
  cbn [app read_symbol mbind option_bind symb].
  rewrite <- app_assoc.
  destruct (Z.eqb_spec r 0) as [->|Hr0]; destruct (Z.eqb_spec c 0) as [->|Hc0];
    cbn [joint_symbol Z.eqb Pos.eqb orb app mbind option_bind];
    rewrite ?read_mv_component_written by (auto; lia);
    cbn [mbind option_bind];
    rewrite ?read_mv_component_written by (auto; lia);
    reflexivity.
Qed.

(** At a precision above the three thresholds the component encoder
    writes different symbols for different components within
    [[- MV_MAX, MV_MAX]]: on the AV1 numbering of the classes the sign, the
    class, the integer bits, the fractional bits and the high-precision
    bit determine the component. *)
Theorem encode_mv_component_injective (comp1 comp2 : Z)
    (mvcomp : nmv_component_ptr) (precision : MvSubpelPrecision)
    (s s1 s2 : enc_state) :
  CLASS0_BITS = 1 -> CLASS0_SIZE = 2 -> MV_MAX <= 16384 ->
  MV_SUBPEL_NONE < precision -> MV_SUBPEL_HALF_PRECISION < precision ->
  MV_SUBPEL_QTR_PRECISION < precision ->
  1 <= Z.abs comp1 <= MV_MAX -> 1 <= Z.abs comp2 <= MV_MAX ->
  encode_mv_component comp1 mvcomp precision s = Some (tt, s1) ->
  encode_mv_component comp2 mvcomp precision s = Some (tt, s2) ->
  writer s1 = writer s2 ->
  comp1 = comp2.
Proof.
  intros HB HS HM Hp1 Hp2 Hp3 H1 H2 Hrun1 Hrun2 Hw.
  rewrite (encode_mv_component_emits comp1 mvcomp precision) in Hrun1 by lia.
  rewrite (encode_mv_component_emits comp2 mvcomp precision) in Hrun2 by lia.
  injection Hrun1 as <-. injection Hrun2 as <-.
  simpl in Hw. apply app_inv_head in Hw.
  pose proof (read_mv_component_written mvcomp precision comp1 [] HB HS HM H1
                (full_precision_implied precision _ Hp1 Hp2 Hp3)) as R1.
  pose proof (read_mv_component_written mvcomp precision comp2 [] HB HS HM H2
                (full_precision_implied precision _ Hp1 Hp2 Hp3)) as R2.
  rewrite Hw in R1. rewrite R1 in R2. now injection R2.
Qed.

(** At a precision above the three thresholds the general entry writes
    different symbols for different vectors coded against the same
    predictor, for differences within [[- MV_MAX, MV_MAX]]: the joint
    symbol tells which components follow, and each is determined by its
    own symbols. *)
Theorem av1_encode_mv_injective (cpi1 cpi2 cpi1' cpi2' : AV1_COMP)
    (mv1 mv2 ref : MV) (precision : MvSubpelPrecision)
    (s s1 s2 : enc_state) :
  CLASS0_BITS = 1 -> CLASS0_SIZE = 2 -> MV_MAX <= 16384 ->
  MV_SUBPEL_NONE < precision -> MV_SUBPEL_HALF_PRECISION < precision ->
  MV_SUBPEL_QTR_PRECISION < precision ->
  Z.abs (row mv1 - row ref) <= MV_MAX -> Z.abs (col mv1 - col ref) <= MV_MAX ->
  Z.abs (row mv2 - row ref) <= MV_MAX -> Z.abs (col mv2 - col ref) <= MV_MAX ->
  av1_encode_mv cpi1 mv1 ref precision s = Some (cpi1', s1) ->
  av1_encode_mv cpi2 mv2 ref precision s = Some (cpi2', s2) ->
  writer s1 = writer s2 ->
  mv1 = mv2.
Proof.
  intros HB HS HM Hp1 Hp2 Hp3 Hr1 Hc1 Hr2 Hc2 Hrun1 Hrun2 Hw.
  rewrite (av1_encode_mv_run cpi1 mv1 ref precision) in Hrun1.
  rewrite (av1_encode_mv_run cpi2 mv2 ref precision) in Hrun2.
  rewrite !(to_int16_bounded _ _ HM) in Hrun1 by assumption.
  rewrite !(to_int16_bounded _ _ HM) in Hrun2 by assumption.
  injection Hrun1 as _ <-. injection Hrun2 as _ <-.
  simpl in Hw. apply app_inv_head in Hw.
  pose proof (read_mv_written precision
                (mkMV (row mv1 - row ref) (col mv1 - col ref)) []
                HB HS HM Hr1 Hc1
                (fun _ => full_precision_implied precision _ Hp1 Hp2 Hp3)
                (fun _ => full_precision_implied precision _ Hp1 Hp2 Hp3))
    as R1.
  pose proof (read_mv_written precision
                (mkMV (row mv2 - row ref) (col mv2 - col ref)) []
                HB HS HM Hr2 Hc2
                (fun _ => full_precision_implied precision _ Hp1 Hp2 Hp3)
                (fun _ => full_precision_implied precision _ Hp1 Hp2 Hp3))
    as R2.
  rewrite Hw in R1. rewrite R1 in R2. injection R2 as Hrow Hcol.
  destruct mv1, mv2. simpl in *. f_equal; lia.
Qed.

Lemma land_7_mod (x : Z) : Z.land x 7 = x mod 8.
Proof. change 7 with (Z.ones 3). now rewrite Z.land_ones by lia. Qed.

(** On the AV1 numbering of the classes and for differences within
    [[- MV_MAX, MV_MAX]], the restricted entry, which codes no fractional
    and no high-precision bit, still writes different symbols for
    different vectors coded against the same predictor: what it leaves
    out is fixed by the assertions.  The range is needed: beyond
    [MV_MAX] the class saturates and two vectors can be written alike. *)
Theorem av1_encode_dv_injective (mv1 mv2 ref : MV) (s s1 s2 : enc_state) :
  CLASS0_BITS = 1 -> CLASS0_SIZE = 2 -> MV_MAX <= 16384 ->
  Z.abs (row mv1 - row ref) <= MV_MAX -> Z.abs (col mv1 - col ref) <= MV_MAX ->
  Z.abs (row mv2 - row ref) <= MV_MAX -> Z.abs (col mv2 - col ref) <= MV_MAX ->
  av1_encode_dv mv1 ref s = Some (tt, s1) ->
  av1_encode_dv mv2 ref s = Some (tt, s2) ->
  writer s1 = writer s2 ->
  mv1 = mv2.
Proof.
  intros HB HS HM Hr1 Hc1 Hr2 Hc2 Hrun1 Hrun2 Hw.
  assert (Hlow : forall mv s',
            av1_encode_dv mv ref s = Some (tt, s') ->
            (Z.land (col mv) 7 = 0 /\ Z.land (row mv) 7 = 0) /\
            (Z.land (col ref) 7 = 0 /\ Z.land (row ref) 7 = 0)).
  { intros mv s' Hrun.
    destruct (Z.eq_dec (Z.land (col mv) 7) 0);
      destruct (Z.eq_dec (Z.land (row mv) 7) 0);
      destruct (Z.eq_dec (Z.land (col ref) 7) 0);
      destruct (Z.eq_dec (Z.land (row ref) 7) 0);
      try tauto;
      rewrite (av1_encode_dv_rejects_subpel mv ref s) in Hrun by tauto;
      discriminate. }
  destruct (Hlow mv1 s1 Hrun1) as [[A1 B1] [A0 B0]].
  destruct (Hlow mv2 s2 Hrun2) as [[A2 B2] _].
  rewrite land_7_mod in A1, B1, A2, B2, A0, B0.
  rewrite (av1_encode_dv_emits mv1 ref) in Hrun1
    by (rewrite land_7_mod; assumption).
  rewrite (av1_encode_dv_emits mv2 ref) in Hrun2
    by (rewrite land_7_mod; assumption).
  rewrite !(to_int16_bounded _ _ HM) in Hrun1 by assumption.
  rewrite !(to_int16_bounded _ _ HM) in Hrun2 by assumption.
  injection Hrun1 as <-. injection Hrun2 as <-.
  simpl in Hw. apply app_inv_head in Hw.
  assert (Hmod : forall a b, a mod 8 = 0 -> b mod 8 = 0 -> (a - b) mod 8 = 0).
  { intros a b Ha Hb. Z.to_euclidean_division_equations. lia. }
  pose proof (read_mv_written MV_SUBPEL_NONE
                (mkMV (row mv1 - row ref) (col mv1 - col ref)) []
                HB HS HM Hr1 Hc1) as R1.
  pose proof (read_mv_written MV_SUBPEL_NONE
                (mkMV (row mv2 - row ref) (col mv2 - col ref)) []
                HB HS HM Hr2 Hc2) as R2.
  cbn [row col] in R1, R2. rewrite app_nil_r in R1, R2.
  assert (R1' := R1 ltac:(intros; apply full_pel_implied; auto; lia)
                    ltac:(intros; apply full_pel_implied; auto; lia)).
  assert (R2' := R2 ltac:(intros; apply full_pel_implied; auto; lia)
                    ltac:(intros; apply full_pel_implied; auto; lia)).
  rewrite Hw in R1'. rewrite R1' in R2'. injection R2' as Hrow Hcol.
  destruct mv1, mv2. simpl in *. f_equal; lia.
Qed.

(** ** The convenience entries of the resolver *)

(** In the modes [NEAR_NEWMV] and [NEW_NEARMV] the predictor is taken one
    entry further down the stack than the block's index says: for a
    compound pair, slot 0 is the "this" vector and slot 1 the "comp"
    vector of the entry at [ref_mv_idx + 1]; a block in one of these modes
    without a second reference fails the assertion, whatever the slot.  In
    every other mode the entry at [ref_mv_idx] itself is resolved. *)
Theorem av1_get_ref_mv_spec (x : MACROBLOCK) :
  let mbmi := e_mbd_mi_0 x in
  let shifted :=
    mbmi_mode mbmi = NEAR_NEWMV \/ mbmi_mode mbmi = NEW_NEARMV in
  let stack :=
    ref_mv_stack (x_mbmi_ext x) (av1_ref_frame_type (mbmi_ref_frame mbmi)) in
  (shifted -> has_second_ref mbmi = true ->
   mbmi_ref_frame mbmi 1 > INTRA_FRAME ->
   av1_get_ref_mv x 0 = Some (this_mv (stack (mbmi_ref_mv_idx mbmi + 1))) /\
   av1_get_ref_mv x 1 = Some (comp_mv (stack (mbmi_ref_mv_idx mbmi + 1)))) /\
  (shifted -> has_second_ref mbmi = false ->
   forall ref_idx, av1_get_ref_mv x ref_idx = None) /\
  (~ shifted ->
   forall ref_idx,
     av1_get_ref_mv x ref_idx =
     av1_get_ref_mv_from_stack ref_idx (mbmi_ref_frame mbmi)
                               (mbmi_ref_mv_idx mbmi) (x_mbmi_ext x)).
Proof.
  intros mbmi shifted stack. unfold av1_get_ref_mv. fold mbmi.
  assert (Hmode : (mbmi_mode mbmi =? NEAR_NEWMV)
                  || (mbmi_mode mbmi =? NEW_NEARMV) = true <-> shifted).
  { unfold shifted. rewrite orb_true_iff, !Z.eqb_eq. reflexivity. }
  split; [|split].
  - intros Hs Hsecond Hcompound.
    apply Hmode in Hs. rewrite Hs, Hsecond. cbn [mbind option_bind].
    unfold av1_get_ref_mv_from_stack.
    destruct (Z.gtb_spec (mbmi_ref_frame mbmi 1) INTRA_FRAME); [|lia].
    split; reflexivity.
  - intros Hs Hsecond ref_idx.
    apply Hmode in Hs. rewrite Hs, Hsecond. reflexivity.
  - intros Hs ref_idx. clear Hmode. unfold shifted in Hs.
    destruct (Z.eqb_spec (mbmi_mode mbmi) NEAR_NEWMV); [tauto|].
    destruct (Z.eqb_spec (mbmi_mode mbmi) NEW_NEARMV); [tauto|].
    reflexivity.
Qed.

(** With [NONE_FRAME] not above [INTRA_FRAME] the pair of best predictors
    of a single reference never fails and never reads a "comp" vector:
    the nearest one is the rounded "this" vector of entry 0 and the near
    one that of entry 1, each replaced by the rounded global vector of the
    reference when the stack does not hold the entry.  On an empty stack
    the two are the same vector. *)
Theorem av1_find_best_ref_mvs_from_stack_spec
    (precision : MvSubpelPrecision) (mbmi_ext : MB_MODE_INFO_EXT)
    (ref_frame : MV_REFERENCE_FRAME) :
  NONE_FRAME <= INTRA_FRAME ->
  let t :=
    av1_ref_frame_type (fun i => if i =? 0 then ref_frame else NONE_FRAME) in
  let pick i :=
    if i <? ref_mv_count mbmi_ext t
    then this_mv (ref_mv_stack mbmi_ext t i)
    else global_mvs mbmi_ext t in
  av1_find_best_ref_mvs_from_stack precision mbmi_ext ref_frame
  = Some (lower_mv_precision (pick 0) precision,
          lower_mv_precision (pick 1) precision) /\
  (ref_mv_count mbmi_ext t <= 0 ->
   av1_find_best_ref_mvs_from_stack precision mbmi_ext ref_frame
   = Some (lower_mv_precision (global_mvs mbmi_ext t) precision,
           lower_mv_precision (global_mvs mbmi_ext t) precision)).
Proof.
  intros Hnone t pick.
  assert (Hrun : av1_find_best_ref_mvs_from_stack precision mbmi_ext ref_frame
                 = Some (lower_mv_precision (pick 0) precision,
                         lower_mv_precision (pick 1) precision)).
  { unfold av1_find_best_ref_mvs_from_stack, av1_get_ref_mv_from_stack.
    cbn [Z.eqb]. fold t.
    destruct (Z.gtb_spec NONE_FRAME INTRA_FRAME); [lia|].
    reflexivity. }
  split; [exact Hrun|].
  intros Hempty. rewrite Hrun. subst pick. cbn beta.
  destruct (Z.ltb_spec 0 (ref_mv_count mbmi_ext t)); [lia|].
  destruct (Z.ltb_spec 1 (ref_mv_count mbmi_ext t)); [lia|].
  reflexivity.
Qed.

(** ** The classes grow with the magnitude *)

(** A larger magnitude never falls in a smaller class: the class is
    monotone over the non-negative [int]s, across the saturation threshold
    too, as long as the classes below the threshold do not pass the
    maximum class. *)
Theorem get_mv_class_monotone (z1 z2 : Z) :
  0 < CLASS0_SIZE <= 4 -> 0 <= z1 -> z1 <= z2 -> z2 <= INT_MAX ->
  fst (get_mv_class z1) <= fst (get_mv_class z2).
Proof.
  intros HS H1 H12 H2.
  destruct (Z_lt_le_dec z2 (CLASS0_SIZE * 4096)) as [Hs2|Hs2].
  - rewrite !get_mv_class_unsaturated by lia. cbn [fst].
    apply Z.log2_le_mono. apply Z.div_le_mono; lia.
  - rewrite (get_mv_class_saturated z2) by assumption. cbn [fst].
    destruct (Z_lt_le_dec z1 (CLASS0_SIZE * 4096)) as [Hs1|Hs1].
    + rewrite get_mv_class_unsaturated by lia. cbn [fst].
      assert (Hq : 0 <= z1 / 8 < 2 ^ 11).
      { split; [apply Z.div_pos; lia|apply Z.div_lt_upper_bound; lia]. }
      unfold MV_CLASS_10.
      destruct (Z.eq_dec (z1 / 8) 0) as [->|Hne]; [simpl; lia|].
      assert (Z.log2 (z1 / 8) < 11) by (apply Z.log2_lt_pow2; lia). lia.
    + rewrite get_mv_class_saturated by assumption. simpl. lia.
Qed.

(** ** What the cost table of the full-pixel mode reads *)

Lemma init_rows_ext {A : Type} (n : Z) (row row' : Z -> A) (a : Z -> A)
    (i : Z) :
  (forall k, row k = row' k) -> init_rows n row a i = init_rows n row' a i.
Proof.
  intros Hrow. destruct (decide (0 <= i < n)) as [Hi|Hi].
  - now rewrite !init_rows_lookup by assumption.
  - unfold init_rows. rewrite !init_rows_other;
      [reflexivity|rewrite elem_of_seqZ; lia|rewrite elem_of_seqZ; lia].
Qed.

Lemma fold_left_add_ext {A : Type} (g g' : A -> Z) (l : list A) (a : Z) :
  (forall x, g x = g' x) ->
  fold_left (fun cost i => cost + g i) l a
  = fold_left (fun cost i => cost + g' i) l a.
Proof.
  intros Hg. revert a. induction l as [|x l IH]; intros a; simpl;
    [reflexivity|]. now rewrite Hg, IH.
Qed.

(** At a precision not above [MV_SUBPEL_NONE] the cost table is made of
    the sign, class, class-0 and integer-bit distributions alone: two
    components that agree on these have the same table, whatever their
    fractional and high-precision distributions are. *)
Theorem cost_table_full_pixel_reads (mvcost : Z -> Z)
    (mvcomp mvcomp' : nmv_component) (precision : MvSubpelPrecision)
    (x : Z) :
  precision <= MV_SUBPEL_NONE ->
  mvcomp sign_cdf = mvcomp' sign_cdf ->
  mvcomp classes_cdf = mvcomp' classes_cdf ->
  mvcomp class0_cdf = mvcomp' class0_cdf ->
  (forall i, mvcomp (bits_cdf i) = mvcomp' (bits_cdf i)) ->
  build_nmv_component_cost_table mvcost mvcomp precision x
  = build_nmv_component_cost_table mvcost mvcomp' precision x.
Proof.
  intros Hp Hsign Hclass Hclass0 Hbits.
  assert (Hmag : forall v,
            magnitude_cost (init_cost_arrays mvcomp precision) precision v
            = magnitude_cost (init_cost_arrays mvcomp' precision)
                             precision v).
  { intros v. unfold magnitude_cost.
    destruct (get_mv_class (v - 1)) as [c o].
    destruct (Z.gtb_spec precision MV_SUBPEL_NONE); [lia|].
    cbn [class_cost class0_cost bits_cost init_cost_arrays].
    rewrite Hclass, Hclass0.
    destruct (c =? MV_CLASS_0); [reflexivity|].
    apply fold_left_add_ext. intros i.
    rewrite (init_rows_ext MV_OFFSET_BITS _
               (fun i => av1_cost_tokens_from_cdf (mvcomp' (bits_cdf i))));
      [reflexivity|].
    intros k. now rewrite Hbits. }
  destruct (Z.eq_dec x 0) as [->|Hx]; [now rewrite !cost_table_zero|].
  destruct (Z_le_gt_dec (Z.abs x) MV_MAX) as [Hin|Hout].
  - assert (Habs : 1 <= Z.abs x <= MV_MAX) by lia.
    destruct (cost_table_lookup mvcost mvcomp precision (Z.abs x) Habs)
      as [Hpos Hneg].
    destruct (cost_table_lookup mvcost mvcomp' precision (Z.abs x) Habs)
      as [Hpos' Hneg'].
    cbn [sign_cost init_cost_arrays] in Hpos, Hneg, Hpos', Hneg'.
    rewrite Hmag, Hsign in Hpos, Hneg.
    destruct (Z_lt_le_dec x 0).
    + replace x with (- Z.abs x) by lia. now rewrite Hneg, Hneg'.
    + replace x with (Z.abs x) by lia. now rewrite Hpos, Hpos'.
  - unfold build_nmv_component_cost_table. cbv zeta.
    rewrite !(fold_store_other _ _ _ (seqZ 1 MV_MAX));
      [reflexivity| |];
      intros v Hv; apply elem_of_seqZ in Hv; lia.
Qed.

(** ** What a call leaves in the context *)

Lemma adapt_all_once (evs : list symbol_write) (ctx : nmv_context)
    (e : symbol_write) :
  NoDup (cdf <$> evs) -> e ∈ evs ->
  adapt_all evs ctx (cdf e)
  = update_cdf (ctx (cdf e)) (symb e) (nsymbs e).
Proof.
  revert ctx. induction evs as [|a evs IH]; intros ctx Hnd Hin.
  - now apply elem_of_nil in Hin.
  - rewrite fmap_cons in Hnd. apply list.NoDup_cons in Hnd as [Hnotin Hnd].
    assert (Hother : forall e', e' ∈ evs -> cdf e' <> cdf a).
    { intros e' He' Heq. apply Hnotin. rewrite <- Heq.
      apply list_elem_of_fmap. now exists e'. }
    change (adapt_all (a :: evs) ctx)
      with (adapt_all evs
              (<[cdf a := update_cdf (ctx (cdf a)) (symb a) (nsymbs a)]> ctx)).
    apply elem_of_cons in Hin as [->|Hin].
    + rewrite adapt_all_frame.
      * unfold insert, fn_insert.
        destruct (decide (cdf a = cdf a)); [reflexivity|contradiction].
      * apply list.Forall_forall. intros e' He'. now apply Hother.
    + rewrite (IH _ Hnd Hin).
      unfold insert, fn_insert.
      destruct (decide (cdf a = cdf e)) as [Heq|_]; [|reflexivity].
      exfalso. now apply (Hother e Hin).
Qed.

(** After the general entry every distribution that coded a symbol has
    been adapted once, from its contents before the call and with that
    symbol. *)
Theorem av1_encode_mv_adapts_once (cpi : AV1_COMP) (mv ref : MV)
    (precision : MvSubpelPrecision) (s : enc_state) :
  exists cpi' s' symbols,
    av1_encode_mv cpi mv ref precision s = Some (cpi', s') /\
    writer s' = writer s ++ symbols /\
    Forall (fun e => mvctx s' (cdf e)
                     = update_cdf (mvctx s (cdf e)) (symb e) (nsymbs e))
           symbols.
Proof.
  do 3 eexists. split; [apply av1_encode_mv_run|].
  split; [reflexivity|].
  apply list.Forall_forall. intros e He.
  apply adapt_all_once; [apply joint_cdfs|exact He].
Qed.

(** ** The fields of a magnitude *)

(** On the AV1 numbering of the classes, for a magnitude in
    [[1, MV_MAX]]: the offset is not negative; the integer, fractional and
    high-precision fields that the encoder takes from it make it up
    again; and the integer field of a class above class 0 is below
    [2 ^ n] for the [n] bits that are written, so its bits above the
    [n]-th, which are not written, are all zero. *)
Theorem magnitude_fields (mag : Z) :
  CLASS0_BITS = 1 -> CLASS0_SIZE = 2 -> MV_MAX <= 16384 ->
  1 <= mag <= MV_MAX ->
  let c := fst (get_mv_class (mag - 1)) in
  let offset := snd (get_mv_class (mag - 1)) in
  let d := Z.shiftr offset 3 in
  let fr := Z.land (Z.shiftr offset 1) 3 in
  let hp := Z.land offset 1 in
  let n := c + CLASS0_BITS - 1 in
  0 <= offset /\
  offset = 8 * d + 2 * fr + hp /\
  0 <= fr < 4 /\ 0 <= hp < 2 /\
  (c = MV_CLASS_0 -> 0 <= d < CLASS0_SIZE) /\
  (c <> MV_CLASS_0 -> 0 <= d < 2 ^ n /\
                      forall i, n <= i -> Z.testbit d i = false).
Proof.
  intros HB HS HM Hmag c offset d fr hp n.
  destruct (offset_fits mag HB HS HM Hmag) as (Hc & Ho & _ & Hd0 & Hd & _).
  fold c offset in Hc, Ho, Hd0, Hd. fold d n in Hd0, Hd.
  split; [assumption|]. split; [apply offset_fields|].
  split; [apply land_3_bounds|]. split; [apply land_1_bounds|].
  split; [intros Hc0; rewrite HS; auto|].
  intros Hne. split; [auto|].
  intros i Hi. specialize (Hd Hne).
  destruct (Z.eq_dec d 0) as [->|Hd1]; [apply Z.bits_0|].
  apply Z.bits_above_log2; [lia|].
  assert (Z.log2 d < n) by (apply Z.log2_lt_pow2; lia). lia.
Qed.

End EncodeMv.

(** ** The statements on the AV1 constants *)

(** From here on the environment is [Sample.av1]: the constants of the AV1
    format and the sample collaborators. *)
#[local] Existing Instance Sample.av1.

(** Closed comparisons of constants hold by evaluation. *)
Ltac by_evaluation :=
  repeat split; vm_compute; first [reflexivity | discriminate].

Example get_mv_class_15 : get_mv_class 15 = (0, 15).
Proof. reflexivity. Qed.

Example get_mv_class_16 : get_mv_class 16 = (1, 0).
Proof. reflexivity. Qed.

Example get_mv_class_8191 : get_mv_class 8191 = (9, 4095).
Proof. reflexivity. Qed.

Example get_mv_class_8192 : get_mv_class 8192 = (10, 0).
Proof. reflexivity. Qed.

Example get_mv_class_16382 : get_mv_class (MV_MAX - 1) = (10, 8190).
Proof. reflexivity. Qed.

(** Without [CONFIG_FLEX_MVRES] the fractional value is one symbol over
    [MV_FP_SIZE]. *)
Example encode_mv_component_wide_fractional :
  (fun r => writer (snd r))
    <$> encode_mv_component (env := Sample.env false) (-20) (comps 0) 2
                            Sample.state
  = Some [mkWrite 1 (comps 0 sign_cdf) 2;
          mkWrite 1 (comps 0 classes_cdf) 11;
          mkWrite 0 (comps 0 (bits_cdf 0)) 2;
          mkWrite 1 (comps 0 (fp_cdf [])) 4;
          mkWrite 1 (comps 0 hp_cdf) 2].
Proof. reflexivity. Qed.

(** A magnitude of class 6 at half-pixel precision: six integer bits,
    least significant first, and the coarse fractional bit. *)
Example encode_mv_component_class_6 :
  (fun r => writer (snd r))
    <$> encode_mv_component 1000 (comps 1) 0 Sample.state
  = Some [mkWrite 0 (comps 1 sign_cdf) 2;
          mkWrite 6 (comps 1 classes_cdf) 11;
          mkWrite 0 (comps 1 (bits_cdf 0)) 2;
          mkWrite 0 (comps 1 (bits_cdf 1)) 2;
          mkWrite 1 (comps 1 (bits_cdf 2)) 2;
          mkWrite 1 (comps 1 (bits_cdf 3)) 2;
          mkWrite 1 (comps 1 (bits_cdf 4)) 2;
          mkWrite 1 (comps 1 (bits_cdf 5)) 2;
          mkWrite 1 (comps 1 (fp_cdf [0])) 2].
Proof. reflexivity. Qed.

(** The assertions: a zero component, and a vector with a fractional
    part in the restricted entry. *)
Example encode_mv_component_zero :
  encode_mv_component 0 (comps 0) 2 Sample.state = None.
Proof. reflexivity. Qed.

Example av1_encode_dv_subpel :
  av1_encode_dv (mkMV 17 (-24)) (mkMV 0 8) Sample.state = None.
Proof. reflexivity. Qed.

(** The step-size tracking of the general entry. *)
Example av1_encode_mv_tracks_magnitude :
  fst <$> av1_encode_mv Sample.cpi (mkMV 16 (-40)) (mkMV 0 0) 2 Sample.state
  = Some (mkCpi 1 5).
Proof. reflexivity. Qed.

(** A negative running maximum is the larger one in [unsigned int], and
    stays. *)
Example av1_encode_mv_negative_maximum :
  fst <$> av1_encode_mv (mkCpi 1 (-1)) (mkMV 16 (-40)) (mkMV 0 0) 2
                        Sample.state
  = Some (mkCpi 1 (-1)).
Proof. reflexivity. Qed.

(** A difference that does not fit the 16-bit field of an [MV] is coded
    as what the field holds: 60000 as -5536, with the sign symbol 1 and
    the class 9. *)
Example av1_encode_mv_narrowed_difference :
  (fun r => writer (snd r))
    <$> av1_encode_mv Sample.cpi (mkMV 30000 0) (mkMV (-30000) 0) 2
                      Sample.state
  = (fun r => writer (snd r))
      <$> av1_encode_mv Sample.cpi (mkMV (-5536) 0) (mkMV 0 0) 2
                        Sample.state /\
  (fun r => take 3 (writer (snd r)))
    <$> av1_encode_mv Sample.cpi (mkMV 30000 0) (mkMV (-30000) 0) 2
                      Sample.state
  = Some [mkWrite 2 joints_cdf 4;
          mkWrite 1 (comps 0 sign_cdf) 2;
          mkWrite 9 (comps 0 classes_cdf) 11].
Proof. split; vm_compute; reflexivity. Qed.

Lemma get_mv_class_below_8_witness :
  0 < CLASS0_SIZE /\ 0 <= 5 <= 7 /\
  Z.shiftr 5 3 = 0 /\
  log_in_base_2 (to_unsigned (Z.shiftr 5 3)) = 0 /\
  get_mv_class 5 = (MV_CLASS_0, 5).
Proof.
  split; [reflexivity|]. split; [lia|].
  apply (get_mv_class_below_8 5); [reflexivity|lia].
Defined.

Lemma get_mv_class_spec_witness :
  0 < CLASS0_SIZE /\ 0 <= 100 <= INT_MAX /\
  get_mv_class 100 = (3, 36) /\
  is_floor_log2 (100 # 8) (fst (get_mv_class 100)) /\
  snd (get_mv_class 100) = 100 - mv_class_base (fst (get_mv_class 100)).
Proof.
  assert (H1 : 0 < CLASS0_SIZE) by reflexivity.
  assert (H2 : 0 <= 100 <= INT_MAX) by (unfold INT_MAX; lia).
  destruct (get_mv_class_spec 100 H1 H2) as (_ & Hlog & _ & Hoff & _).
  split; [exact H1|]. split; [exact H2|]. split; [reflexivity|].
  split; [apply Hlog; simpl; lia|exact Hoff].
Defined.

(** Against C4 as stated: [z = 4] is non-negative and below the saturation
    threshold, the classifier returns class 0 for it, and 0 is not the
    floor of the logarithm in base 2 of [4 / 8], whether the quotient is
    the rational one half, whose floor logarithm is -1, or the integer
    quotient 0, which has none. *)
Lemma get_mv_class_4_not_floor_log2 :
  0 <= 4 < CLASS0_SIZE * 4096 /\
  get_mv_class 4 = (MV_CLASS_0, 4) /\
  ~ is_floor_log2 (4 # 8) (fst (get_mv_class 4)) /\
  ~ is_floor_log2 (inject_Z (4 / 8)) (fst (get_mv_class 4)) /\
  is_floor_log2 (4 # 8) (-1).
Proof.
  split; [simpl; lia|]. split; [reflexivity|].
  split; [|split].
  - intros [Hlo _]. vm_compute in Hlo. now apply Hlo.
  - intros [Hlo _]. vm_compute in Hlo. now apply Hlo.
  - split; vm_compute; [discriminate|reflexivity].
Qed.

Lemma mv_class_roundtrip_witness :
  CLASS0_SIZE = 2 /\ MV_MAX <= INT_MAX /\ 1 <= Z.abs (-137) <= MV_MAX /\
  get_mv_class 136 = (4, 8) /\
  mv_class_base 4 <= 136 < mv_class_base 5 /\
  mv_reconstruct true 4 8 = -137.
Proof.
  assert (H1 : CLASS0_SIZE = 2) by reflexivity.
  assert (H2 : MV_MAX <= INT_MAX) by (vm_compute; discriminate).
  assert (H3 : 1 <= Z.abs (-137) <= MV_MAX) by (simpl; lia).
  destruct (mv_class_roundtrip (-137) H1 H2 H3) as (Hbelow & _ & Hrec & _).
  destruct (Hbelow ltac:(simpl; lia)) as (Hrange & _).
  split; [exact H1|]. split; [exact H2|]. split; [exact H3|].
  split; [reflexivity|]. split; [exact Hrange|exact Hrec].
Defined.

Lemma encode_mv_component_symbol_order_witness :
  -20 <> 0 /\
  exists s',
    encode_mv_component (-20) (comps 0) 2 Sample.state = Some (tt, s') /\
    writer s' =
    [mkWrite 1 (comps 0 sign_cdf) 2;
     mkWrite 1 (comps 0 classes_cdf) 11;
     mkWrite 0 (comps 0 (bits_cdf 0)) 2;
     mkWrite 0 (comps 0 (fp_cdf [0])) 2;
     mkWrite 1 (comps 0 (fp_cdf [1])) 2;
     mkWrite 1 (comps 0 hp_cdf) 2].
Proof.
  assert (H : -20 <> 0) by discriminate.
  destruct (encode_mv_component_symbol_order (-20) (comps 0) 2 Sample.state H)
    as ((s' & Hrun & Hw & _) & _).
  split; [exact H|]. exists s'. split; [exact Hrun|exact Hw].
Defined.

Lemma cost_table_matches_encoder_witness :
  2 <= CLASS0_SIZE <= 4 /\
  MV_CLASS_10 + CLASS0_BITS - 1 <= MV_OFFSET_BITS /\
  MV_SUBPEL_NONE <= MV_SUBPEL_QTR_PRECISION /\
  MV_MAX <= INT_MAX /\
  1 <= Z.abs (-20) <= MV_MAX /\
  exists magnitude s',
    encode_mv_component (-20) (comps 0) 2 Sample.state = Some (tt, s') /\
    writer s' = mkWrite 1 (comps 0 sign_cdf) 2 :: magnitude /\
    build_nmv_component_cost_table (fun _ => 0)
      (fun f => Sample.context (comps 0 f)) 2 (-20)
    = symbols_cost Sample.context magnitude
      + av1_cost_tokens_from_cdf (Sample.context (comps 0 sign_cdf)) 1.
Proof.
  assert (H1 : 2 <= CLASS0_SIZE <= 4) by by_evaluation.
  assert (H2 : MV_CLASS_10 + CLASS0_BITS - 1 <= MV_OFFSET_BITS)
    by by_evaluation.
  assert (H3 : MV_SUBPEL_NONE <= MV_SUBPEL_QTR_PRECISION)
    by by_evaluation.
  assert (H4 : MV_MAX <= INT_MAX) by by_evaluation.
  assert (H5 : 1 <= Z.abs (-20) <= MV_MAX) by by_evaluation.
  destruct (cost_table_matches_encoder (fun _ => 0) (comps 0) 2 Sample.state
              (-20) H1 H2 H3 H4 H5)
    as ((magnitude & s' & Hrun & Hw & Hcost) & _).
  repeat (split; [assumption|]).
  exists magnitude, s'. split; [exact Hrun|]. split; [exact Hw|exact Hcost].
Defined.

Lemma cost_table_sign_symmetry_witness :
  1 <= 1 <= MV_MAX /\
  let table :=
    build_nmv_component_cost_table (fun _ => 0) Sample.component 2 in
  let signCost := av1_cost_tokens_from_cdf (Sample.component sign_cdf) in
  table 1 - table (- (1)) = signCost 0 - signCost 1.
Proof.
  assert (H : 1 <= 1 <= MV_MAX) by by_evaluation.
  split; [exact H|].
  exact (proj1 (cost_table_sign_symmetry (fun _ => 0) Sample.component 2 1 H)).
Defined.

(** Against C2 as stated: with a sign distribution of 7/8 against 1/8 the
    sign symbol 0 costs 512 and the sign symbol 1 costs 1536; the entries
    for 1 and -1 are 3584 and 4608, so [cost(1) - cost(-1)] is -1024, which
    is [signCost(0) - signCost(1)] and not [signCost(1) - signCost(0)]. *)
Lemma cost_table_sign_difference_not_as_claimed :
  let table :=
    build_nmv_component_cost_table (fun _ => 0) Sample.component 2 in
  let signCost := av1_cost_tokens_from_cdf (Sample.component sign_cdf) in
  1 <= 1 <= MV_MAX /\
  table 1 = 3584 /\ table (- (1)) = 4608 /\
  signCost 0 = 512 /\ signCost 1 = 1536 /\
  table 1 - table (- (1)) <> signCost 1 - signCost 0.
Proof.
  intros table signCost.
  destruct (cost_table_lookup (fun _ => 0) Sample.component 2 1
              ltac:(by_evaluation)) as [Hpos Hneg].
  fold table in Hpos, Hneg.
  assert (H1 : table 1 = 3584) by (rewrite Hpos; reflexivity).
  assert (H2 : table (- (1)) = 4608) by (rewrite Hneg; reflexivity).
  split; [by_evaluation|]. split; [exact H1|]. split; [exact H2|].
  split; [reflexivity|]. split; [reflexivity|].
  rewrite H1, H2. discriminate.
Qed.

Lemma cost_table_magnitude_1_witness :
  0 < CLASS0_SIZE /\ 1 <= MV_MAX /\
  let table :=
    build_nmv_component_cost_table (fun _ => 0) Sample.component
                                   MV_SUBPEL_NONE in
  let signCost := av1_cost_tokens_from_cdf (Sample.component sign_cdf) in
  let classCost := av1_cost_tokens_from_cdf (Sample.component classes_cdf) in
  let class0Cost := av1_cost_tokens_from_cdf (Sample.component class0_cdf) in
  table 1 = signCost 0 + classCost MV_CLASS_0 + class0Cost 0.
Proof.
  assert (H1 : 0 < CLASS0_SIZE) by reflexivity.
  assert (H2 : 1 <= MV_MAX) by by_evaluation.
  split; [exact H1|]. split; [exact H2|].
  exact (proj1 (proj2 (proj2
           (cost_table_magnitude_1 (fun _ => 0) Sample.component H1 H2)))).
Defined.

(** Against C6 as stated: at [MV_SUBPEL_NONE], with class 0 at
    probability one half among the classes (cost 512), the sign symbol 0 at
    cost 512 and the class-0 symbol 0 at cost 1024, the entry for
    magnitude 1 is 2048: the cost of the class symbol is part of it, and the
    entry is not the sum of the sign cost and [class0Cost[0]] alone. *)
Lemma magnitude_1_entry_includes_class_cost :
  let table :=
    build_nmv_component_cost_table (fun _ => 0) Sample.component
                                   MV_SUBPEL_NONE in
  let signCost := av1_cost_tokens_from_cdf (Sample.component sign_cdf) in
  let classCost := av1_cost_tokens_from_cdf (Sample.component classes_cdf) in
  let class0Cost := av1_cost_tokens_from_cdf (Sample.component class0_cdf) in
  table 1 = 2048 /\
  signCost 0 = 512 /\ classCost 0 = 512 /\ class0Cost 0 = 1024 /\
  table 1 <> signCost 0 + class0Cost 0.
Proof.
  intros table signCost classCost class0Cost.
  destruct (cost_table_lookup (fun _ => 0) Sample.component MV_SUBPEL_NONE 1
              ltac:(by_evaluation)) as [Hpos _].
  fold table in Hpos.
  assert (H1 : table 1 = 2048) by (rewrite Hpos; reflexivity).
  split; [exact H1|]. repeat (split; [reflexivity|]).
  rewrite H1. discriminate.
Qed.

Lemma av1_encode_mv_joint_witness :
  (exists cpi',
     av1_encode_mv Sample.cpi (mkMV 24 (-8)) (mkMV 24 (-8)) 2 Sample.state =
     Some (cpi', write_all [mkWrite 0 joints_cdf 4] Sample.state)) /\
  (exists cpi',
     av1_encode_mv Sample.cpi (mkMV 16 0) (mkMV 0 0) 2 Sample.state =
     Some (cpi',
           write_all
             [mkWrite 2 joints_cdf 4;
              mkWrite 0 (comps 0 sign_cdf) 2;
              mkWrite 0 (comps 0 classes_cdf) 11;
              mkWrite 1 (comps 0 class0_cdf) 2;
              mkWrite 1 (comps 0 (class0_fp_cdf [1; 0])) 2;
              mkWrite 1 (comps 0 (class0_fp_cdf [1; 2])) 2;
              mkWrite 1 (comps 0 class0_hp_cdf) 2]
             Sample.state)).
Proof.
  split.
  - destruct (av1_encode_mv_joint Sample.cpi (mkMV 24 (-8)) (mkMV 24 (-8)) 2
                Sample.state) as (_ & _ & Hzero & _).
    exact (Hzero eq_refl eq_refl).
  - destruct (av1_encode_mv_joint Sample.cpi (mkMV 16 0) (mkMV 0 0) 2
                Sample.state) as (_ & _ & _ & Hrow).
    destruct (Hrow ltac:(discriminate) eq_refl) as [Hrun _].
    exact Hrun.
Defined.

Lemma av1_encode_dv_full_pixel_witness :
  MV_SUBPEL_NONE <= MV_SUBPEL_QTR_PRECISION /\
  Z.land (-24) 7 = 0 /\ Z.land 16 7 = 0 /\
  Z.land 8 7 = 0 /\ Z.land 0 7 = 0 /\
  av1_encode_dv (mkMV 16 (-24)) (mkMV 0 8) Sample.state =
  Some (tt,
        write_all
          [mkWrite 3 joints_cdf 4;
           mkWrite 0 (comps 0 sign_cdf) 2;
           mkWrite 0 (comps 0 classes_cdf) 11;
           mkWrite 1 (comps 0 class0_cdf) 2;
           mkWrite 1 (comps 1 sign_cdf) 2;
           mkWrite 1 (comps 1 classes_cdf) 11;
           mkWrite 1 (comps 1 (bits_cdf 0)) 2]
          Sample.state).
Proof.
  assert (H0 : MV_SUBPEL_NONE <= MV_SUBPEL_QTR_PRECISION) by by_evaluation.
  split; [exact H0|]. repeat (split; [reflexivity|]).
  exact (proj1 (av1_encode_dv_full_pixel Sample.cpi (mkMV 16 (-24))
                  (mkMV 0 8) Sample.state H0
                  eq_refl eq_refl eq_refl eq_refl)).
Defined.

Lemma av1_get_ref_mv_from_stack_spec_witness :
  av1_get_ref_mv_from_stack 1 (fun i => if i =? 0 then 1 else 4) 1
                            Sample.mbmi_ext
  = Some (mkMV (-8) 8) /\
  av1_get_ref_mv_from_stack 0 (fun i => if i =? 0 then 1 else -1) 1
                            Sample.mbmi_ext
  = Some (mkMV 8 16) /\
  av1_get_ref_mv_from_stack 0 (fun i => if i =? 0 then 1 else -1) 2
                            Sample.mbmi_ext
  = Some (mkMV 32 (-32)).
Proof.
  assert (Hcompound : (if 1 =? 0 then 1 else 4) > INTRA_FRAME)
    by by_evaluation.
  assert (Hsingle : (if 1 =? 0 then 1 else -1) <= INTRA_FRAME)
    by by_evaluation.
  pose proof (av1_get_ref_mv_from_stack_spec
                (fun i => if i =? 0 then 1 else 4) 1 Sample.mbmi_ext)
    as [Hc _].
  pose proof (av1_get_ref_mv_from_stack_spec
                (fun i => if i =? 0 then 1 else -1) 1 Sample.mbmi_ext)
    as [_ H1].
  pose proof (av1_get_ref_mv_from_stack_spec
                (fun i => if i =? 0 then 1 else -1) 2 Sample.mbmi_ext)
    as [_ H2].
  destruct (Hc Hcompound) as [_ Hcomp].
  destruct (H1 Hsingle) as (Hthis & _).
  destruct (H2 Hsingle) as (_ & Hglobal & _).
  split; [exact Hcomp|]. split.
  - apply Hthis. by_evaluation.
  - apply Hglobal. by_evaluation.
Defined.

(** ** The further statements on the AV1 constants *)

#[local] Existing Instance Sample.modes.

Lemma av1_encode_mv_step_size_witness :
  Z.abs 16 <= INT_MAX /\ Z.abs (-40) <= INT_MAX /\
  INT_MIN <= max_mv_magnitude Sample.cpi <= INT_MAX /\
  exists cpi' s',
    av1_encode_mv Sample.cpi (mkMV 16 (-40)) (mkMV 8 8) 2 Sample.state
    = Some (cpi', s') /\
    max_mv_magnitude cpi' = 5.
Proof.
  assert (H1 : Z.abs 16 <= INT_MAX) by by_evaluation.
  assert (H2 : Z.abs (-40) <= INT_MAX) by by_evaluation.
  assert (H3 : INT_MIN <= max_mv_magnitude Sample.cpi <= INT_MAX)
    by by_evaluation.
  destruct (av1_encode_mv_step_size Sample.cpi (mkMV 16 (-40)) (mkMV 8 8) 2
              Sample.state H1 H2 H3)
    as (cpi' & s' & Hrun & _ & _ & Hmax & _).
  split; [exact H1|]. split; [exact H2|]. split; [exact H3|].
  exists cpi', s'. split; [exact Hrun|].
  rewrite Hmax by by_evaluation. reflexivity.
Defined.

Lemma cost_table_extent_witness :
  build_nmv_component_cost_table (fun i => i) Sample.component 2 20000
  = 20000 /\
  build_nmv_component_cost_table (fun i => i) Sample.component 2 (-5)
  = build_nmv_component_cost_table (fun _ => 0) Sample.component 2 (-5).
Proof.
  split.
  - apply (proj1 (cost_table_extent (fun i => i) (fun _ => 0)
                    Sample.component 2 20000));
      by_evaluation.
  - apply (proj2 (cost_table_extent (fun i => i) (fun _ => 0)
                    Sample.component 2 (-5))).
    by_evaluation.
Defined.

Lemma av1_encode_mv_frame_witness :
  exists cpi' s',
    av1_encode_mv Sample.cpi (mkMV 16 8) (mkMV 0 8) 2 Sample.state
    = Some (cpi', s') /\
    forall f, mvctx s' (comps 1 f) = Sample.context (comps 1 f).
Proof.
  destruct (av1_encode_mv_frame Sample.cpi (mkMV 16 8) (mkMV 0 8) 2
              Sample.state)
    as (cpi' & s' & Hrun & _ & Hcol & _).
  exists cpi', s'. split; [exact Hrun|]. exact (Hcol eq_refl).
Defined.

Lemma av1_encode_dv_frame_witness :
  MV_SUBPEL_NONE <= MV_SUBPEL_QTR_PRECISION /\
  exists s',
    av1_encode_dv (mkMV 16 (-24)) (mkMV 0 8) Sample.state = Some (tt, s') /\
    mvctx s' (comps 0 hp_cdf) = Sample.context (comps 0 hp_cdf) /\
    mvctx s' (comps 1 (fp_cdf [0])) = Sample.context (comps 1 (fp_cdf [0])).
Proof.
  assert (H0 : MV_SUBPEL_NONE <= MV_SUBPEL_QTR_PRECISION) by by_evaluation.
  split; [exact H0|].
  eexists. split.
  - exact (av1_encode_dv_emits (mkMV 16 (-24)) (mkMV 0 8)
             eq_refl eq_refl eq_refl eq_refl Sample.state).
  - split.
    + exact (proj2 (proj2 (proj2
               (av1_encode_dv_frame (mkMV 16 (-24)) (mkMV 0 8) Sample.state _
                  H0
                  (av1_encode_dv_emits (mkMV 16 (-24)) (mkMV 0 8)
                     eq_refl eq_refl eq_refl eq_refl Sample.state)
                  0)))).
    + exact (proj1 (proj2
               (av1_encode_dv_frame (mkMV 16 (-24)) (mkMV 0 8) Sample.state _
                  H0
                  (av1_encode_dv_emits (mkMV 16 (-24)) (mkMV 0 8)
                     eq_refl eq_refl eq_refl eq_refl Sample.state)
                  1))
               [0]).
Defined.

Lemma av1_encode_mv_in_alphabet_witness :
  2 <= CLASS0_SIZE <= 4 /\ MV_CLASS_10 < MV_CLASSES /\ 4 <= MV_FP_SIZE /\
  4 <= MV_JOINTS /\ MV_MAX <= INT_MAX /\
  Z.abs (16 - 0) <= MV_MAX /\ Z.abs (-40 - 0) <= MV_MAX /\
  exists cpi' s' symbols,
    av1_encode_mv Sample.cpi (mkMV 16 (-40)) (mkMV 0 0) 2 Sample.state
    = Some (cpi', s') /\
    writer s' = symbols /\
    Forall in_alphabet symbols.
Proof.
  assert (H1 : 2 <= CLASS0_SIZE <= 4) by by_evaluation.
  assert (H2 : MV_CLASS_10 < MV_CLASSES) by by_evaluation.
  assert (H3 : 4 <= MV_FP_SIZE) by by_evaluation.
  assert (H4 : 4 <= MV_JOINTS) by by_evaluation.
  assert (H5 : MV_MAX <= INT_MAX) by by_evaluation.
  assert (H6 : Z.abs (16 - 0) <= MV_MAX) by by_evaluation.
  assert (H7 : Z.abs (-40 - 0) <= MV_MAX) by by_evaluation.
  destruct (av1_encode_mv_in_alphabet Sample.cpi (mkMV 16 (-40)) (mkMV 0 0) 2
              Sample.state H1 H2 H3 H4 H5 H6 H7)
    as (cpi' & s' & symbols & Hrun & Hw & Hall).
  repeat (split; [assumption|]).
  exists cpi', s', symbols. split; [exact Hrun|]. split; [exact Hw|exact Hall].
Defined.

Lemma av1_encode_mv_symbol_count_witness :
  2 <= CLASS0_SIZE <= 4 /\ MV_MAX <= INT_MAX /\
  Z.abs (16 - 0) <= MV_MAX /\ Z.abs (-40 - 0) <= MV_MAX /\
  exists cpi' s',
    av1_encode_mv Sample.cpi (mkMV 16 (-40)) (mkMV 0 0) 2 Sample.state
    = Some (cpi', s') /\
    (length (writer s') <= 31)%nat.
Proof.
  assert (H1 : 2 <= CLASS0_SIZE <= 4) by by_evaluation.
  assert (H5 : MV_MAX <= INT_MAX) by by_evaluation.
  assert (H6 : Z.abs (16 - 0) <= MV_MAX) by by_evaluation.
  assert (H7 : Z.abs (-40 - 0) <= MV_MAX) by by_evaluation.
  destruct (av1_encode_mv_symbol_count Sample.cpi (mkMV 16 (-40)) (mkMV 0 0)
              2 Sample.state H1 H5 H6 H7)
    as (cpi' & s' & symbols & Hrun & Hw & _ & _ & Hlen).
  repeat (split; [assumption|]).
  exists cpi', s'. split; [exact Hrun|].
  rewrite Hw. exact Hlen.
Defined.

Lemma av1_encode_mv_cost_witness :
  2 <= CLASS0_SIZE <= 4 /\
  MV_CLASS_10 + CLASS0_BITS - 1 <= MV_OFFSET_BITS /\
  MV_SUBPEL_NONE <= MV_SUBPEL_QTR_PRECISION /\
  MV_MAX <= INT_MAX /\
  Z.abs (16 - 0) <= MV_MAX /\ Z.abs (-40 - 0) <= MV_MAX /\
  exists cpi' s' symbols,
    av1_encode_mv Sample.cpi (mkMV 16 (-40)) (mkMV 0 0) 2 Sample.state
    = Some (cpi', s') /\
    writer s' = symbols /\
    adaptive_cost Sample.context symbols
    = av1_cost_tokens_from_cdf (Sample.context joints_cdf) 3
      + build_nmv_component_cost_table (fun _ => 0)
          (fun f => Sample.context (comps 0 f)) 2 16
      + build_nmv_component_cost_table (fun _ => 0)
          (fun f => Sample.context (comps 1 f)) 2 (-40).
Proof.
  assert (H1 : 2 <= CLASS0_SIZE <= 4) by by_evaluation.
  assert (H2 : MV_CLASS_10 + CLASS0_BITS - 1 <= MV_OFFSET_BITS)
    by by_evaluation.
  assert (H3 : MV_SUBPEL_NONE <= MV_SUBPEL_QTR_PRECISION) by by_evaluation.
  assert (H4 : MV_MAX <= INT_MAX) by by_evaluation.
  assert (H5 : Z.abs (16 - 0) <= MV_MAX) by by_evaluation.
  assert (H6 : Z.abs (-40 - 0) <= MV_MAX) by by_evaluation.
  destruct (av1_encode_mv_cost (fun _ => 0) (fun _ => 0) Sample.cpi
              (mkMV 16 (-40)) (mkMV 0 0) 2 Sample.state H1 H2 H3 H4 H5 H6)
    as (_ & cpi' & s' & symbols & Hrun & Hw & Hcost).
  repeat (split; [assumption|]).
  exists cpi', s', symbols. split; [exact Hrun|]. split; [exact Hw|exact Hcost].
Defined.

Lemma encode_mv_component_injective_witness :
  CLASS0_BITS = 1 /\ CLASS0_SIZE = 2 /\ MV_MAX <= 16384 /\
  MV_SUBPEL_NONE < 2 /\ MV_SUBPEL_HALF_PRECISION < 2 /\
  MV_SUBPEL_QTR_PRECISION < 2 /\
  1 <= Z.abs (-20) <= MV_MAX /\
  exists s1,
    encode_mv_component (-20) (comps 0) 2 Sample.state = Some (tt, s1) /\
    writer s1 = writer s1 /\ -20 = -20.
Proof.
  assert (H1 : CLASS0_BITS = 1) by reflexivity.
  assert (H2 : CLASS0_SIZE = 2) by reflexivity.
  assert (H3 : MV_MAX <= 16384) by by_evaluation.
  assert (H4 : MV_SUBPEL_NONE < 2) by by_evaluation.
  assert (H5 : MV_SUBPEL_HALF_PRECISION < 2) by by_evaluation.
  assert (H6 : MV_SUBPEL_QTR_PRECISION < 2) by by_evaluation.
  assert (H7 : 1 <= Z.abs (-20) <= MV_MAX) by by_evaluation.
  assert (Hrun := encode_mv_component_emits (-20) (comps 0) 2
                    ltac:(discriminate) Sample.state).
  repeat (split; [assumption|]).
  eexists. split; [exact Hrun|]. split; [reflexivity|].
  exact (encode_mv_component_injective (-20) (-20) (comps 0) 2 Sample.state
           _ _ H1 H2 H3 H4 H5 H6 H7 H7 Hrun Hrun eq_refl).
Defined.

(** Two components that differ in the high-precision bit alone are
    written differently at the highest precision. *)
Example encode_mv_component_distinct :
  (fun r => writer (snd r))
    <$> encode_mv_component (-20) (comps 0) 2 Sample.state
  <> (fun r => writer (snd r))
       <$> encode_mv_component (-19) (comps 0) 2 Sample.state.
Proof. vm_compute. discriminate. Qed.

Lemma av1_encode_mv_injective_witness :
  CLASS0_BITS = 1 /\ CLASS0_SIZE = 2 /\ MV_MAX <= 16384 /\
  MV_SUBPEL_NONE < 2 /\ MV_SUBPEL_HALF_PRECISION < 2 /\
  MV_SUBPEL_QTR_PRECISION < 2 /\
  Z.abs (16 - 0) <= MV_MAX /\ Z.abs (-40 - 8) <= MV_MAX /\
  exists cpi' s1,
    av1_encode_mv Sample.cpi (mkMV 16 (-40)) (mkMV 0 8) 2 Sample.state
    = Some (cpi', s1) /\
    writer s1 = writer s1 /\ mkMV 16 (-40) = mkMV 16 (-40).
Proof.
  assert (H1 : CLASS0_BITS = 1) by reflexivity.
  assert (H2 : CLASS0_SIZE = 2) by reflexivity.
  assert (H3 : MV_MAX <= 16384) by by_evaluation.
  assert (H4 : MV_SUBPEL_NONE < 2) by by_evaluation.
  assert (H5 : MV_SUBPEL_HALF_PRECISION < 2) by by_evaluation.
  assert (H6 : MV_SUBPEL_QTR_PRECISION < 2) by by_evaluation.
  assert (H7 : Z.abs (16 - 0) <= MV_MAX) by by_evaluation.
  assert (H8 : Z.abs (-40 - 8) <= MV_MAX) by by_evaluation.
  assert (Hrun := av1_encode_mv_run Sample.cpi (mkMV 16 (-40)) (mkMV 0 8) 2
                    Sample.state).
  repeat (split; [assumption|]).
  do 2 eexists. split; [exact Hrun|]. split; [reflexivity|].
  exact (av1_encode_mv_injective Sample.cpi Sample.cpi _ _
           (mkMV 16 (-40)) (mkMV 16 (-40)) (mkMV 0 8) 2 Sample.state _ _
           H1 H2 H3 H4 H5 H6 H7 H8 H7 H8 Hrun Hrun eq_refl).
Defined.

Lemma av1_encode_dv_injective_witness :
  CLASS0_BITS = 1 /\ CLASS0_SIZE = 2 /\ MV_MAX <= 16384 /\
  Z.abs (16 - 0) <= MV_MAX /\ Z.abs (-24 - 8) <= MV_MAX /\
  exists s1,
    av1_encode_dv (mkMV 16 (-24)) (mkMV 0 8) Sample.state = Some (tt, s1) /\
    writer s1 = writer s1 /\ mkMV 16 (-24) = mkMV 16 (-24).
Proof.
  assert (H1 : CLASS0_BITS = 1) by reflexivity.
  assert (H2 : CLASS0_SIZE = 2) by reflexivity.
  assert (H3 : MV_MAX <= 16384) by by_evaluation.
  assert (H7 : Z.abs (16 - 0) <= MV_MAX) by by_evaluation.
  assert (H8 : Z.abs (-24 - 8) <= MV_MAX) by by_evaluation.
  assert (Hrun := av1_encode_dv_emits (mkMV 16 (-24)) (mkMV 0 8)
                    eq_refl eq_refl eq_refl eq_refl Sample.state).
  repeat (split; [assumption|]).
  eexists. split; [exact Hrun|]. split; [reflexivity|].
  exact (av1_encode_dv_injective (mkMV 16 (-24)) (mkMV 16 (-24)) (mkMV 0 8)
           Sample.state _ _ H1 H2 H3 H7 H8 H7 H8 Hrun Hrun eq_refl).
Defined.

(** In the restricted entry two vectors one pixel apart are written
    differently. *)
Example av1_encode_dv_distinct :
  (fun r => writer (snd r))
    <$> av1_encode_dv (mkMV 16 (-24)) (mkMV 0 8) Sample.state
  <> (fun r => writer (snd r))
       <$> av1_encode_dv (mkMV 24 (-24)) (mkMV 0 8) Sample.state.
Proof. vm_compute. discriminate. Qed.

(** Beyond [MV_MAX] the class saturates and the integer part no longer
    fits the bits that are written: the restricted entry writes the same
    symbols for a row of 8200 and for one of 16392. *)
Example av1_encode_dv_beyond_MV_MAX :
  MV_MAX < 16392 /\
  (fun r => writer (snd r))
    <$> av1_encode_dv (mkMV 8200 0) (mkMV 0 0) Sample.state
  = Some ([mkWrite 2 joints_cdf 4;
           mkWrite 0 (comps 0 sign_cdf) 2;
           mkWrite 10 (comps 0 classes_cdf) 11]
          ++ ((fun i => mkWrite 0 (comps 0 (bits_cdf i)) 2)
                <$> seqZ 0 10)) /\
  (fun r => writer (snd r))
    <$> av1_encode_dv (mkMV 16392 0) (mkMV 0 0) Sample.state
  = (fun r => writer (snd r))
      <$> av1_encode_dv (mkMV 8200 0) (mkMV 0 0) Sample.state.
Proof. repeat split; vm_compute; reflexivity. Qed.

Lemma av1_get_ref_mv_spec_witness :
  av1_get_ref_mv Sample.near_new_block 0 = Some (mkMV 8 16) /\
  av1_get_ref_mv Sample.near_new_block 1 = Some (mkMV (-8) 8).
Proof.
  apply (proj1 (av1_get_ref_mv_spec Sample.near_new_block));
    [left; reflexivity|reflexivity|reflexivity].
Defined.

Lemma av1_find_best_ref_mvs_from_stack_spec_witness :
  NONE_FRAME <= INTRA_FRAME /\
  av1_find_best_ref_mvs_from_stack 0 Sample.mbmi_ext 1
  = Some (mkMV 0 16, mkMV 8 16) /\
  av1_find_best_ref_mvs_from_stack 0 Sample.empty_ext 1
  = Some (mkMV 32 (-28), mkMV 32 (-28)).
Proof.
  assert (H : NONE_FRAME <= INTRA_FRAME) by by_evaluation.
  split; [exact H|]. split.
  - exact (proj1 (av1_find_best_ref_mvs_from_stack_spec 0 Sample.mbmi_ext 1
                    H)).
  - apply (proj2 (av1_find_best_ref_mvs_from_stack_spec 0 Sample.empty_ext 1
                    H)).
    by_evaluation.
Defined.

Lemma get_mv_class_monotone_witness :
  0 < CLASS0_SIZE <= 4 /\ 0 <= 100 /\ 100 <= 9000 /\ 9000 <= INT_MAX /\
  fst (get_mv_class 100) <= fst (get_mv_class 9000).
Proof.
  assert (H1 : 0 < CLASS0_SIZE <= 4) by by_evaluation.
  assert (H2 : 0 <= 100) by by_evaluation.
  assert (H3 : 100 <= 9000) by by_evaluation.
  assert (H4 : 9000 <= INT_MAX) by by_evaluation.
  repeat (split; [assumption|]).
  exact (get_mv_class_monotone 100 9000 H1 H2 H3 H4).
Defined.

Lemma cost_table_full_pixel_reads_witness :
  MV_SUBPEL_NONE <= MV_SUBPEL_NONE /\
  Sample.component (fp_cdf [0]) <> Sample.skewed_component (fp_cdf [0]) /\
  build_nmv_component_cost_table (fun _ => 0) Sample.component
                                 MV_SUBPEL_NONE (-20)
  = build_nmv_component_cost_table (fun _ => 0) Sample.skewed_component
                                   MV_SUBPEL_NONE (-20).
Proof.
  assert (H : MV_SUBPEL_NONE <= MV_SUBPEL_NONE) by by_evaluation.
  split; [exact H|]. split; [discriminate|].
  apply (cost_table_full_pixel_reads (fun _ => 0) Sample.component
           Sample.skewed_component MV_SUBPEL_NONE (-20) H);
    reflexivity.
Defined.

Lemma magnitude_fields_witness :
  CLASS0_BITS = 1 /\ CLASS0_SIZE = 2 /\ MV_MAX <= 16384 /\
  1 <= 1000 <= MV_MAX /\
  get_mv_class 999 = (6, 487) /\
  487 = 8 * Z.shiftr 487 3 + 2 * Z.land (Z.shiftr 487 1) 3 + Z.land 487 1 /\
  0 <= Z.shiftr 487 3 < 2 ^ 6.
Proof.
  assert (H1 : CLASS0_BITS = 1) by reflexivity.
  assert (H2 : CLASS0_SIZE = 2) by reflexivity.
  assert (H3 : MV_MAX <= 16384) by by_evaluation.
  assert (H4 : 1 <= 1000 <= MV_MAX) by by_evaluation.
  destruct (magnitude_fields 1000 H1 H2 H3 H4)
    as (_ & Hfields & _ & _ & _ & Hd).
  repeat (split; [assumption|]).
  split; [reflexivity|]. split; [exact Hfields|].
  exact (proj1 (Hd ltac:(discriminate))).
Defined.
